(** * Derivatives pricing library: lattice, Monte Carlo, LSMC and Heston engines

    A shallow embedding of the numerical pricing engines of the C++
    library ([binomial_tree.cpp], [monte_carlo.cpp], [heston.cpp] with the
    LSMC engine, [pricing_model.hpp], [asian_option.hpp] and the random
    generator of [random.hpp]) together with the properties the
    specification states about them.

    The C++ code computes on [double].  The engines are embedded over an
    interface [Arith] of the [double] operations they use, so that every
    generic theorem holds for IEEE arithmetic as well as for exact real
    arithmetic; comparisons are kept boolean, exactly as the code branches
    on them.  Exact real arithmetic ([R]) is the instance used for concrete
    inputs and for the algebra of the prices.  A second instance ([ext])
    adds the range and the special values of [double] to it, overflow to an
    infinity and NaN included: it is the one used where an infinity or NaN
    decides what the code does. *)

From Stdlib Require Import List Sorted ZArith Bool Lia String.
From Stdlib Require Import Reals Lra.
Import ListNotations.

Set Implicit Arguments.

(** ** The [double] operations the engines use *)

Declare Scope D_scope.
Delimit Scope D_scope with D.

Class Arith (D : Type) : Type := {
  dZ : Z -> D;                  (* conversion of an integer to double *)
  dadd : D -> D -> D;
  dsub : D -> D -> D;
  dmul : D -> D -> D;
  ddiv : D -> D -> D;
  dneg : D -> D;
  dexp : D -> D;                (* std::exp *)
  dsqrt : D -> D;               (* std::sqrt *)
  dpow : D -> D -> D;           (* std::pow *)
  dlog : D -> D;                (* std::log *)
  dpi : D;                      (* M_PI *)
  dabs : D -> D;                (* std::abs *)
  dltb : D -> D -> bool;        (* operator< *)
  dleb : D -> D -> bool;        (* operator<= *)
  disfinite : D -> bool         (* std::isfinite *)
}.

Infix "+" := dadd : D_scope.
Infix "-" := dsub : D_scope.
Infix "*" := dmul : D_scope.
Infix "/" := ddiv : D_scope.
Notation "- x" := (dneg x) : D_scope.
Infix "<?" := dltb : D_scope.
Infix "<=?" := dleb : D_scope.

(** Exceptions of the C++ code, and results of code that may throw. *)

Inductive exn : Type :=
| invalid_argument (what : string)
| runtime_error (what : string).

Inductive result (A : Type) : Type :=
| Ok (a : A)
| Throw (e : exn).
Arguments Ok {A} a.
Arguments Throw {A} e.

Definition rbind {A B} (r : result A) (k : A -> result B) : result B :=
  match r with
  | Ok a => k a
  | Throw e => Throw e
  end.

(** Vectors indexed by position: [v[i]] and [v[i] = x]. *)

Definition vget {A} (d : A) (v : list A) (i : nat) : A := nth i v d.

Fixpoint vset {A} (v : list A) (i : nat) (x : A) : list A :=
  match v, i with
  | [], _ => []
  | _ :: t, O => x :: t
  | h :: t, S j => h :: vset t j x
  end.

(** ** core/types.hpp *)

Inductive OptionType := CALL | PUT.
Inductive OptionStyle := EUROPEAN | AMERICAN | BERMUDAN.
Inductive BarrierType := UP_AND_IN | UP_AND_OUT | DOWN_AND_IN | DOWN_AND_OUT.
Inductive AveragingType := ARITHMETIC | GEOMETRIC.

Definition OptionStyle_eqb (a b : OptionStyle) : bool :=
  match a, b with
  | EUROPEAN, EUROPEAN | AMERICAN, AMERICAN | BERMUDAN, BERMUDAN => true
  | _, _ => false
  end.

(** [std::complex<double>] and the mixed operations with [double] that the
    Heston characteristic function uses. *)

Class ComplexArith (D : Type) : Type := {
  C : Type;
  cmk : D -> D -> C;            (* std::complex<double>(re, im) *)
  creal : C -> D;               (* .real() *)
  cadd : C -> C -> C;
  csub : C -> C -> C;
  cmul : C -> C -> C;
  cdiv : C -> C -> C;
  cneg : C -> C;
  rmulc : D -> C -> C;          (* double * complex *)
  cmulr : C -> D -> C;          (* complex * double *)
  cdivr : C -> D -> C;          (* complex / double *)
  csubr : C -> D -> C;          (* complex - double *)
  rsubc : D -> C -> C;          (* double - complex *)
  csqrt : C -> C;               (* std::sqrt *)
  cexp : C -> C;                (* std::exp *)
  clog : C -> C;                (* std::log *)
  cpowr : C -> D -> C           (* std::pow(complex, double) *)
}.

(** ** math/random.hpp: the random generator

    [std::mt19937] and the two distribution objects are library code: the
    generator is a state ([RandomGenerator]) built from a seed, and a draw
    returns a value together with the advanced state. *)

Class RandomStream (D : Type) : Type := {
  RandomGenerator : Type;
  RandomGenerator_new : Z -> RandomGenerator;
  next_normal : RandomGenerator -> D * RandomGenerator;
  next_uniform : RandomGenerator -> D * RandomGenerator;
  set_seed : Z -> RandomGenerator -> RandomGenerator
}.

Section Engines.

Context {D : Type} {AR : Arith D} {CA : ComplexArith D} {RS : RandomStream D}.
Local Open Scope D_scope.

Definition d0 : D := dZ 0.
Definition d1 : D := dZ 1.
Definition d2 : D := dZ 2.

(** [std::max(a, b)] is [(a < b) ? b : a]. *)
Definition dmax (a b : D) : D := if a <? b then b else a.

(** [x > y] and [x >= y] are [y < x] and [y <= x]. *)
Definition dgtb (x y : D) : bool := y <? x.
Definition dgeb (x y : D) : bool := y <=? x.

(** ** core/marketdata.hpp *)

Record MarketData := {
  spot : D;
  rate : D;
  volatility : D;
  dividend : D
}.

Definition MarketData_new (s r vol div : D) : result MarketData :=
  if (s <=? d0) || negb (disfinite s) then
    Throw (invalid_argument "Spot price must be positive and finite")
  else if (vol <=? d0) || negb (disfinite vol) then
    Throw (invalid_argument "Volatility must be positive and finite")
  else if negb (disfinite r) then
    Throw (invalid_argument "Interest rate must be finite")
  else if negb (disfinite div) then
    Throw (invalid_argument "Dividend yield must be finite")
  else Ok {| spot := s; rate := r; volatility := vol; dividend := div |}.

(** ** products/option.hpp and the derived products

    The class hierarchy is a base record with the dynamic type of the
    object as a tag; [payoff] is the virtual method, [Option_payoff] the
    base-class implementation ([option.Option::payoff]). *)

Inductive Product :=
| Vanilla
| Asian (averaging_type : AveragingType) (num_observations : nat)
| Barrier (barrier_type : BarrierType) (barrier_level rebate : D)
| Digital (payout : D)
| AssetOrNothing.

Record Option := {
  strike : D;
  expiry : D;
  type : OptionType;
  style : OptionStyle;
  product : Product
}.

(** [Option::validate], run by the base constructor. *)
Definition Option_validate (o : Option) : result Option :=
  if negb (disfinite (strike o)) || (strike o <=? d0) then
    Throw (invalid_argument "Strike price must be positive and finite")
  else if negb (disfinite (expiry o)) || (expiry o <=? d0) then
    Throw (invalid_argument "Expiry must be positive and finite")
  else Ok o.

Definition Option_new (K T : D) (ty : OptionType) (st : OptionStyle) : result Option :=
  Option_validate {| strike := K; expiry := T; type := ty; style := st; product := Vanilla |}.

Definition EuropeanOption_new (K T : D) (ty : OptionType) : result Option :=
  Option_new K T ty EUROPEAN.

Definition AmericanOption_new (K T : D) (ty : OptionType) : result Option :=
  Option_new K T ty AMERICAN.

Definition AsianOption_new (K T : D) (ty : OptionType) (avg : AveragingType)
    (n : nat) : result Option :=
  Option_validate {| strike := K; expiry := T; type := ty; style := EUROPEAN;
                     product := Asian avg n |}.

Definition DigitalOption_new (K T : D) (ty : OptionType) (pay : D) : result Option :=
  rbind (Option_validate {| strike := K; expiry := T; type := ty; style := EUROPEAN;
                            product := Digital pay |})
    (fun o =>
       if negb (disfinite pay) || (pay <=? d0) then
         Throw (invalid_argument "Payout must be positive and finite")
       else Ok o).

Definition BarrierOption_new (K T : D) (ty : OptionType) (bt : BarrierType)
    (level reb : D) : result Option :=
  rbind (Option_validate {| strike := K; expiry := T; type := ty; style := EUROPEAN;
                            product := Barrier bt level reb |})
    (fun o =>
       if negb (disfinite level) || (level <=? d0) then
         Throw (invalid_argument "Barrier level must be positive and finite")
       else if negb (disfinite reb) || (reb <? d0) then
         Throw (invalid_argument "Rebate must be non-negative and finite")
       else Ok o).

Definition Option_payoff (o : Option) (s : D) : D :=
  match type o with
  | CALL => dmax (s - strike o) d0
  | PUT => dmax (strike o - s) d0
  end.

Definition in_the_money (o : Option) (s : D) : bool :=
  match type o with
  | CALL => dgtb s (strike o)
  | PUT => s <? strike o
  end.

Definition payoff (o : Option) (s : D) : D :=
  match product o with
  | Vanilla => Option_payoff o s
  | Asian _ _ =>
      match type o with
      | CALL => dmax (s - strike o) d0
      | PUT => dmax (strike o - s) d0
      end
  | Barrier _ _ _ => Option_payoff o s
  | Digital pay => if in_the_money o s then pay else d0
  | AssetOrNothing => if in_the_money o s then s else d0
  end.

(** ** models/binomial_tree.cpp: the binomial lattice *)

Record TreeParams := {
  u : D;
  d : D;
  p : D;
  dt : D;
  df : D
}.

Definition dnat (n : nat) : D := dZ (Z.of_nat n).

(** The risk-neutral up-probability, as [calculate_parameters] computes it. *)
Definition crr_probability (num_steps : nat) (md : MarketData) (T : D) : D :=
  let dt := T / dnat num_steps in
  let u := dexp (volatility md * dsqrt dt) in
  let d := d1 / u in
  let growth_factor := dexp ((rate md - dividend md) * dt) in
  (growth_factor - d) / (u - d).

Definition calculate_parameters (num_steps : nat) (md : MarketData) (T : D)
  : result TreeParams :=
  let dt := T / dnat num_steps in
  let sigma := volatility md in
  let r := rate md in
  let q := dividend md in
  let u := dexp (sigma * dsqrt dt) in
  let d := d1 / u in
  let df := dexp (- r * dt) in
  let growth_factor := dexp ((r - q) * dt) in
  let p := (growth_factor - d) / (u - d) in
  if (p <? d0) || dgtb p d1 then
    Throw (runtime_error "Invalid binomial tree parameters")
  else Ok {| u := u; d := d; p := p; dt := dt; df := df |}.

(** Spot at position [i] of the terminal layer. *)
Definition terminal_spot (num_steps : nat) (S : D) (pr : TreeParams) (i : nat) : D :=
  S * dpow (u pr) (dnat (num_steps - i)) * dpow (d pr) (dnat i).

(** Spot at node [i] of layer [step] (both are [int] in the code). *)
Definition node_spot (S : D) (pr : TreeParams) (step i : nat) : D :=
  S * dpow (u pr) (dZ (Z.of_nat step - Z.of_nat i)) * dpow (d pr) (dZ (Z.of_nat i)).

(** The layers [num_steps - 1, ..., 0] of the backward sweep. *)
Definition steps_down (num_steps : nat) : list nat := rev (seq 0 num_steps).

Definition price_european (num_steps : nat) (o : Option) (md : MarketData)
    (pr : TreeParams) : D :=
  let S := spot md in
  let values := map (fun i => payoff o (terminal_spot num_steps S pr i))
                    (seq 0 (num_steps + 1)) in
  let values :=
    fold_left
      (fun values step =>
         fold_left
           (fun values i =>
              vset values i
                (df pr * (p pr * vget d0 values i
                          + (d1 - p pr) * vget d0 values (i + 1))))
           (seq 0 (step + 1)) values)
      (steps_down num_steps) values in
  vget d0 values 0.

(** One node of the American sweep: [values[i] = max(continuation, exercise)]. *)
Definition american_node_update (o : Option) (S : D) (pr : TreeParams)
    (step : nat) (values : list D) (i : nat) : list D :=
  let S_node := node_spot S pr step i in
  let continuation :=
    df pr * (p pr * vget d0 values i + (d1 - p pr) * vget d0 values (i + 1)) in
  let exercise := payoff o S_node in
  vset values i (dmax continuation exercise).

Definition american_sweep (o : Option) (S : D) (pr : TreeParams)
    (values : list D) (step : nat) : list D :=
  fold_left (american_node_update o S pr step) (seq 0 (step + 1)) values.

Definition american_terminal (num_steps : nat) (o : Option) (S : D)
    (pr : TreeParams) : list D :=
  map (fun i => payoff o (terminal_spot num_steps S pr i)) (seq 0 (num_steps + 1)).

Definition price_american (num_steps : nat) (o : Option) (md : MarketData)
    (pr : TreeParams) : D :=
  let S := spot md in
  let values := american_terminal num_steps o S pr in
  let values := fold_left (american_sweep o S pr) (steps_down num_steps) values in
  vget d0 values 0.

Definition BinomialTreeModel_price (num_steps : nat) (o : Option) (md : MarketData)
  : result D :=
  rbind (calculate_parameters num_steps md (expiry o))
    (fun params =>
       match style o with
       | AMERICAN => Ok (price_american num_steps o md params)
       | _ => Ok (price_european num_steps o md params)
       end).

(** *** The trinomial lattice

    [i - num_steps_] is a difference of two [size_t]: it wraps modulo
    [2^64] before it is converted to [double]. *)

Definition size_t_sub (a b : nat) : Z := ((Z.of_nat a - Z.of_nat b) mod 2 ^ 64)%Z.

Definition dhalf : D := d1 / d2.
Definition d3 : D := dZ 3.

Record TrinomialParams := {
  tri_dx : D;
  tri_pu : D;
  tri_pm : D;
  tri_pd : D;
  tri_df : D
}.

Definition trinomial_parameters (num_steps : nat) (o : Option) (md : MarketData)
  : TrinomialParams :=
  let T := expiry o in
  let r := rate md in
  let q := dividend md in
  let sigma := volatility md in
  let dt := T / dnat num_steps in
  let dx := sigma * dsqrt (d3 * dt) in
  let nu := r - q - dhalf * sigma * sigma in
  let pu := dhalf * ((sigma * sigma * dt + nu * nu * dt * dt) / (dx * dx) + nu * dt / dx) in
  let pm := d1 - (sigma * sigma * dt + nu * nu * dt * dt) / (dx * dx) in
  let pd := dhalf * ((sigma * sigma * dt + nu * nu * dt * dt) / (dx * dx) - nu * dt / dx) in
  let df := dexp (- r * dt) in
  {| tri_dx := dx; tri_pu := pu; tri_pm := pm; tri_pd := pd; tri_df := df |}.

(** Terminal layer: [int j = i - num_steps_] is the signed difference. *)
Definition trinomial_terminal (num_steps : nat) (o : Option) (S : D)
    (tp : TrinomialParams) : list D :=
  map (fun i =>
         let j := (Z.of_nat i - Z.of_nat num_steps)%Z in
         payoff o (S * dexp (dZ j * tri_dx tp)))
      (seq 0 (2 * num_steps + 1)).

Definition trinomial_node_update (num_steps : nat) (o : Option) (S : D)
    (tp : TrinomialParams) (values : list D) (i : nat) : list D :=
  let S_node := S * dexp (dZ (size_t_sub i num_steps) * tri_dx tp) in
  let continuation :=
    tri_df tp * (tri_pu tp * vget d0 values (i + 1)
                 + tri_pm tp * vget d0 values i
                 + tri_pd tp * vget d0 values (i - 1)) in
  match style o with
  | AMERICAN =>
      let exercise := payoff o S_node in
      vset values i (dmax continuation exercise)
  | _ => vset values i continuation
  end.

Definition trinomial_sweep (num_steps : nat) (o : Option) (S : D)
    (tp : TrinomialParams) (values : list D) (step : nat) : list D :=
  let start := (num_steps - step)%nat in
  let end_ := (num_steps + step)%nat in
  fold_left (trinomial_node_update num_steps o S tp)
            (seq start (end_ + 1 - start)%nat) values.

Definition TrinomialTreeModel_price (num_steps : nat) (o : Option) (md : MarketData) : D :=
  let S := spot md in
  let tp := trinomial_parameters num_steps o md in
  let values := trinomial_terminal num_steps o S tp in
  let values := fold_left (trinomial_sweep num_steps o S tp) (steps_down num_steps) values in
  vget d0 values num_steps.

(** ** Code that draws random numbers and may throw

    A member function of an engine reads and advances the engine's
    [mutable] generator; an exception leaves the generator as advanced. *)

Definition M (A : Type) : Type := RandomGenerator -> result A * RandomGenerator.

Definition ret {A} (a : A) : M A := fun g => (Ok a, g).

Definition throw {A} (e : exn) : M A := fun g => (Throw e, g).

Definition bind {A B} (m : M A) (k : A -> M B) : M B :=
  fun g =>
    match m g with
    | (Ok a, g') => k a g'
    | (Throw e, g') => (Throw e, g')
    end.

Definition lift {A} (r : result A) : M A := fun g => (r, g).

(** [RandomGenerator::correlated_normals] *)
Definition correlated_normals (correlation : D) (g : RandomGenerator)
  : (D * D) * RandomGenerator :=
  let (z1, g1) := next_normal g in
  let (z2, g2) := next_normal g1 in
  let w1 := z1 in
  let w2 := correlation * z1 + dsqrt (d1 - correlation * correlation) * z2 in
  ((w1, w2), g2).

(** ** models/monte_carlo.cpp *)

Record MonteCarloConfig := {
  num_paths : nat;
  num_timesteps : nat;
  seed : Z;
  use_antithetic : bool;
  use_control_variate : bool
}.

Definition MonteCarloConfig_default : MonteCarloConfig :=
  {| num_paths := 100 * 1000; num_timesteps := 100; seed := 12345;
     use_antithetic := true; use_control_variate := false |}.

Record MonteCarloModel := {
  config_ : MonteCarloConfig;
  rng_ : RandomGenerator
}.

Definition MonteCarloModel_new (config : MonteCarloConfig) : MonteCarloModel :=
  {| config_ := config; rng_ := RandomGenerator_new (seed config) |}.

(** The loop of [simulate_path]: entries [path[1..num_steps]], each from the
    entry before it and a fresh normal draw. *)
Fixpoint gbm_steps (drift diffusion : D) (n : nat) (prev : D) (g : RandomGenerator)
  : list D * RandomGenerator :=
  match n with
  | O => ([], g)
  | S n' =>
      let (dW, g1) := next_normal g in
      let x := prev * dexp (drift + diffusion * dW) in
      let (rest, g2) := gbm_steps drift diffusion n' x g1 in
      (x :: rest, g2)
  end.

Definition simulate_path (S0 : D) (md : MarketData) (T : D) (num_steps : nat)
    (g : RandomGenerator) : list D * RandomGenerator :=
  let dt := T / dnat num_steps in
  let sigma := volatility md in
  let r := rate md in
  let q := dividend md in
  let drift := (r - q - dhalf * sigma * sigma) * dt in
  let diffusion := sigma * dsqrt dt in
  let (tl, g') := gbm_steps drift diffusion num_steps S0 g in
  (S0 :: tl, g').

(** [path.back()] *)
Definition back (path : list D) : D := last path d0.

(** The path loop of the plain European case: [n] iterations from the
    running [sum]. *)
Fixpoint vanilla_loop (cfg : MonteCarloConfig) (o : Option) (md : MarketData)
    (n : nat) (sum sum_sq : D) (g : RandomGenerator) : (D * D) * RandomGenerator :=
  match n with
  | O => ((sum, sum_sq), g)
  | S n' =>
      let (path, g1) := simulate_path (spot md) md (expiry o) (num_timesteps cfg) g in
      let S_T := back path in
      let payoff := payoff o S_T in
      let sum := sum + payoff in
      let sum_sq := sum_sq + payoff * payoff in
      let sum := if use_antithetic cfg then sum + payoff else sum in
      vanilla_loop cfg o md n' sum sum_sq g1
  end.

(** [AsianOption::calculate_average] *)
Definition calculate_average (avg : AveragingType) (observations : list D) : D :=
  match observations with
  | [] => d0
  | _ =>
      match avg with
      | ARITHMETIC =>
          let sum := fold_left (fun sum obs => sum + obs) observations d0 in
          sum / dnat (List.length observations)
      | GEOMETRIC =>
          let product := fold_left (fun product obs => product * obs) observations d1 in
          dpow product (d1 / dnat (List.length observations))
      end
  end.

Fixpoint asian_loop (cfg : MonteCarloConfig) (o : Option) (avg : AveragingType)
    (nobs : nat) (md : MarketData) (n : nat) (sum : D) (g : RandomGenerator)
  : D * RandomGenerator :=
  match n with
  | O => (sum, g)
  | S n' =>
      let (path, g1) := simulate_path (spot md) md (expiry o) nobs g in
      let avg_price := calculate_average avg path in
      let payoff := payoff o avg_price in
      asian_loop cfg o avg nobs md n' (sum + payoff) g1
  end.

Definition price_asian (cfg : MonteCarloConfig) (o : Option) (avg : AveragingType)
    (nobs : nat) (md : MarketData) (g : RandomGenerator) : D * RandomGenerator :=
  let T := expiry o in
  let r := rate md in
  let (sum, g') := asian_loop cfg o avg nobs md (num_paths cfg) d0 g in
  let mean_payoff := sum / dnat (num_paths cfg) in
  (dexp (- r * T) * mean_payoff, g').

(** [BarrierOption::is_knocked] and [is_knock_in] *)
Definition is_knocked (bt : BarrierType) (barrier_level spot_price : D) : bool :=
  match bt with
  | UP_AND_IN | UP_AND_OUT => dgeb spot_price barrier_level
  | DOWN_AND_IN | DOWN_AND_OUT => spot_price <=? barrier_level
  end.

Definition is_knock_in (bt : BarrierType) : bool :=
  match bt with
  | UP_AND_IN | DOWN_AND_IN => true
  | _ => false
  end.

Fixpoint barrier_loop (cfg : MonteCarloConfig) (o : Option) (bt : BarrierType)
    (level reb : D) (md : MarketData) (n : nat) (sum : D) (g : RandomGenerator)
  : D * RandomGenerator :=
  match n with
  | O => (sum, g)
  | S n' =>
      let (path, g1) := simulate_path (spot md) md (expiry o) (num_timesteps cfg) g in
      let barrier_hit := existsb (is_knocked bt level) path in
      let payoff :=
        if is_knock_in bt then
          if barrier_hit then Option_payoff o (back path) else reb
        else
          if barrier_hit then reb else Option_payoff o (back path) in
      barrier_loop cfg o bt level reb md n' (sum + payoff) g1
  end.

Definition price_barrier (cfg : MonteCarloConfig) (o : Option) (bt : BarrierType)
    (level reb : D) (md : MarketData) (g : RandomGenerator) : D * RandomGenerator :=
  let T := expiry o in
  let r := rate md in
  let (sum, g') := barrier_loop cfg o bt level reb md (num_paths cfg) d0 g in
  let mean_payoff := sum / dnat (num_paths cfg) in
  (dexp (- r * T) * mean_payoff, g').

(** The number of loop iterations of the plain European case. *)
Definition total_paths (cfg : MonteCarloConfig) : nat :=
  if use_antithetic cfg then (num_paths cfg / 2)%nat else num_paths cfg.

(** The divisor of the payoff sum. *)
Definition actual_paths (cfg : MonteCarloConfig) : D :=
  if use_antithetic cfg then dnat (num_paths cfg) else dnat (total_paths cfg).

Definition MonteCarloModel_price (cfg : MonteCarloConfig) (o : Option) (md : MarketData)
  : M D :=
  fun g =>
    if negb (OptionStyle_eqb (style o) EUROPEAN) then
      (Throw (invalid_argument
         "Basic Monte Carlo only supports European options. Use LSMC for American options."), g)
    else
      match product o with
      | Asian avg nobs =>
          let (v, g') := price_asian cfg o avg nobs md g in (Ok v, g')
      | Barrier bt level reb =>
          let (v, g') := price_barrier cfg o bt level reb md g in (Ok v, g')
      | _ =>
          let T := expiry o in
          let r := rate md in
          let '((sum, sum_sq), g') := vanilla_loop cfg o md (total_paths cfg) d0 d0 g in
          let mean_payoff := sum / actual_paths cfg in
          (Ok (dexp (- r * T) * mean_payoff), g')
      end.

(** ** models/heston.cpp *)

Record HestonParams := {
  kappa : D;
  theta : D;
  sigma : D;
  rho : D;
  v0 : D
}.

Definition characteristic_function (params_ : HestonParams) (u : C) (S v T r q : D) : C :=
  let i := cmk d0 d1 in
  let kappa := kappa params_ in
  let theta := theta params_ in
  let sigma := sigma params_ in
  let rho := rho params_ in
  let d :=
    csqrt (cadd (cpowr (csubr (cmul (rmulc (rho * sigma) u) i) kappa) d2)
                (rmulc (sigma * sigma) (cadd (cmul u i) (cmul u u)))) in
  let g :=
    cdiv (csub (rsubc kappa (cmul (rmulc (rho * sigma) u) i)) d)
         (cadd (rsubc kappa (cmul (rmulc (rho * sigma) u) i)) d) in
  let C_ :=
    cadd (cmulr (cmul (rmulc (r - q) u) i) T)
         (rmulc ((kappa * theta) / (sigma * sigma))
            (csub (cmulr (csub (rsubc kappa (cmul (rmulc (rho * sigma) u) i)) d) T)
                  (rmulc d2
                     (clog (cdiv (rsubc d1 (cmul g (cexp (cmulr (cneg d) T))))
                                 (rsubc d1 g)))))) in
  let D_ :=
    cdiv (cmul (cdivr (csub (rsubc kappa (cmul (rmulc (rho * sigma) u) i)) d)
                      (sigma * sigma))
               (rsubc d1 (cexp (cmulr (cneg d) T))))
         (rsubc d1 (cmul g (cexp (cmulr (cneg d) T)))) in
  cexp (cadd (cadd C_ (cmulr D_ v)) (cmulr (cmul i u) (dlog S))).

Definition heston_integrand (params_ : HestonParams) (phi S K T r q : D) (j : Z) : D :=
  let i := cmk d0 d1 in
  let u := if (j =? 1)%Z then rsubc phi i else cmk phi d0 in
  let f := characteristic_function params_ u S (v0 params_) T r q in
  let integrand :=
    cdiv (cmul (cexp (cmulr (cmulr (cneg i) phi) (dlog K))) f) (cmulr i phi) in
  creal integrand.

Definition integrate (params_ : HestonParams) (S K T r q : D) (j : Z) : D :=
  let n_points := 1000%nat in
  let upper_limit := dZ 100 in
  let dx := upper_limit / dnat n_points in
  let sum :=
    fold_left (fun sum i => sum + heston_integrand params_ (dnat i * dx) S K T r q j)
              (seq 1 (n_points - 1)) d0 in
  sum * dx.

Definition price_semi_analytical (params_ : HestonParams) (o : Option) (md : MarketData) : D :=
  let S := spot md in
  let K := strike o in
  let T := expiry o in
  let r := rate md in
  let q := dividend md in
  let P1 := dhalf + integrate params_ S K T r q 1 / dpi in
  let P2 := dhalf + integrate params_ S K T r q 2 / dpi in
  match type o with
  | CALL => S * dexp (- q * T) * P1 - K * dexp (- r * T) * P2
  | PUT => K * dexp (- r * T) * (d1 - P2) - S * dexp (- q * T) * (d1 - P1)
  end.

Definition HestonModel_price (params_ : HestonParams) (o : Option) (md : MarketData)
  : result D :=
  if negb (OptionStyle_eqb (style o) EUROPEAN) then
    Throw (invalid_argument "Heston model currently only supports European options")
  else Ok (price_semi_analytical params_ o md).

(** One iteration of the loop of [HestonModel::simulate_path]: from
    [S_path[i-1]], [v_path[i-1]] to [S_path[i]], [v_path[i]]. *)
Definition heston_step (params_ : HestonParams) (md : MarketData) (dt : D)
    (S_prev v_prev_raw : D) (g : RandomGenerator) : (D * D) * RandomGenerator :=
  let r := rate md in
  let q := dividend md in
  let '((Z1, Z2), g') := correlated_normals (rho params_) g in
  let v_prev := dmax v_prev_raw d0 in
  let dv := kappa params_ * (theta params_ - v_prev) * dt
            + sigma params_ * dsqrt (v_prev * dt) * Z2 in
  let v_i := v_prev + dv in
  let dS := (r - q) * S_prev * dt + S_prev * dsqrt (v_prev * dt) * Z1 in
  let S_i := S_prev + dS in
  ((S_i, v_i), g').

Fixpoint heston_steps (params_ : HestonParams) (md : MarketData) (dt : D) (n : nat)
    (S_prev v_prev : D) (g : RandomGenerator) : (list D * list D) * RandomGenerator :=
  match n with
  | O => (([], []), g)
  | S n' =>
      let '((S_i, v_i), g1) := heston_step params_ md dt S_prev v_prev g in
      let '((Ss, vs), g2) := heston_steps params_ md dt n' S_i v_i g1 in
      ((S_i :: Ss, v_i :: vs), g2)
  end.

Definition heston_simulate_path (params_ : HestonParams) (S0 v0 : D) (md : MarketData)
    (T : D) (num_steps : nat) (g : RandomGenerator)
  : (list D * list D) * RandomGenerator :=
  let dt := T / dnat num_steps in
  let '((Ss, vs), g') := heston_steps params_ md dt num_steps S0 v0 g in
  ((S0 :: Ss, v0 :: vs), g').

Fixpoint heston_mc_loop (params_ : HestonParams) (o : Option) (md : MarketData)
    (num_steps n : nat) (sum : D) (rng : RandomGenerator) : D * RandomGenerator :=
  match n with
  | O => (sum, rng)
  | S n' =>
      let '((S_path, v_path), rng1) :=
        heston_simulate_path params_ (spot md) (v0 params_) md (expiry o) num_steps rng in
      let payoff := payoff o (back S_path) in
      heston_mc_loop params_ o md num_steps n' (sum + payoff) rng1
  end.

(** The body of [price_monte_carlo] after the generator is built. *)
Definition heston_mc_from (rng : RandomGenerator) (params_ : HestonParams) (o : Option)
    (md : MarketData) (num_paths num_steps : nat) : D :=
  let T := expiry o in
  let r := rate md in
  let (sum, _) := heston_mc_loop params_ o md num_steps num_paths d0 rng in
  let mean_payoff := sum / dnat num_paths in
  dexp (- r * T) * mean_payoff.

Definition price_monte_carlo (params_ : HestonParams) (o : Option) (md : MarketData)
    (num_paths num_steps : nat) : D :=
  let rng := RandomGenerator_new 12345 in
  heston_mc_from rng params_ o md num_paths num_steps.

(** ** math/matrix.hpp and math/matrix.cpp *)

Record Matrix := {
  rows_ : nat;
  cols_ : nat;
  data_ : list D
}.

Definition Matrix_new (rows cols : nat) (init_value : D) : Matrix :=
  {| rows_ := rows; cols_ := cols; data_ := repeat init_value (rows * cols) |}.

Definition mget (A : Matrix) (i j : nat) : D := vget d0 (data_ A) (i * cols_ A + j).

Definition mset (A : Matrix) (i j : nat) (x : D) : Matrix :=
  {| rows_ := rows_ A; cols_ := cols_ A; data_ := vset (data_ A) (i * cols_ A + j) x |}.

Definition transpose (A : Matrix) : Matrix :=
  fold_left
    (fun result i =>
       fold_left (fun result j => mset result j i (mget A i j)) (seq 0 (cols_ A)) result)
    (seq 0 (rows_ A)) (Matrix_new (cols_ A) (rows_ A) d0).

(** [Matrix::multiply], the matrix-vector product. *)
Definition multiply (A : Matrix) (vec : list D) : result (list D) :=
  if negb (List.length vec =? cols_ A)%nat then
    Throw (invalid_argument "Vector size must match matrix columns")
  else
    Ok (fold_left
          (fun result i =>
             fold_left
               (fun result j => vset result i (vget d0 result i + mget A i j * vget d0 vec j))
               (seq 0 (cols_ A)) result)
          (seq 0 (rows_ A)) (repeat d0 (rows_ A))).

(** [1e-10], the singularity threshold. *)
Definition singular_eps : D := d1 / dZ 10000000000.

(** The pivot search of column [i]: the row of the largest absolute value. *)
Definition find_pivot (A : Matrix) (n i : nat) : nat :=
  fst (fold_left
         (fun '(max_row, max_val) k =>
            if dgtb (dabs (mget A k i)) max_val then (k, dabs (mget A k i))
            else (max_row, max_val))
         (seq (i + 1) (n - (i + 1)))
         (i, dabs (mget A i i))).

Definition swap_rows (A : Matrix) (b : list D) (n i max_row : nat) : Matrix * list D :=
  if (max_row =? i)%nat then (A, b)
  else
    let A :=
      fold_left
        (fun A k =>
           let x := mget A i k in
           let y := mget A max_row k in
           mset (mset A i k y) max_row k x)
        (seq i (n - i)) A in
    let bi := vget d0 b i in
    let bm := vget d0 b max_row in
    (A, vset (vset b i bm) max_row bi).

Definition eliminate_column (A : Matrix) (b : list D) (n i : nat) : Matrix * list D :=
  fold_left
    (fun '(A, b) k =>
       let factor := mget A k i / mget A i i in
       let A := fold_left (fun A j => mset A k j (mget A k j - factor * mget A i j))
                          (seq i (n - i)) A in
       (A, vset b k (vget d0 b k - factor * vget d0 b i)))
    (seq (i + 1) (n - (i + 1))) (A, b).

(** The forward elimination for the columns in [cols], stopping at the
    first singular pivot. *)
Fixpoint forward_elimination (n : nat) (cols : list nat) (A : Matrix) (b : list D)
  : result (Matrix * list D) :=
  match cols with
  | [] => Ok (A, b)
  | i :: rest =>
      let max_row := find_pivot A n i in
      let (A, b) := swap_rows A b n i max_row in
      if dabs (mget A i i) <? singular_eps then
        Throw (runtime_error "Matrix is singular or nearly singular")
      else
        let (A, b) := eliminate_column A b n i in
        forward_elimination n rest A b
  end.

Definition back_substitution (A : Matrix) (b : list D) (n : nat) : list D :=
  fold_left
    (fun x i =>
       let sum := fold_left (fun sum j => sum + mget A i j * vget d0 x j)
                            (seq (i + 1) (n - (i + 1))) d0 in
       vset x i ((vget d0 b i - sum) / mget A i i))
    (rev (seq 0 n)) (repeat d0 n).

Definition solve_linear_system (A : Matrix) (b : list D) : result (list D) :=
  let n := rows_ A in
  if negb (cols_ A =? n)%nat || negb (List.length b =? n)%nat then
    Throw (invalid_argument "Matrix must be square and match vector size")
  else
    rbind (forward_elimination n (seq 0 n) A b)
      (fun '(A, b) => Ok (back_substitution A b n)).

(** ** models/lsmc.cpp (the second part of heston.cpp) *)

Record LSMCConfig := {
  lsmc_num_paths : nat;
  lsmc_num_timesteps : nat;
  lsmc_seed : Z;
  lsmc_use_antithetic : bool;
  polynomial_degree : Z
}.

Record LSMCModel := {
  lsmc_config_ : LSMCConfig;
  lsmc_rng_ : RandomGenerator
}.

Definition LSMCModel_new (config : LSMCConfig) : LSMCModel :=
  {| lsmc_config_ := config; lsmc_rng_ := RandomGenerator_new (lsmc_seed config) |}.

(** One iteration of the path loop of [generate_paths]. *)
Definition generate_one (cfg : LSMCConfig) (S0 drift diffusion : D) (actual_paths : nat)
    (st : list (list D) * RandomGenerator) (i : nat) : list (list D) * RandomGenerator :=
  let (paths, g) := st in
  let (tl, g') := gbm_steps drift diffusion (lsmc_num_timesteps cfg) S0 g in
  let paths := vset paths i (S0 :: tl) in
  let paths :=
    if lsmc_use_antithetic cfg && (i + actual_paths <? lsmc_num_paths cfg)%nat then
      vset paths (i + actual_paths)
           (S0 :: map (fun j => vget d0 (vget [] paths i) j)
                      (seq 1 (lsmc_num_timesteps cfg)))
    else paths in
  (paths, g').

Definition generate_paths (cfg : LSMCConfig) (S0 : D) (md : MarketData) (T : D)
    (g : RandomGenerator) : list (list D) * RandomGenerator :=
  let paths := repeat (repeat d0 (lsmc_num_timesteps cfg + 1)) (lsmc_num_paths cfg) in
  let dt := T / dnat (lsmc_num_timesteps cfg) in
  let sigma := volatility md in
  let r := rate md in
  let q := dividend md in
  let drift := (r - q - dhalf * sigma * sigma) * dt in
  let diffusion := sigma * dsqrt dt in
  let actual_paths :=
    if lsmc_use_antithetic cfg then (lsmc_num_paths cfg / 2)%nat else lsmc_num_paths cfg in
  fold_left (generate_one cfg S0 drift diffusion actual_paths) (seq 0 actual_paths)
            (paths, g).

(** [basis_functions], for [degree >= 0]. *)
Definition basis_functions (x : D) (degree : Z) : list D :=
  let basis := repeat d0 (Z.to_nat (degree + 1)) in
  let basis := vset basis 0 (dexp (- x / d2)) in
  let basis :=
    if (1 <=? degree)%Z then vset basis 1 (dexp (- x / d2) * (d1 - x)) else basis in
  let basis :=
    if (2 <=? degree)%Z then
      vset basis 2 (dexp (- x / d2) * (d1 - d2 * x + x * x / d2))
    else basis in
  let basis :=
    if (3 <=? degree)%Z then
      vset basis 3
        (dexp (- x / d2) * (d1 - d3 * x + (d3 / d2) * x * x - x * x * x / dZ 6))
    else basis in
  fold_left
    (fun basis i =>
       vset basis i
         (((d2 * dnat i - d1 - x) * vget d0 basis (i - 1)
           - (dnat i - d1) * vget d0 basis (i - 2)) / dnat i))
    (seq 4 (Z.to_nat degree - 3)) basis.

Definition regression (x y : list D) (degree : Z) : result (list D) :=
  if negb (List.length x =? List.length y)%nat || (List.length x =? 0)%nat then
    Throw (invalid_argument "Invalid regression input")
  else
    let n := List.length x in
    let m := Z.to_nat (degree + 1) in
    let A :=
      fold_left
        (fun A i =>
           let basis := basis_functions (vget d0 x i) degree in
           fold_left (fun A j => mset A i j (vget d0 basis j)) (seq 0 m) A)
        (seq 0 n) (Matrix_new n m d0) in
    let AT := transpose A in
    let ATA :=
      fold_left
        (fun ATA i =>
           fold_left
             (fun ATA j =>
                let sum := fold_left (fun sum k => sum + mget A k i * mget A k j)
                                     (seq 0 n) d0 in
                mset ATA i j sum)
             (seq 0 m) ATA)
        (seq 0 m) (Matrix_new m m d0) in
    let ATy :=
      fold_left
        (fun ATy i =>
           fold_left (fun ATy k => vset ATy i (vget d0 ATy i + mget A k i * vget d0 y k))
                     (seq 0 n) ATy)
        (seq 0 m) (repeat d0 m) in
    solve_linear_system ATA ATy.

Definition evaluate_polynomial (coeffs : list D) (x : D) : D :=
  let basis := basis_functions x (Z.of_nat (List.length coeffs) - 1) in
  fold_left (fun result i => result + vget d0 coeffs i * vget d0 basis i)
            (seq 0 (List.length coeffs)) d0.

(** [paths[i][t]] *)
Definition at2 (m : list (list D)) (i t : nat) : D := vget d0 (vget [] m i) t.

(** The discounted future cash flow of a path seen from step [t]: the first
    positive entry after [t], discounted back to [t]. *)
Definition future_cash_flow (cfg : LSMCConfig) (r dt : D) (cash_flows : list (list D))
    (i t : nat) : D :=
  match find (fun j => dgtb (at2 cash_flows i j) d0)
             (seq (t + 1) (lsmc_num_timesteps cfg - t)) with
  | Some j => at2 cash_flows i j * dexp (- r * dt * dZ (Z.of_nat j - Z.of_nat t))
  | None => d0
  end.

(** The paths that are in the money at step [t] ([itm_indices]). *)
Definition itm_indices (cfg : LSMCConfig) (o : Option) (paths : list (list D)) (t : nat)
  : list nat :=
  filter (fun i => dgtb (payoff o (at2 paths i t)) d0) (seq 0 (lsmc_num_paths cfg)).

(** The exercise decision of one in-the-money path. *)
Definition exercise_update (cfg : LSMCConfig) (o : Option) (paths : list (list D))
    (coeffs : list D) (t : nat) (cash_flows : list (list D)) (i : nat)
  : list (list D) :=
  let continuation_value := evaluate_polynomial coeffs (at2 paths i t) in
  let exercise_value := payoff o (at2 paths i t) in
  if dgtb exercise_value continuation_value then
    let row := vset (vget [] cash_flows i) t exercise_value in
    let row := fold_left (fun row j => vset row j d0)
                         (seq (t + 1) (lsmc_num_timesteps cfg - t)) row in
    vset cash_flows i row
  else cash_flows.

(** [static_cast<size_t>(config_.polynomial_degree + 1)] *)
Definition regression_threshold (cfg : LSMCConfig) : Z :=
  ((polynomial_degree cfg + 1) mod 2 ^ 64)%Z.

(** One step [t] of the backward induction. *)
Definition lsmc_step (cfg : LSMCConfig) (o : Option) (r dt : D) (paths : list (list D))
    (cash_flows : list (list D)) (t : nat) : result (list (list D)) :=
  let itm := itm_indices cfg o paths t in
  let x_itm := map (fun i => at2 paths i t) itm in
  let y_itm := map (fun i => future_cash_flow cfg r dt cash_flows i t) itm in
  if (regression_threshold cfg <=? Z.of_nat (List.length x_itm))%Z then
    rbind (regression x_itm y_itm (polynomial_degree cfg))
      (fun coeffs => Ok (fold_left (exercise_update cfg o paths coeffs t) itm cash_flows))
  else Ok cash_flows.

Fixpoint backward_induction (cfg : LSMCConfig) (o : Option) (r dt : D)
    (paths : list (list D)) (ts : list nat) (cash_flows : list (list D))
  : result (list (list D)) :=
  match ts with
  | [] => Ok cash_flows
  | t :: rest =>
      rbind (lsmc_step cfg o r dt paths cash_flows t)
        (fun cash_flows => backward_induction cfg o r dt paths rest cash_flows)
  end.

(** The steps [num_timesteps - 1, ..., 1]. *)
Definition lsmc_steps (cfg : LSMCConfig) : list nat :=
  rev (seq 1 (lsmc_num_timesteps cfg - 1)).

Definition initial_cash_flows (cfg : LSMCConfig) (o : Option) (paths : list (list D))
  : list (list D) :=
  let T := lsmc_num_timesteps cfg in
  fold_left
    (fun cash_flows i =>
       vset cash_flows i (vset (vget [] cash_flows i) T (payoff o (at2 paths i T))))
    (seq 0 (lsmc_num_paths cfg))
    (repeat (repeat d0 (T + 1)) (lsmc_num_paths cfg)).

Definition discounted_sum (cfg : LSMCConfig) (r dt : D) (cash_flows : list (list D)) : D :=
  fold_left
    (fun sum i =>
       match find (fun t => dgtb (at2 cash_flows i t) d0)
                  (seq 0 (lsmc_num_timesteps cfg + 1)) with
       | Some t => sum + at2 cash_flows i t * dexp (- r * dt * dnat t)
       | None => sum
       end)
    (seq 0 (lsmc_num_paths cfg)) d0.

Definition LSMCModel_price (cfg : LSMCConfig) (o : Option) (md : MarketData) : M D :=
  fun g =>
    if negb (OptionStyle_eqb (style o) AMERICAN) then
      (Throw (invalid_argument "LSMC is designed for American options"), g)
    else
      let S0 := spot md in
      let T := expiry o in
      let r := rate md in
      let dt := T / dnat (lsmc_num_timesteps cfg) in
      let (paths, g') := generate_paths cfg S0 md T g in
      let cash_flows := initial_cash_flows cfg o paths in
      match backward_induction cfg o r dt paths (lsmc_steps cfg) cash_flows with
      | Throw e => (Throw e, g')
      | Ok cash_flows =>
          (Ok (discounted_sum cfg r dt cash_flows / dnat (lsmc_num_paths cfg)), g')
      end.

(** ** models/pricing_model.hpp and core/greeks.hpp *)

Record Greeks := {
  delta : D;
  gamma : D;
  vega : D;
  greek_theta : D;
  greek_rho : D
}.

Definition numerical_greeks (price : Option -> MarketData -> M D)
    (option : Option) (market_data : MarketData)
    (spot_bump vol_bump rate_bump time_bump : D) : M Greeks :=
  bind (price option market_data) (fun base_price =>
  bind (lift (MarketData_new (spot market_data * (d1 + spot_bump)) (rate market_data)
                (volatility market_data) (dividend market_data))) (fun spot_up =>
  bind (lift (MarketData_new (spot market_data * (d1 - spot_bump)) (rate market_data)
                (volatility market_data) (dividend market_data))) (fun spot_down =>
  bind (price option spot_up) (fun price_up =>
  bind (price option spot_down) (fun price_down =>
  let delta := (price_up - price_down) / (d2 * spot market_data * spot_bump) in
  let gamma := (price_up - d2 * base_price + price_down)
               / dpow (spot market_data * spot_bump) (dZ 2) in
  bind (lift (MarketData_new (spot market_data) (rate market_data)
                (volatility market_data + vol_bump) (dividend market_data))) (fun vol_up =>
  bind (price option vol_up) (fun vega_price =>
  let vega := (vega_price - base_price) / vol_bump in
  bind (lift (Option_new (strike option) (expiry option - time_bump)
                (type option) (style option))) (fun theta_option =>
  bind (price theta_option market_data) (fun theta_price =>
  let theta := (theta_price - base_price) / time_bump in
  bind (lift (MarketData_new (spot market_data) (rate market_data + rate_bump)
                (volatility market_data) (dividend market_data))) (fun rate_up =>
  bind (price option rate_up) (fun rho_price =>
  let rho := (rho_price - base_price) / rate_bump in
  ret {| delta := delta; gamma := gamma; vega := vega;
         greek_theta := theta; greek_rho := rho |}))))))))))).

(** The default bumps: 0.01, 0.001, 0.0001 and 1.0/365.0. *)
Definition default_greeks (price : Option -> MarketData -> M D)
    (option : Option) (market_data : MarketData) : M Greeks :=
  numerical_greeks price option market_data
    (d1 / dZ 100) (d1 / dZ 1000) (d1 / dZ 10000) (d1 / dZ 365).

Definition BinomialTreeModel_greeks (num_steps : nat) : Option -> MarketData -> M Greeks :=
  default_greeks (fun o md => lift (BinomialTreeModel_price num_steps o md)).

Definition TrinomialTreeModel_greeks (num_steps : nat) : Option -> MarketData -> M Greeks :=
  default_greeks (fun o md => ret (TrinomialTreeModel_price num_steps o md)).

Definition MonteCarloModel_greeks (cfg : MonteCarloConfig) : Option -> MarketData -> M Greeks :=
  default_greeks (MonteCarloModel_price cfg).

Definition LSMCModel_greeks (cfg : LSMCConfig) : Option -> MarketData -> M Greeks :=
  default_greeks (LSMCModel_price cfg).

Definition HestonModel_greeks (params_ : HestonParams) : Option -> MarketData -> M Greeks :=
  default_greeks (fun o md => lift (HestonModel_price params_ o md)).

End Engines.

Arguments MarketData D : clear implicits.
Arguments Product D : clear implicits.
Arguments Option D : clear implicits.
Arguments TreeParams D : clear implicits.
Arguments TrinomialParams D : clear implicits.
Arguments HestonParams D : clear implicits.
Arguments Matrix D : clear implicits.
Arguments Greeks D : clear implicits.

(** ** math/statistics.hpp *)

Class SpecialFunctions (D : Type) : Type := {
  derf : D -> D                 (* std::erf *)
}.

Section ClosedForm.

Context {D : Type} {AR : Arith D} {SF : SpecialFunctions D}.
Local Open Scope D_scope.

(** The decimal literal with the digits [n] and [k] decimals, [n / 10^k]; a
    compiler takes the double nearest to it. *)
Definition decimal (n : Z) (k : nat) : D := dZ n / dZ (10 ^ Z.of_nat k).

Definition norm_cdf (x : D) : D := dhalf * (d1 + derf (x / dsqrt d2)).

Definition inv_sqrt_2pi : D := decimal 3989422804014327 16.

Definition norm_pdf (x : D) : D := inv_sqrt_2pi * dexp ((- dhalf) * x * x).

(** [norm_inv_cdf], the Beasley-Springer-Moro algorithm (it is defined at
    the end of curves/volatility_surface.cpp). *)
Definition norm_inv_cdf (p : D) : result D :=
  if (p <=? d0) || dgeb p d1 then
    Throw (invalid_argument "Probability must be in (0, 1)")
  else
    let a0 := decimal 250662823884 11 in
    let a1 := - decimal 1861500062529 11 in
    let a2 := decimal 4139119773534 11 in
    let a3 := - decimal 2544106049637 11 in
    let b0 := - decimal 847351093090 11 in
    let b1 := decimal 2308336743743 11 in
    let b2 := - decimal 2106224101826 11 in
    let b3 := decimal 313082909833 11 in
    let c0 := decimal 3374754822726147 16 in
    let c1 := decimal 9761690190917186 16 in
    let c2 := decimal 1607979714918209 16 in
    let c3 := decimal 276438810333863 16 in
    let c4 := decimal 38405729373609 16 in
    let c5 := decimal 3951896511919 16 in
    let c6 := decimal 321767881768 16 in
    let c7 := decimal 2888167364 16 in
    let c8 := decimal 3960315187 16 in
    let y := p - dhalf in
    if dabs y <? decimal 42 2 then
      let r := y * y in
      Ok (y * (((a3 * r + a2) * r + a1) * r + a0)
          / ((((b3 * r + b2) * r + b1) * r + b0) * r + d1))
    else
      let r := if dgtb y d0 then d1 - p else p in
      let r := dlog (- dlog r) in
      let x := c0 + r * (c1 + r * (c2 + r * (c3 + r * (c4 + r * (c5 + r * (c6
                 + r * (c7 + r * c8))))))) in
      Ok (if y <? d0 then - x else x).

Definition mean (data : list D) : D :=
  match data with
  | [] => d0
  | _ => fold_left dadd data d0 / dnat (List.length data)
  end.

Definition variance (data : list D) : D :=
  if (List.length data <=? 1)%nat then d0
  else
    let m := mean data in
    let sum_sq := fold_left (fun sum_sq x => let diff := x - m in sum_sq + diff * diff)
                            data d0 in
    sum_sq / dnat (List.length data - 1).

Definition std_dev (data : list D) : D := dsqrt (variance data).

Definition covariance (x y : list D) : result D :=
  if negb (List.length x =? List.length y)%nat || (List.length x <=? 1)%nat then
    Throw (invalid_argument "Vectors must have same size > 1")
  else
    let mean_x := mean x in
    let mean_y := mean y in
    let sum := fold_left
                 (fun sum i => sum + (vget d0 x i - mean_x) * (vget d0 y i - mean_y))
                 (seq 0 (List.length x)) d0 in
    Ok (sum / dnat (List.length x - 1)).

(** ** models/black_scholes.hpp and models/black_scholes.cpp (the third part
       of heston.cpp) *)

Definition calculate_d1 (S K T r q sigma : D) : D :=
  (dlog (S / K) + (r - q + dhalf * sigma * sigma) * T) / (sigma * dsqrt T).

Definition calculate_d2 (d_1 sigma T : D) : D := d_1 - sigma * dsqrt T.

Definition call_price (S K T r q sigma : D) : D :=
  let d_1 := calculate_d1 S K T r q sigma in
  let d_2 := calculate_d2 d_1 sigma T in
  S * dexp (- q * T) * norm_cdf d_1 - K * dexp (- r * T) * norm_cdf d_2.

Definition put_price (S K T r q sigma : D) : D :=
  let d_1 := calculate_d1 S K T r q sigma in
  let d_2 := calculate_d2 d_1 sigma T in
  K * dexp (- r * T) * norm_cdf (- d_2) - S * dexp (- q * T) * norm_cdf (- d_1).

Definition BlackScholesModel_price (o : Option D) (md : MarketData D) : result D :=
  let S := spot md in
  let K := strike o in
  let T := expiry o in
  let r := rate md in
  let q := dividend md in
  let sigma := volatility md in
  if negb (OptionStyle_eqb (style o) EUROPEAN) then
    Throw (invalid_argument "Black-Scholes model only supports European options")
  else
    match type o with
    | CALL => Ok (call_price S K T r q sigma)
    | PUT => Ok (put_price S K T r q sigma)
    end.

Definition BlackScholesModel_greeks (o : Option D) (md : MarketData D) : Greeks D :=
  let S := spot md in
  let K := strike o in
  let T := expiry o in
  let r := rate md in
  let q := dividend md in
  let sigma := volatility md in
  let d_1 := calculate_d1 S K T r q sigma in
  let d_2 := calculate_d2 d_1 sigma T in
  let Nd1 := norm_cdf d_1 in
  let Nd2 := norm_cdf d_2 in
  let npd1 := norm_pdf d_1 in
  let sqrt_T := dsqrt T in
  let exp_qT := dexp (- q * T) in
  let exp_rT := dexp (- r * T) in
  match type o with
  | CALL =>
      let theta_annual := (- S) * npd1 * sigma * exp_qT / (d2 * sqrt_T)
                          - r * K * exp_rT * Nd2
                          + q * S * exp_qT * Nd1 in
      {| delta := exp_qT * Nd1;
         gamma := exp_qT * npd1 / (S * sigma * sqrt_T);
         vega := S * exp_qT * npd1 * sqrt_T / dZ 100;
         greek_theta := theta_annual / dZ 365;
         greek_rho := K * T * exp_rT * Nd2 / dZ 100 |}
  | PUT =>
      let N_minus_d1 := norm_cdf (- d_1) in
      let N_minus_d2 := norm_cdf (- d_2) in
      let theta_annual := (- S) * npd1 * sigma * exp_qT / (d2 * sqrt_T)
                          + r * K * exp_rT * N_minus_d2
                          - q * S * exp_qT * N_minus_d1 in
      {| delta := exp_qT * (Nd1 - d1);
         gamma := exp_qT * npd1 / (S * sigma * sqrt_T);
         vega := S * exp_qT * npd1 * sqrt_T / dZ 100;
         greek_theta := theta_annual / dZ 365;
         greek_rho := (- K) * T * exp_rT * N_minus_d2 / dZ 100 |}
  end.

(** The Newton-Raphson loop of [implied_volatility] with [fuel] iterations
    left. *)
Fixpoint implied_volatility_loop (fuel : nat) (market_price : D) (o : Option D)
    (md : MarketData D) (initial_guess tolerance : D) (sigma : D) : result D :=
  match fuel with
  | O => Throw (runtime_error "Implied volatility did not converge")
  | S fuel =>
      let temp_data := {| spot := spot md; rate := rate md; volatility := sigma;
                          dividend := dividend md |} in
      rbind (BlackScholesModel_price o temp_data) (fun price =>
        let diff := price - market_price in
        if dabs diff <? tolerance then Ok sigma
        else
          let g := BlackScholesModel_greeks o temp_data in
          let vega := vega g * dZ 100 in
          (* 1e-10, the literal that [singular_eps] stands for *)
          if dabs vega <? singular_eps then
            Throw (runtime_error "Vega too small, cannot compute implied volatility")
          else
            let sigma := sigma - diff / vega in
            let sigma := if sigma <=? d0 then initial_guess * dhalf else sigma in
            implied_volatility_loop fuel market_price o md initial_guess tolerance sigma)
  end.

Definition implied_volatility (market_price : D) (o : Option D) (md : MarketData D)
    (initial_guess tolerance : D) (max_iterations : Z) : result D :=
  implied_volatility_loop (Z.to_nat max_iterations) market_price o md initial_guess
    tolerance initial_guess.

Definition BlackScholesDigitalModel_price (o : Option D) (md : MarketData D) : result D :=
  match product o with
  | Digital payout =>
      let S := spot md in
      let K := strike o in
      let T := expiry o in
      let r := rate md in
      let q := dividend md in
      let sigma := volatility md in
      let d_1 := calculate_d1 S K T r q sigma in
      let d_2 := calculate_d2 d_1 sigma T in
      match type o with
      | CALL => Ok (payout * dexp (- r * T) * norm_cdf d_2)
      | PUT => Ok (payout * dexp (- r * T) * norm_cdf (- d_2))
      end
  | _ => Throw (invalid_argument "Option must be a DigitalOption")
  end.

(** ** math/interpolation.hpp: linear interpolation *)

Record LinearInterpolation := {
  x_ : list D;
  y_ : list D
}.

Definition LinearInterpolation_new (x y : list D) : result LinearInterpolation :=
  if negb (List.length x =? List.length y)%nat || (List.length x <? 2)%nat then
    Throw (invalid_argument "Invalid interpolation data")
  else Ok {| x_ := x; y_ := y |}.

(** [std::lower_bound] on a sorted vector: the position of the first element
    that is not less than [x], the size of the vector when there is none. *)
Fixpoint lower_bound (v : list D) (x : D) : nat :=
  match v with
  | [] => O
  | h :: t => if h <? x then S (lower_bound t x) else O
  end.

(** [v.front()] *)
Definition front (v : list D) : D := vget d0 v 0.

Definition interpolate (li : LinearInterpolation) (x : D) : D :=
  if x <=? front (x_ li) then front (y_ li)
  else if dgeb x (back (x_ li)) then back (y_ li)
  else
    let i := lower_bound (x_ li) x in
    let i := if (i =? 0)%nat then 1%nat else i in
    let x0 := vget d0 (x_ li) (i - 1) in
    let x1 := vget d0 (x_ li) i in
    let y0 := vget d0 (y_ li) (i - 1) in
    let y1 := vget d0 (y_ li) i in
    y0 + (y1 - y0) * (x - x0) / (x1 - x0).

(** ** curves/yield_curve.hpp *)

Inductive YieldCurve :=
| FlatYieldCurve (rate_ : D)
| InterpolatedYieldCurve (interpolator_ : LinearInterpolation)
| NelsonSiegelCurve (beta0_ beta1_ beta2_ lambda_ : D).

Definition InterpolatedYieldCurve_new (maturities rates : list D) : result YieldCurve :=
  rbind (LinearInterpolation_new maturities rates)
    (fun li => Ok (InterpolatedYieldCurve li)).

Definition zero_rate (c : YieldCurve) (T : D) : D :=
  match c with
  | FlatYieldCurve rate_ => rate_
  | InterpolatedYieldCurve interpolator_ => interpolate interpolator_ T
  | NelsonSiegelCurve beta0_ beta1_ beta2_ lambda_ =>
      if T <=? d0 then beta0_ + beta1_
      else
        let factor := (d1 - dexp (- lambda_ * T)) / (lambda_ * T) in
        beta0_ + beta1_ * factor + beta2_ * (factor - dexp (- lambda_ * T))
  end.

Definition discount_factor (c : YieldCurve) (T : D) : D := dexp (- zero_rate c T * T).

Definition forward_rate (c : YieldCurve) (T1 T2 : D) : D :=
  if T2 <=? T1 then zero_rate c T1
  else
    let df1 := discount_factor c T1 in
    let df2 := discount_factor c T2 in
    - dlog (df2 / df1) / (T2 - T1).

(** ** math/interpolation.cpp: the natural cubic spline *)

Record CubicSplineInterpolation := {
  spline_x_ : list D;
  spline_y_ : list D;
  a_ : list D;
  b_ : list D;
  c_ : list D;
  d_ : list D
}.

(** [compute_coefficients], run by the constructor. *)
Definition compute_coefficients (x y : list D) : result CubicSplineInterpolation :=
  let n := (List.length x - 1)%nat in
  let a := fold_left (fun a i => vset a i (vget d0 y i)) (seq 0 (n + 1))
                     (repeat d0 (n + 1)) in
  let h := fold_left (fun h i => vset h i (vget d0 x (i + 1) - vget d0 x i)) (seq 0 n)
                     (repeat d0 n) in
  let A := Matrix_new (n + 1) (n + 1) d0 in
  let rhs := repeat d0 (n + 1) in
  let A := mset A 0 0 d1 in
  let A := mset A n n d1 in
  let '(A, rhs) :=
    fold_left
      (fun '(A, rhs) i =>
         let A := mset A i (i - 1) (vget d0 h (i - 1)) in
         let A := mset A i i (d2 * (vget d0 h (i - 1) + vget d0 h i)) in
         let A := mset A i (i + 1) (vget d0 h i) in
         (A, vset rhs i
               (d3 * ((vget d0 a (i + 1) - vget d0 a i) / vget d0 h i
                      - (vget d0 a i - vget d0 a (i - 1)) / vget d0 h (i - 1)))))
      (seq 1 (n - 1)) (A, rhs) in
  rbind (solve_linear_system A rhs) (fun c =>
    let '(b, d) :=
      fold_left
        (fun '(b, d) i =>
           (vset b i ((vget d0 a (i + 1) - vget d0 a i) / vget d0 h i
                      - vget d0 h i * (d2 * vget d0 c i + vget d0 c (i + 1)) / d3),
            vset d i ((vget d0 c (i + 1) - vget d0 c i) / (d3 * vget d0 h i))))
        (seq 0 n) (repeat d0 n, repeat d0 n) in
    Ok {| spline_x_ := x; spline_y_ := y; a_ := a; b_ := b; c_ := c; d_ := d |}).

Definition CubicSplineInterpolation_new (x y : list D) : result CubicSplineInterpolation :=
  if negb (List.length x =? List.length y)%nat || (List.length x <? 2)%nat then
    Throw (invalid_argument "Invalid interpolation data")
  else compute_coefficients x y.

Definition spline (sp : CubicSplineInterpolation) (x : D) : D :=
  if x <=? front (spline_x_ sp) then front (spline_y_ sp)
  else if dgeb x (back (spline_x_ sp)) then back (spline_y_ sp)
  else
    let i := lower_bound (spline_x_ sp) x in
    let i := if (i =? 0)%nat then 1%nat else i in
    let i := (i - 1)%nat in
    let dx := x - vget d0 (spline_x_ sp) i in
    vget d0 (a_ sp) i + vget d0 (b_ sp) i * dx + vget d0 (c_ sp) i * dx * dx
    + vget d0 (d_ sp) i * dx * dx * dx.

(** ** math/matrix.cpp: the Cholesky decomposition *)

(** A loop whose body may throw. *)
Fixpoint rfold {A B : Type} (f : A -> B -> result A) (l : list B) (a : A) : result A :=
  match l with
  | [] => Ok a
  | x :: t => rbind (f a x) (rfold f t)
  end.

(** Entry [(i, j)] of the factor, from the entries computed before it. *)
Definition cholesky_entry (A : Matrix D) (i : nat) (L : Matrix D) (j : nat)
  : result (Matrix D) :=
  let sum := fold_left (fun sum k => sum + mget L i k * mget L j k) (seq 0 j) d0 in
  if (i =? j)%nat then
    let val := mget A i i - sum in
    if val <=? d0 then Throw (runtime_error "Matrix is not positive definite")
    else Ok (mset L i j (dsqrt val))
  else Ok (mset L i j ((mget A i j - sum) / mget L j j)).

Definition cholesky_decomposition (A : Matrix D) : result (Matrix D) :=
  let n := rows_ A in
  if negb (cols_ A =? n)%nat then Throw (invalid_argument "Matrix must be square")
  else
    rfold (fun L i => rfold (cholesky_entry A i) (seq 0 (i + 1)) L)
          (seq 0 n) (Matrix_new n n d0).

(** ** curves/volatility_surface.cpp: the interpolated surface *)

Record InterpolatedVolatilitySurface := {
  strikes_ : list D;
  maturities_ : list D;
  volatilities_ : list (list D)
}.

Definition InterpolatedVolatilitySurface_new (strikes maturities : list D)
    (volatilities : list (list D)) : result InterpolatedVolatilitySurface :=
  if negb (List.length volatilities =? List.length maturities)%nat then
    Throw (invalid_argument "Volatility matrix size mismatch")
  else if existsb (fun row => negb (List.length row =? List.length strikes)%nat) volatilities
  then Throw (invalid_argument "Volatility matrix size mismatch")
  else Ok {| strikes_ := strikes; maturities_ := maturities;
             volatilities_ := volatilities |}.

(** The position after the boundary cases: [begin() + 1] at or below the
    front, [end() - 1] at or above the back. *)
Definition bracket (v : list D) (x : D) : nat :=
  let it := lower_bound v x in
  let it := if x <=? front v then 1%nat else it in
  if dgeb x (back v) then (List.length v - 1)%nat else it.

(** [size_t] indices: [std::distance(...) - 1] wraps below zero and [k1 + 1]
    wraps back; reading a vector out of range, undefined in C++, gives [0.0]
    here. *)
Definition size_t_pred (i : nat) : nat := Z.to_nat ((Z.of_nat i - 1) mod 2 ^ 64).
Definition size_t_succ (i : nat) : nat := Z.to_nat ((Z.of_nat i + 1) mod 2 ^ 64).

Definition bilinear_interpolation (s : InterpolatedVolatilitySurface) (strike maturity : D)
  : D :=
  let k1 := size_t_pred (bracket (strikes_ s) strike) in
  let k2 := size_t_succ k1 in
  let t1 := size_t_pred (bracket (maturities_ s) maturity) in
  let t2 := size_t_succ t1 in
  let K1 := vget d0 (strikes_ s) k1 in
  let K2 := vget d0 (strikes_ s) k2 in
  let T1 := vget d0 (maturities_ s) t1 in
  let T2 := vget d0 (maturities_ s) t2 in
  let v11 := vget d0 (vget [] (volatilities_ s) t1) k1 in
  let v12 := vget d0 (vget [] (volatilities_ s) t1) k2 in
  let v21 := vget d0 (vget [] (volatilities_ s) t2) k1 in
  let v22 := vget d0 (vget [] (volatilities_ s) t2) k2 in
  let wK := (K2 - strike) / (K2 - K1) in
  let wT := (T2 - maturity) / (T2 - T1) in
  wK * wT * v11 + (d1 - wK) * wT * v12 + wK * (d1 - wT) * v21
  + (d1 - wK) * (d1 - wT) * v22.

Definition surface_volatility (s : InterpolatedVolatilitySurface) (strike maturity : D) : D :=
  bilinear_interpolation s strike maturity.

End ClosedForm.

Arguments LinearInterpolation D : clear implicits.
Arguments YieldCurve D : clear implicits.
Arguments CubicSplineInterpolation D : clear implicits.
Arguments InterpolatedVolatilitySurface D : clear implicits.

(** ** Reference definitions the properties are stated against *)

Section Reference.

Context {D : Type} {AR : Arith D} {CA : ComplexArith D} {RS : RandomStream D}.
Local Open Scope D_scope.

(** The value of node [i] of layer [num_steps - k] of the American binomial
    lattice, by backward induction from the terminal layer: the payoff on
    the terminal layer, and below it the larger of the discounted expected
    value of the two successors and the payoff of exercising at the node. *)
Fixpoint american_value (num_steps : nat) (o : Option D) (S : D) (pr : TreeParams D)
    (k : nat) (i : nat) : D :=
  match k with
  | O => payoff o (terminal_spot num_steps S pr i)
  | Datatypes.S k' =>
      dmax (df pr * (p pr * american_value num_steps o S pr k' i
                     + (d1 - p pr) * american_value num_steps o S pr k' (i + 1)))
           (payoff o (node_spot S pr (num_steps - k) i))
  end.

(** The same for the trinomial lattice: node [i] of layer [num_steps - k]
    has the successors [i + 1], [i] and [i - 1] of the layer after it, and
    its spot is [S * exp ((i - num_steps) * dx)]. *)
Fixpoint trinomial_value (num_steps : nat) (o : Option D) (S : D) (tp : TrinomialParams D)
    (k : nat) (i : nat) : D :=
  let spot_i := S * dexp (dZ (Z.of_nat i - Z.of_nat num_steps) * tri_dx tp) in
  match k with
  | O => payoff o spot_i
  | Datatypes.S k' =>
      let continuation :=
        tri_df tp * (tri_pu tp * trinomial_value num_steps o S tp k' (i + 1)
                     + tri_pm tp * trinomial_value num_steps o S tp k' i
                     + tri_pd tp * trinomial_value num_steps o S tp k' (i - 1)) in
      match style o with
      | AMERICAN => dmax continuation (payoff o spot_i)
      | _ => continuation
      end
  end.

(** The generator after [n] normal draws, and the draw that follows them. *)
Fixpoint advance (n : nat) (g : RandomGenerator) : RandomGenerator :=
  match n with
  | O => g
  | Datatypes.S n' => advance n' (snd (next_normal g))
  end.

Definition nth_normal (n : nat) (g : RandomGenerator) : D :=
  fst (next_normal (advance n g)).

End Reference.

(** ** Exact real arithmetic as an instance

    Every operation is the exact one.  Comparisons decide the order of the
    reals; every real is finite.  [Rpow_std] is [std::pow] where that is a
    real number: a positive base, a zero exponent, base zero with a
    positive exponent, and a negative base with an integer exponent; it is
    [0] elsewhere, where [std::pow] is infinite or not a number.  In the
    same way [sqrt] and [ln] are [0] outside their domain. *)

Definition Rltb (x y : R) : bool := if Rlt_dec x y then true else false.
Definition Rleb (x y : R) : bool := if Rle_dec x y then true else false.

Definition Rpow_std (x y : R) : R :=
  if Rlt_dec 0 x then Rpower x y
  else if Req_dec_T y 0 then 1%R
  else if Req_dec_T x 0 then 0%R
  else if Req_dec_T y (IZR (Int_part y)) then
    if Z.even (Int_part y) then Rpower (- x) y else (- Rpower (- x) y)%R
  else 0%R.

#[export] Instance R_arith : Arith R := {|
  dZ := IZR;
  dadd := Rplus;
  dsub := Rminus;
  dmul := Rmult;
  ddiv := Rdiv;
  dneg := Ropp;
  dexp := exp;
  dsqrt := sqrt;
  dpow := Rpow_std;
  dlog := ln;
  dpi := PI;
  dabs := Rabs;
  dltb := Rltb;
  dleb := Rleb;
  disfinite := fun _ => true
|}.

(** Complex numbers as pairs of reals, with the principal square root and
    logarithm. *)

Definition Cmod (z : R * R) : R := sqrt (fst z * fst z + snd z * snd z).

Definition Carg (z : R * R) : R :=
  let (a, b) := z in
  if Rlt_dec 0 a then atan (b / a)
  else if Rlt_dec a 0 then
    if Rle_dec 0 b then (atan (b / a) + PI)%R else (atan (b / a) - PI)%R
  else if Rlt_dec 0 b then (PI / 2)%R
  else if Rlt_dec b 0 then (- (PI / 2))%R
  else 0%R.

Definition Cadd (z w : R * R) : R * R := ((fst z + fst w)%R, (snd z + snd w)%R).
Definition Csub (z w : R * R) : R * R := ((fst z - fst w)%R, (snd z - snd w)%R).
Definition Cmul (z w : R * R) : R * R :=
  ((fst z * fst w - snd z * snd w)%R, (fst z * snd w + snd z * fst w)%R).
Definition Cdiv (z w : R * R) : R * R :=
  let n := (fst w * fst w + snd w * snd w)%R in
  (((fst z * fst w + snd z * snd w) / n)%R, ((snd z * fst w - fst z * snd w) / n)%R).
Definition Cexp (z : R * R) : R * R :=
  ((exp (fst z) * cos (snd z))%R, (exp (fst z) * sin (snd z))%R).
Definition Clog (z : R * R) : R * R := (ln (Cmod z), Carg z).
Definition Csqrt (z : R * R) : R * R :=
  let m := Cmod z in
  let re := sqrt ((m + fst z) / 2) in
  let im := sqrt ((m - fst z) / 2) in
  if Rle_dec 0 (snd z) then (re, im) else (re, (- im)%R).
Definition Cpowr (z : R * R) (y : R) : R * R :=
  if Req_dec_T (Cmod z) 0 then (if Req_dec_T y 0 then (1%R, 0%R) else (0%R, 0%R))
  else Cexp ((y * fst (Clog z))%R, (y * snd (Clog z))%R).

#[export] Instance R_complex : ComplexArith R := {|
  C := R * R;
  cmk := fun re im => (re, im);
  creal := fst;
  cadd := Cadd;
  csub := Csub;
  cmul := Cmul;
  cdiv := Cdiv;
  cneg := fun z => ((- fst z)%R, (- snd z)%R);
  rmulc := fun x z => ((x * fst z)%R, (x * snd z)%R);
  cmulr := fun z x => ((fst z * x)%R, (snd z * x)%R);
  cdivr := fun z x => ((fst z / x)%R, (snd z / x)%R);
  csubr := fun z x => ((fst z - x)%R, snd z);
  rsubc := fun x z => ((x - fst z)%R, (- snd z)%R);
  csqrt := Csqrt;
  cexp := Cexp;
  clog := Clog;
  cpowr := Cpowr
|}.

(** A recorded stream of draws replayed as the generator: the state is the
    seed and the number of draws made so far, and [table seed k] is draw
    [k] of the generator seeded [seed]. *)

Definition replay_stream (table : Z -> nat -> R) : RandomStream R := {|
  RandomGenerator := Z * nat;
  RandomGenerator_new := fun seed => (seed, O);
  next_normal := fun g => (table (fst g) (snd g), (fst g, S (snd g)));
  next_uniform := fun g => (table (fst g) (snd g), (fst g, S (snd g)));
  set_seed := fun seed _ => (seed, O)
|}.

(** The stream whose draws are all zero. *)
Definition zero_stream : RandomStream R := replay_stream (fun _ _ => 0%R).

(** ** Arithmetic with the range and the special values of [double]

    A [double] is a finite number, an infinity or NaN.  In this instance a
    finite result is the exact real result when its magnitude is at most
    the largest finite [double], and the infinity of its sign when it is
    larger: overflow is modelled, rounding is not.  Infinities and NaN
    follow IEEE 754 and Annex F of the C standard: [inf - inf], [0 * inf],
    [inf / inf] and [0 / 0] are NaN, a nonzero number over zero is an
    infinity, [exp] of minus infinity is zero, every comparison with NaN is
    false, and [pow (x, 0)] is [1] for every [x].  There is one zero, which
    behaves as [+0]. *)

Inductive ext : Type :=
| Finite (x : R)
| PInf
| NInf
| NaN.

(** [DBL_MAX], [(2 - 2^-52) * 2^1023]. *)
Definition double_max : R := IZR (2 ^ 1024 - 2 ^ 971).

Definition round_range (x : R) : ext :=
  if Rlt_dec double_max x then PInf
  else if Rlt_dec x (- double_max) then NInf
  else Finite x.

(** The infinity of the sign of [x], and NaN for zero. *)
Definition signed_inf (x : R) : ext :=
  if Rlt_dec 0 x then PInf else if Rlt_dec x 0 then NInf else NaN.

Definition xneg (a : ext) : ext :=
  match a with
  | Finite x => Finite (- x)
  | PInf => NInf
  | NInf => PInf
  | NaN => NaN
  end.

Definition xadd (a b : ext) : ext :=
  match a, b with
  | NaN, _ | _, NaN => NaN
  | Finite x, Finite y => round_range (x + y)
  | PInf, NInf | NInf, PInf => NaN
  | PInf, _ | _, PInf => PInf
  | NInf, _ | _, NInf => NInf
  end.

Definition xsub (a b : ext) : ext := xadd a (xneg b).

Definition xmul (a b : ext) : ext :=
  match a, b with
  | NaN, _ | _, NaN => NaN
  | Finite x, Finite y => round_range (x * y)
  | Finite x, PInf | PInf, Finite x => signed_inf x
  | Finite x, NInf | NInf, Finite x => signed_inf (- x)
  | PInf, PInf | NInf, NInf => PInf
  | PInf, NInf | NInf, PInf => NInf
  end.

Definition xdiv (a b : ext) : ext :=
  match a, b with
  | NaN, _ | _, NaN => NaN
  | Finite x, Finite y =>
      if Req_dec_T y 0 then signed_inf x else round_range (x / y)
  | Finite _, (PInf | NInf) => Finite 0
  | PInf, Finite y => if Rlt_dec y 0 then NInf else PInf
  | NInf, Finite y => if Rlt_dec y 0 then PInf else NInf
  | (PInf | NInf), (PInf | NInf) => NaN
  end.

Definition xexp (a : ext) : ext :=
  match a with
  | Finite x => round_range (exp x)
  | PInf => PInf
  | NInf => Finite 0
  | NaN => NaN
  end.

Definition xsqrt (a : ext) : ext :=
  match a with
  | Finite x => if Rlt_dec x 0 then NaN else Finite (sqrt x)
  | PInf => PInf
  | NInf | NaN => NaN
  end.

Definition xlog (a : ext) : ext :=
  match a with
  | Finite x =>
      if Rlt_dec x 0 then NaN else if Req_dec_T x 0 then NInf else round_range (ln x)
  | PInf => PInf
  | NInf | NaN => NaN
  end.

Definition xabs (a : ext) : ext :=
  match a with
  | Finite x => Finite (Rabs x)
  | PInf | NInf => PInf
  | NaN => NaN
  end.

Definition is_integer (y : R) : bool :=
  if Req_dec_T y (IZR (Int_part y)) then true else false.

Definition is_odd_integer (y : R) : bool :=
  is_integer y && Z.odd (Int_part y).

(** [std::pow] on finite arguments with a nonzero exponent. *)
Definition pow_finite (x y : R) : ext :=
  if Rlt_dec 0 x then round_range (Rpower x y)
  else if Req_dec_T x 0 then (if Rlt_dec y 0 then PInf else Finite 0)
  else if is_integer y then
    round_range (if is_odd_integer y then - Rpower (- x) y else Rpower (- x) y)
  else NaN.

Definition xpow (a b : ext) : ext :=
  match b with
  | Finite y =>
      if Req_dec_T y 0 then Finite 1
      else
        match a with
        | Finite x => pow_finite x y
        | PInf => if Rlt_dec y 0 then Finite 0 else PInf
        | NInf =>
            if Rlt_dec y 0 then Finite 0
            else if is_odd_integer y then NInf else PInf
        | NaN => NaN
        end
  | PInf =>
      match a with
      | Finite x =>
          if Req_dec_T (Rabs x) 1 then Finite 1
          else if Rlt_dec (Rabs x) 1 then Finite 0 else PInf
      | PInf | NInf => PInf
      | NaN => NaN
      end
  | NInf =>
      match a with
      | Finite x =>
          if Req_dec_T (Rabs x) 1 then Finite 1
          else if Rlt_dec (Rabs x) 1 then PInf else Finite 0
      | PInf | NInf => Finite 0
      | NaN => NaN
      end
  | NaN =>
      match a with
      | Finite x => if Req_dec_T x 1 then Finite 1 else NaN
      | _ => NaN
      end
  end.

Definition xltb (a b : ext) : bool :=
  match a, b with
  | NaN, _ | _, NaN => false
  | Finite x, Finite y => Rltb x y
  | _, NInf | PInf, _ => false
  | NInf, _ | _, PInf => true
  end.

Definition xleb (a b : ext) : bool :=
  match a, b with
  | NaN, _ | _, NaN => false
  | Finite x, Finite y => Rleb x y
  | NInf, _ | _, PInf => true
  | _, NInf | PInf, _ => false
  end.

Definition xisfinite (a : ext) : bool :=
  match a with
  | Finite _ => true
  | _ => false
  end.

#[export] Instance ext_arith : Arith ext := {|
  dZ := fun z => Finite (IZR z);
  dadd := xadd;
  dsub := xsub;
  dmul := xmul;
  ddiv := xdiv;
  dneg := xneg;
  dexp := xexp;
  dsqrt := xsqrt;
  dpow := xpow;
  dlog := xlog;
  dpi := Finite PI;
  dabs := xabs;
  dltb := xltb;
  dleb := xleb;
  disfinite := xisfinite
|}.


(** * Properties *)

(** ** Vectors *)

Section VectorFacts.

Context {A : Type}.

Lemma length_vset (v : list A) (i : nat) (x : A) :
  List.length (vset v i x) = List.length v.
Proof.
  revert i; induction v as [|h t IH]; intros [|j]; simpl; auto.
Qed.

Lemma vget_vset_same (d : A) (v : list A) (i : nat) (x : A) :
  (i < List.length v)%nat -> vget d (vset v i x) i = x.
Proof.
  unfold vget; revert i; induction v as [|h t IH]; intros [|j] H; simpl in *;
    try lia; auto.
  apply IH; lia.
Qed.

Lemma vget_vset_other (d : A) (v : list A) (i j : nat) (x : A) :
  i <> j -> vget d (vset v i x) j = vget d v j.
Proof.
  unfold vget; revert i j; induction v as [|h t IH]; intros [|i] [|j] H; simpl;
    try congruence; auto.
Qed.

Lemma vget_map_seq (d : A) (f : nat -> A) (n i : nat) :
  (i < n)%nat -> vget d (map f (seq 0 n)) i = f i.
Proof.
  intros H; unfold vget.
  rewrite (nth_indep _ d (f 0%nat)) by (rewrite length_map, length_seq; exact H).
  rewrite (map_nth f (seq 0 n) 0%nat i), seq_nth by exact H.
  reflexivity.
Qed.

End VectorFacts.

Lemma firstn_seq_le (k start len : nat) :
  (k <= len)%nat -> firstn k (seq start len) = seq start k.
Proof.
  revert start len; induction k as [|k IH]; intros start [|len] H; simpl;
    try lia; auto.
  f_equal; apply IH; lia.
Qed.

Lemma steps_down_S (n : nat) : steps_down (S n) = n :: steps_down n.
Proof.
  unfold steps_down; rewrite seq_S, rev_app_distr; reflexivity.
Qed.

(** ** Loop ranges and integer conversions *)

Example steps_down_3 : steps_down 3 = [2; 1; 0]%nat.
Proof. reflexivity. Qed.

Example size_t_sub_above : size_t_sub 3 2 = 1%Z.
Proof. reflexivity. Qed.

Example size_t_sub_wraps : size_t_sub 1 2 = 18446744073709551615%Z.
Proof. reflexivity. Qed.

Example total_paths_odd :
  total_paths {| num_paths := 3; num_timesteps := 1; seed := 12345;
                 use_antithetic := true; use_control_variate := false |} = 1%nat.
Proof. reflexivity. Qed.

Example lsmc_steps_4 :
  lsmc_steps {| lsmc_num_paths := 2; lsmc_num_timesteps := 4; lsmc_seed := 12345;
                lsmc_use_antithetic := false; polynomial_degree := 3 |} = [3; 2; 1]%nat.
Proof. reflexivity. Qed.

Example regression_threshold_degree_3 :
  regression_threshold {| lsmc_num_paths := 2; lsmc_num_timesteps := 4; lsmc_seed := 12345;
                          lsmc_use_antithetic := false; polynomial_degree := 3 |} = 4%Z.
Proof. reflexivity. Qed.

(** ** The binomial lattice *)

Section BinomialLattice.

Context {D : Type} {AR : Arith D}.
Local Open Scope D_scope.

Variables (num_steps : nat) (o : Option D) (S0 : D) (pr : TreeParams D).

(** The vector holds layer [num_steps - k] of the lattice: every node of
    the layer has its backward-induction value. *)
Definition holds_layer (k : nat) (values : list D) : Prop :=
  List.length values = (num_steps + 1)%nat /\
  forall i, (i <= num_steps - k)%nat ->
            vget d0 values i = american_value num_steps o S0 pr k i.

Lemma american_terminal_layer :
  holds_layer 0 (american_terminal num_steps o S0 pr).
Proof.
  unfold holds_layer, american_terminal; split.
  - rewrite length_map, length_seq; reflexivity.
  - intros i Hi; rewrite vget_map_seq by lia; reflexivity.
Qed.

(** The inner loop after its first [m] nodes: the nodes before [m] hold the
    new layer, the nodes from [m] on still hold the layer after it. *)
Lemma american_sweep_prefix (k : nat) (values : list D) (m : nat) :
  (S k <= num_steps)%nat ->
  holds_layer k values ->
  (m <= num_steps - k)%nat ->
  let values' :=
    fold_left (american_node_update o S0 pr (num_steps - S k)) (seq 0 m) values in
  List.length values' = (num_steps + 1)%nat /\
  (forall i, (i < m)%nat ->
             vget d0 values' i = american_value num_steps o S0 pr (S k) i) /\
  (forall i, (m <= i <= num_steps - k)%nat ->
             vget d0 values' i = american_value num_steps o S0 pr k i).
Proof.
  intros Hk [Hlen Hval]; induction m as [|m IH]; intros Hm; cbv zeta.
  - simpl; repeat split; [exact Hlen | intros; lia | intros i Hi; apply Hval; lia].
  - destruct IH as (Hl & Hnew & Hold); [lia|].
    rewrite seq_S, fold_left_app; simpl.
    set (cur := fold_left _ (seq 0 m) values) in *.
    unfold american_node_update.
    repeat split.
    + rewrite length_vset; exact Hl.
    + intros i Hi. destruct (Nat.eq_dec i m) as [->|Hne].
      * rewrite vget_vset_same by lia.
        rewrite (Hold m), (Hold (m + 1)%nat) by lia.
        reflexivity.
      * rewrite vget_vset_other by lia. apply Hnew; lia.
    + intros i Hi. rewrite vget_vset_other by lia. apply Hold; lia.
Qed.

Lemma american_sweep_layer (k : nat) (values : list D) :
  (S k <= num_steps)%nat ->
  holds_layer k values ->
  holds_layer (S k) (american_sweep o S0 pr values (num_steps - S k)).
Proof.
  intros Hk H.
  destruct (american_sweep_prefix (m := (num_steps - S k) + 1) Hk H) as (Hl & Hnew & _);
    [lia|].
  unfold american_sweep; split; [exact Hl|].
  intros i Hi; apply Hnew; lia.
Qed.

(** The layers after the sweeps [num_steps - k - 1, ..., num_steps - k - n]. *)
Lemma american_sweeps_layer (n k : nat) (values : list D) :
  (k + n <= num_steps)%nat ->
  holds_layer k values ->
  holds_layer (k + n)
    (fold_left (american_sweep o S0 pr)
               (map (fun j => (num_steps - k - 1 - j)%nat) (seq 0 n)) values).
Proof.
  revert k values; induction n as [|n IH]; intros k values Hn H.
  - simpl; rewrite Nat.add_0_r; exact H.
  - rewrite <- cons_seq, <- seq_shift, map_cons, map_map; simpl fold_left.
    replace (k + S n)%nat with (S k + n)%nat by lia.
    replace (num_steps - k - 1 - 0)%nat with (num_steps - S k)%nat by lia.
    erewrite map_ext; [apply IH; [lia|apply american_sweep_layer; [lia|exact H]]|].
    intros j; simpl; lia.
Qed.

Lemma steps_down_map (n : nat) :
  steps_down n = map (fun j => (n - 0 - 1 - j)%nat) (seq 0 n).
Proof.
  induction n as [|n IH]; [reflexivity|].
  rewrite steps_down_S, IH, <- cons_seq, <- seq_shift, map_cons, map_map.
  f_equal; [lia|]. apply map_ext_in; intros j Hj; apply in_seq in Hj; lia.
Qed.

(** After the first [k] sweeps of [price_american] the vector holds layer
    [num_steps - k]: every node of every layer carries the larger of its
    continuation value and its exercise payoff. *)
Lemma price_american_layers (k : nat) :
  (k <= num_steps)%nat ->
  holds_layer k
    (fold_left (american_sweep o S0 pr) (firstn k (steps_down num_steps))
               (american_terminal num_steps o S0 pr)).
Proof.
  intros Hk.
  rewrite steps_down_map, firstn_map, firstn_seq_le by exact Hk.
  apply (american_sweeps_layer k (k := 0)); [lia|].
  apply american_terminal_layer.
Qed.

End BinomialLattice.

(** X1: the binomial price of an American option is the backward-induction
    value of the root, the larger of continuation and exercise payoff being
    taken at every node of every layer below the terminal one. *)
Theorem price_american_backward_induction {D : Type} {AR : Arith D}
    (num_steps : nat) (o : Option D) (md : MarketData D) (pr : TreeParams D) :
  price_american num_steps o md pr
  = american_value num_steps o (spot md) pr num_steps 0.
Proof.
  unfold price_american.
  destruct (price_american_layers o (spot md) pr (Nat.le_refl num_steps)) as [_ H].
  rewrite firstn_all2 in H by (unfold steps_down; rewrite length_rev, length_seq; lia).
  apply H; lia.
Qed.

(** ** Failures of the engines *)

Section Failures.

Context {D : Type} {AR : Arith D} {CA : ComplexArith D} {RS : RandomStream D}.
Local Open Scope D_scope.

Lemma calculate_parameters_p (num_steps : nat) (md : MarketData D) (T : D)
    (pr : TreeParams D) :
  calculate_parameters num_steps md T = Ok pr ->
  p pr = crr_probability num_steps md T.
Proof.
  unfold calculate_parameters, crr_probability.
  destruct (_ || _); [discriminate|]. intros H; injection H as <-; reflexivity.
Qed.

(** C4: an engine given a style it does not implement throws
    [invalid_argument] at once: the plain Monte Carlo engine and the Heston
    engine for any style but European, LSMC for any style but American.
    No random number is drawn before the failure. *)
Theorem unsupported_style_fails (cfg : MonteCarloConfig) (lcfg : LSMCConfig)
    (params : HestonParams D) (o : Option D) (md : MarketData D)
    (g : RandomGenerator) :
  (style o <> EUROPEAN ->
   MonteCarloModel_price cfg o md g
   = (Throw (invalid_argument
        "Basic Monte Carlo only supports European options. Use LSMC for American options."),
      g)
   /\ HestonModel_price params o md
      = Throw (invalid_argument "Heston model currently only supports European options"))
  /\
  (style o <> AMERICAN ->
   LSMCModel_price lcfg o md g
   = (Throw (invalid_argument "LSMC is designed for American options"), g)).
Proof.
  unfold MonteCarloModel_price, HestonModel_price, LSMCModel_price.
  split; intros H; destruct (style o); simpl; try congruence; auto.
Qed.

End Failures.

(** ** LSMC: steps with too few in-the-money paths *)

Section LSMCSkip.

Context {D : Type} {AR : Arith D} {CA : ComplexArith D} {RS : RandomStream D}.
Local Open Scope D_scope.

(** C5: at a step where fewer than [polynomial_degree + 1] paths are in the
    money the regression is not run, the step returns the cash-flow matrix
    as it received it without throwing, and the backward induction goes on
    with the remaining steps from that same matrix. *)
Theorem lsmc_step_skips_regression (cfg : LSMCConfig) (o : Option D) (r dt : D)
    (paths cash_flows : list (list D)) (t : nat) :
  (polynomial_degree cfg < 2 ^ 31)%Z ->
  (Z.of_nat (List.length (itm_indices cfg o paths t)) < polynomial_degree cfg + 1)%Z ->
  lsmc_step cfg o r dt paths cash_flows t = Ok cash_flows
  /\ forall rest,
       backward_induction cfg o r dt paths (t :: rest) cash_flows
       = backward_induction cfg o r dt paths rest cash_flows.
Proof.
  intros Hint Hfew.
  assert (Hstep : lsmc_step cfg o r dt paths cash_flows t = Ok cash_flows).
  { unfold lsmc_step, regression_threshold.
    rewrite length_map.
    rewrite Z.mod_small by lia.
    destruct (Z.leb_spec (polynomial_degree cfg + 1)
                (Z.of_nat (List.length (itm_indices cfg o paths t)))); [lia|reflexivity]. }
  split; [exact Hstep|].
  intros rest; simpl; rewrite Hstep; reflexivity.
Qed.

End LSMCSkip.

(** ** The generator as a stream of draws *)

Section Draws.

Context {D : Type} {RS : RandomStream D}.

Lemma advance_S (n : nat) (g : RandomGenerator) :
  advance (S n) g = snd (next_normal (advance n g)).
Proof.
  revert g; induction n as [|n IH]; intros g; [reflexivity|].
  change (advance (S (S n)) g) with (advance (S n) (snd (next_normal g))).
  rewrite IH; reflexivity.
Qed.

Lemma advance_add (a b : nat) (g : RandomGenerator) :
  advance (a + b) g = advance b (advance a g).
Proof.
  revert g; induction a as [|a IH]; intros g; simpl; auto.
Qed.

Lemma nth_normal_shift (a n : nat) (g : RandomGenerator) :
  nth_normal n (advance a g) = nth_normal (a + n) g.
Proof.
  unfold nth_normal; rewrite advance_add; reflexivity.
Qed.

End Draws.

(** ** Plain Monte Carlo with antithetic variates *)

Section Antithetic.

Context {D : Type} {AR : Arith D} {CA : ComplexArith D} {RS : RandomStream D}.
Local Open Scope D_scope.

Lemma gbm_steps_generator (drift diffusion : D) (n : nat) (prev : D)
    (g : RandomGenerator) :
  snd (gbm_steps drift diffusion n prev g) = advance n g.
Proof.
  revert prev g; induction n as [|n IH]; intros prev g; [reflexivity|].
  cbn [gbm_steps advance].
  destruct (next_normal g) as [dW g1]; cbn [snd].
  specialize (IH (prev * dexp (drift + diffusion * dW)) g1).
  destruct (gbm_steps drift diffusion n _ g1) as [rest g2]; exact IH.
Qed.

Lemma simulate_path_generator (S0 : D) (md : MarketData D) (T : D) (n : nat)
    (g : RandomGenerator) :
  snd (simulate_path S0 md T n g) = advance n g.
Proof.
  unfold simulate_path.
  match goal with
  | |- context [gbm_steps ?dr ?di n S0 g] =>
      pose proof (gbm_steps_generator dr di n S0 g) as H;
      destruct (gbm_steps dr di n S0 g) as [tl g']
  end.
  exact H.
Qed.

Variables (cfg : MonteCarloConfig) (o : Option D) (md : MarketData D).

(** The payoff of the path the plain loop simulates in iteration [k], when
    the generator was [g] at the start of the loop. *)
Definition vanilla_path_payoff (g : RandomGenerator) (k : nat) : D :=
  payoff o
    (back (fst (simulate_path (spot md) md (expiry o) (num_timesteps cfg)
                  (advance (num_timesteps cfg * k) g)))).

(** With [use_antithetic] every iteration of the plain loop simulates one
    path, adds its payoff to the sum twice and draws nothing else: after
    [n] iterations the generator is [n * num_timesteps] draws further. *)
Lemma vanilla_loop_antithetic (g0 : RandomGenerator) (n a : nat) (sum sum_sq : D) :
  use_antithetic cfg = true ->
  fst (fst (vanilla_loop cfg o md n sum sum_sq (advance (num_timesteps cfg * a) g0)))
  = fold_left (fun sum k => sum + vanilla_path_payoff g0 k + vanilla_path_payoff g0 k)
              (seq a n) sum
  /\ snd (vanilla_loop cfg o md n sum sum_sq (advance (num_timesteps cfg * a) g0))
     = advance (num_timesteps cfg * (a + n)) g0.
Proof.
  intros Ha; revert a sum sum_sq; induction n as [|n IH]; intros a sum sum_sq.
  - cbn [vanilla_loop seq fold_left fst snd]; rewrite Nat.add_0_r; auto.
  - cbn [vanilla_loop seq fold_left]. rewrite Ha.
    pose proof (simulate_path_generator (spot md) md (expiry o) (num_timesteps cfg)
                  (advance (num_timesteps cfg * a) g0)) as Hg.
    assert (Hp : vanilla_path_payoff g0 a
                 = payoff o (back (fst (simulate_path (spot md) md (expiry o)
                                          (num_timesteps cfg)
                                          (advance (num_timesteps cfg * a) g0)))))
      by reflexivity.
    rewrite Hp; clear Hp.
    destruct (simulate_path (spot md) md (expiry o) (num_timesteps cfg)
                (advance (num_timesteps cfg * a) g0)) as [path g1].
    cbn [fst snd] in Hg |- *; subst g1.
    rewrite <- advance_add.
    replace (num_timesteps cfg * a + num_timesteps cfg)%nat
      with (num_timesteps cfg * S a)%nat by lia.
    destruct (IH (S a) (sum + payoff o (back path) + payoff o (back path))
                 (sum_sq + payoff o (back path) * payoff o (back path))) as [IH1 IH2].
    rewrite IH1, IH2. split; [reflexivity|]. f_equal; lia.
Qed.

End Antithetic.

Section AntitheticInput.

Context {D : Type} {AR : Arith D} {CA : ComplexArith D} {RS : RandomStream D}.
Local Open Scope D_scope.

(** C2, at [num_paths = 3], one time step, [use_antithetic = true] and a
    European vanilla option: the engine simulates one path from one normal
    draw [z], makes no second path from [- z] (the generator has advanced
    by that one draw only), adds the payoff of the one path twice and
    divides the sum by 3. *)
Theorem antithetic_price_three_paths (K T : D) (ty : OptionType) (md : MarketData D)
    (s : Z) (cv : bool) (g : RandomGenerator) :
  let o := {| strike := K; expiry := T; type := ty; style := EUROPEAN;
              product := Vanilla |} in
  let cfg := {| num_paths := 3; num_timesteps := 1; seed := s; use_antithetic := true;
                use_control_variate := cv |} in
  let z := fst (next_normal g) in
  let dt := T / dnat 1 in
  let drift := (rate md - dividend md - dhalf * volatility md * volatility md) * dt in
  let diffusion := volatility md * dsqrt dt in
  let payoff1 := payoff o (spot md * dexp (drift + diffusion * z)) in
  MonteCarloModel_price cfg o md g
  = (Ok (dexp (- rate md * T) * ((d0 + payoff1 + payoff1) / dnat 3)),
     snd (next_normal g)).
Proof.
  cbv zeta. unfold MonteCarloModel_price, total_paths, actual_paths; simpl.
  unfold simulate_path; simpl.
  destruct (next_normal g) as [z g1]; reflexivity.
Qed.

End AntitheticInput.

(** ** The Heston path simulator *)

Section HestonPaths.

Context {D : Type} {AR : Arith D} {CA : ComplexArith D} {RS : RandomStream D}.
Local Open Scope D_scope.

Variables (params_ : HestonParams D) (md : MarketData D) (dt : D).

(** One Euler step as the specification writes it, from the previous asset
    price and variance and the two independent normal draws [z1], [z2]. *)
Definition euler_step (S_prev v_prev z1 z2 : D) : D * D :=
  let Z1 := z1 in
  let Z2 := rho params_ * z1 + dsqrt (d1 - rho params_ * rho params_) * z2 in
  let v_plus := dmax v_prev d0 in
  let dv := kappa params_ * (theta params_ - v_plus) * dt
            + sigma params_ * dsqrt (v_plus * dt) * Z2 in
  let dS := (rate md - dividend md) * S_prev * dt + S_prev * dsqrt (v_plus * dt) * Z1 in
  (S_prev + dS, v_plus + dv).

Lemma heston_step_euler (S_prev v_prev : D) (g : RandomGenerator) :
  heston_step params_ md dt S_prev v_prev g
  = (euler_step S_prev v_prev (nth_normal 0 g) (nth_normal 1 g), advance 2 g).
Proof.
  unfold heston_step, correlated_normals, euler_step, nth_normal; simpl.
  destruct (next_normal g) as [z1 g1]; simpl.
  destruct (next_normal g1) as [z2 g2]; simpl.
  reflexivity.
Qed.

(** The loop of [simulate_path]: entry [i] of both vectors is the Euler step
    of entry [i - 1] with draws [2 (i - 1)] and [2 (i - 1) + 1] of the
    generator, and the generator ends [2 n] draws further. *)
Lemma heston_steps_euler (n : nat) (S_start v_start : D) (g : RandomGenerator) :
  let '((Ss, vs), g') := heston_steps params_ md dt n S_start v_start g in
  g' = advance (2 * n) g
  /\ List.length Ss = n /\ List.length vs = n
  /\ forall i, (i < n)%nat ->
       (vget d0 (S_start :: Ss) (S i), vget d0 (v_start :: vs) (S i))
       = euler_step (vget d0 (S_start :: Ss) i) (vget d0 (v_start :: vs) i)
                    (nth_normal (2 * i) g) (nth_normal (2 * i + 1) g).
Proof.
  revert S_start v_start g; induction n as [|n IH]; intros S_start v_start g.
  - simpl; repeat split; auto; intros; lia.
  - simpl heston_steps. rewrite heston_step_euler.
    set (e := euler_step S_start v_start (nth_normal 0 g) (nth_normal 1 g)).
    destruct e as [S_i v_i] eqn:E.
    specialize (IH S_i v_i (advance 2 g)).
    destruct (heston_steps params_ md dt n S_i v_i (advance 2 g)) as [[Ss vs] g'].
    destruct IH as (Hg & HS & Hv & Hrec).
    split; [|split; [|split]].
    + rewrite Hg, <- advance_add; f_equal; lia.
    + simpl; congruence.
    + simpl; congruence.
    + intros [|i] Hi.
      * simpl. unfold vget; simpl. symmetry; exact E.
      * specialize (Hrec i ltac:(lia)).
        rewrite !nth_normal_shift in Hrec.
        replace (2 * S i)%nat with (2 + 2 * i)%nat by lia.
        replace (2 + 2 * i + 1)%nat with (2 + (2 * i + 1))%nat by lia.
        exact Hrec.
Qed.

End HestonPaths.

Section HestonMonteCarloProperties.

Context {D : Type} {AR : Arith D} {CA : ComplexArith D} {RS : RandomStream D}.
Local Open Scope D_scope.

Variables (params_ : HestonParams D) (o : Option D) (md : MarketData D).

(** The payoff of path [k] of a run of [num_steps] steps whose generator
    was [g] at the start: the path is simulated from the generator
    [2 * num_steps * k] draws further. *)
Definition heston_path_payoff (num_steps : nat) (g : RandomGenerator) (k : nat) : D :=
  payoff o
    (back (fst (fst (heston_simulate_path params_ (spot md) (v0 params_) md (expiry o)
                       num_steps (advance (2 * num_steps * k) g))))).

Lemma heston_simulate_path_generator (S_start v_start T : D) (n : nat)
    (g : RandomGenerator) :
  snd (heston_simulate_path params_ S_start v_start md T n g) = advance (2 * n) g.
Proof.
  unfold heston_simulate_path.
  pose proof (heston_steps_euler params_ md (T / dnat n) n S_start v_start g) as H.
  destruct (heston_steps params_ md (T / dnat n) n S_start v_start g) as [[Ss vs] g'].
  simpl; apply H.
Qed.

Lemma heston_mc_loop_paths (num_steps : nat) (g0 : RandomGenerator) (n a : nat) (sum : D) :
  heston_mc_loop params_ o md num_steps n sum (advance (2 * num_steps * a) g0)
  = (fold_left (fun sum k => sum + heston_path_payoff num_steps g0 k) (seq a n) sum,
     advance (2 * num_steps * (a + n)) g0).
Proof.
  revert a sum; induction n as [|n IH]; intros a sum.
  - cbn [heston_mc_loop seq fold_left]; rewrite Nat.add_0_r; reflexivity.
  - cbn [heston_mc_loop].
    pose proof (heston_simulate_path_generator (spot md) (v0 params_) (expiry o)
                  num_steps (advance (2 * num_steps * a) g0)) as Hg.
    unfold heston_path_payoff at 1; cbn [seq fold_left].
    destruct (heston_simulate_path params_ (spot md) (v0 params_) md (expiry o)
                num_steps (advance (2 * num_steps * a) g0)) as [[S_path v_path] g1].
    cbn [snd fst] in Hg |- *; subst g1.
    rewrite <- advance_add.
    replace (2 * num_steps * a + 2 * num_steps)%nat with (2 * num_steps * S a)%nat by lia.
    rewrite IH. f_equal. f_equal; lia.
Qed.

End HestonMonteCarloProperties.

Section HestonClaims.

Context {D : Type} {AR : Arith D} {CA : ComplexArith D} {RS : RandomStream D}.
Local Open Scope D_scope.

(** C6: in every path the Heston simulator starts from [S0] and [v0], and
    entry [i] of the asset and variance vectors is the Euler step of entry
    [i - 1]: the previous variance is floored at 0 first, the variance
    moves by [kappa (theta - v+) dt + sigma sqrt(v+ dt) Z2] and the asset by
    [(r - q) S dt + S sqrt(v+ dt) Z1], where [Z1] is a draw of the
    generator and [Z2 = rho Z1 + sqrt(1 - rho^2) Z2'] with [Z2'] the next
    draw.  Step [i] uses draws [2 (i - 1)] and [2 (i - 1) + 1] of the
    generator, which ends [2 num_steps] draws further, and the Monte Carlo
    loop simulates path [k] from the generator [2 num_steps k] draws
    further: no draw serves two steps or two paths. *)
Theorem heston_simulate_path_euler (params_ : HestonParams D) (S0 v_init : D)
    (md : MarketData D) (T : D) (num_steps : nat) (g : RandomGenerator) (i : nat) :
  (1 <= i <= num_steps)%nat ->
  let S_path := fst (fst (heston_simulate_path params_ S0 v_init md T num_steps g)) in
  let v_path := snd (fst (heston_simulate_path params_ S0 v_init md T num_steps g)) in
  let g' := snd (heston_simulate_path params_ S0 v_init md T num_steps g) in
  vget d0 S_path 0 = S0 /\ vget d0 v_path 0 = v_init
  /\ g' = advance (2 * num_steps) g
  /\ (vget d0 S_path i, vget d0 v_path i)
     = euler_step params_ md (T / dnat num_steps)
         (vget d0 S_path (i - 1)) (vget d0 v_path (i - 1))
         (nth_normal (2 * (i - 1)) g) (nth_normal (2 * (i - 1) + 1) g)
  /\ forall (o : Option D) (num_paths : nat) (sum : D),
       heston_mc_loop params_ o md num_steps num_paths sum g
       = (fold_left (fun sum k => sum + heston_path_payoff params_ o md num_steps g k)
                    (seq 0 num_paths) sum,
          advance (2 * num_steps * num_paths) g).
Proof.
  intros Hi; cbv zeta.
  rewrite heston_simulate_path_generator.
  unfold heston_simulate_path.
  pose proof (heston_steps_euler params_ md (T / dnat num_steps) num_steps S0 v_init g) as H.
  destruct (heston_steps params_ md (T / dnat num_steps) num_steps S0 v_init g)
    as [[Ss vs] g1].
  destruct H as (_ & _ & _ & Hrec); cbn [fst snd].
  split; [reflexivity|]. split; [reflexivity|]. split; [reflexivity|]. split.
  - destruct i as [|i]; [lia|].
    replace (S i - 1)%nat with i by lia.
    apply Hrec; lia.
  - intros o num_paths sum.
    pose proof (heston_mc_loop_paths params_ o md num_steps g num_paths 0 sum) as H.
    rewrite Nat.mul_0_r in H; exact H.
Qed.

(** C9: the Heston Monte Carlo price is the discounted mean of the payoffs
    of the paths simulated from a generator seeded 12345, path [k] from
    that generator [2 * num_steps * k] draws further; it is a function of
    the parameters, the option, the market data and the two counts alone,
    so two calls in a row return the same value, whatever generator [g]
    the caller holds, and leave that generator untouched. *)
Theorem heston_monte_carlo_fixed_seed (params_ : HestonParams D) (o : Option D)
    (md : MarketData D) (num_paths num_steps : nat) (g : RandomGenerator) :
  price_monte_carlo params_ o md num_paths num_steps
  = dexp (- rate md * expiry o)
    * (fold_left
         (fun sum k =>
            sum + heston_path_payoff params_ o md num_steps (RandomGenerator_new 12345) k)
         (seq 0 num_paths) d0
       / dnat num_paths)
  /\ bind (ret (price_monte_carlo params_ o md num_paths num_steps))
          (fun first =>
             bind (ret (price_monte_carlo params_ o md num_paths num_steps))
                  (fun second => ret (first, second))) g
     = (Ok (price_monte_carlo params_ o md num_paths num_steps,
            price_monte_carlo params_ o md num_paths num_steps), g).
Proof.
  split; [|reflexivity].
  unfold price_monte_carlo, heston_mc_from.
  pose proof (heston_mc_loop_paths params_ o md num_steps (RandomGenerator_new 12345)
                num_paths 0 d0) as H.
  rewrite Nat.mul_0_r in H; simpl advance in H.
  rewrite H; reflexivity.
Qed.

End HestonClaims.

(** ** The configuration fields the Monte Carlo price reads *)

Section Reproducibility.

Context {D : Type} {AR : Arith D} {CA : ComplexArith D} {RS : RandomStream D}.
Local Open Scope D_scope.

Variables (o : Option D) (md : MarketData D).

Lemma vanilla_loop_config (c1 c2 : MonteCarloConfig) :
  num_timesteps c1 = num_timesteps c2 ->
  use_antithetic c1 = use_antithetic c2 ->
  forall n sum sum_sq g,
    vanilla_loop c1 o md n sum sum_sq g = vanilla_loop c2 o md n sum sum_sq g.
Proof.
  intros Ht Ha; induction n as [|n IH]; intros sum sum_sq g; simpl; [reflexivity|].
  rewrite Ht, Ha.
  destruct (simulate_path (spot md) md (expiry o) (num_timesteps c2) g) as [path g1].
  apply IH.
Qed.

Lemma asian_loop_config (c1 c2 : MonteCarloConfig) avg nobs :
  forall n sum g,
    asian_loop c1 o avg nobs md n sum g = asian_loop c2 o avg nobs md n sum g.
Proof.
  induction n as [|n IH]; intros sum g; simpl; [reflexivity|].
  destruct (simulate_path (spot md) md (expiry o) nobs g) as [path g1].
  apply IH.
Qed.

Lemma barrier_loop_config (c1 c2 : MonteCarloConfig) bt level reb :
  num_timesteps c1 = num_timesteps c2 ->
  forall n sum g,
    barrier_loop c1 o bt level reb md n sum g = barrier_loop c2 o bt level reb md n sum g.
Proof.
  intros Ht; induction n as [|n IH]; intros sum g; simpl; [reflexivity|].
  rewrite Ht.
  destruct (simulate_path (spot md) md (expiry o) (num_timesteps c2) g) as [path g1].
  apply IH.
Qed.

(** The Monte Carlo price reads the path count, the step count and the
    antithetic flag of its configuration, and nothing else of it. *)
Lemma MonteCarloModel_price_config (c1 c2 : MonteCarloConfig) (g : RandomGenerator) :
  num_paths c1 = num_paths c2 ->
  num_timesteps c1 = num_timesteps c2 ->
  use_antithetic c1 = use_antithetic c2 ->
  MonteCarloModel_price c1 o md g = MonteCarloModel_price c2 o md g.
Proof.
  intros Hn Ht Ha.
  unfold MonteCarloModel_price, price_asian, price_barrier, actual_paths, total_paths.
  rewrite Hn, Ha.
  destruct (negb _); [reflexivity|].
  destruct (product o);
    rewrite ?(vanilla_loop_config c1 c2 Ht Ha), ?(asian_loop_config c1 c2),
      ?(barrier_loop_config c1 c2 _ _ _ Ht);
    reflexivity.
Qed.

End Reproducibility.

(** ** Numerical Greeks *)

Section NumericalGreeks.

Context {D : Type} {AR : Arith D} {CA : ComplexArith D} {RS : RandomStream D}.
Local Open Scope D_scope.

Lemma MarketData_new_Ok (s r vol div : D) (m : MarketData D) :
  MarketData_new s r vol div = Ok m ->
  m = {| spot := s; rate := r; volatility := vol; dividend := div |}.
Proof.
  unfold MarketData_new.
  repeat (destruct (_ || _); [discriminate|]).
  repeat (destruct (negb _); [discriminate|]).
  intros H; injection H as <-; reflexivity.
Qed.

Lemma Option_new_Ok (K T : D) (ty : OptionType) (st : OptionStyle) (opt : Option D) :
  Option_new K T ty st = Ok opt ->
  opt = {| strike := K; expiry := T; type := ty; style := st; product := Vanilla |}.
Proof.
  unfold Option_new, Option_validate; simpl.
  repeat (destruct (_ || _); [discriminate|]).
  intros H; injection H as <-; reflexivity.
Qed.

(** C10: when the default numerical Greeks return, theta is the finite
    difference between the engine's price of a plain vanilla option, built
    from the strike, the expiry less the time bump, the type and the style
    of the original option alone, and the base price; the product of the
    original option (Asian, barrier, digital) does not enter it.  Delta,
    gamma, vega and rho are differences of prices of the original option
    under bumped market data. *)
Theorem numerical_greeks_theta_reprices_vanilla
    (price : Option D -> MarketData D -> M D) (option : Option D)
    (market_data : MarketData D) (spot_bump vol_bump rate_bump time_bump : D)
    (g0 g_end : RandomGenerator) (greeks : Greeks D) :
  numerical_greeks price option market_data spot_bump vol_bump rate_bump time_bump g0
  = (Ok greeks, g_end) ->
  let bumped s r vol :=
    {| spot := s; rate := r; volatility := vol; dividend := dividend market_data |} in
  let spot_up := bumped (spot market_data * (d1 + spot_bump)) (rate market_data)
                        (volatility market_data) in
  let spot_down := bumped (spot market_data * (d1 - spot_bump)) (rate market_data)
                          (volatility market_data) in
  let vol_up := bumped (spot market_data) (rate market_data)
                       (volatility market_data + vol_bump) in
  let rate_up := bumped (spot market_data) (rate market_data + rate_bump)
                        (volatility market_data) in
  let theta_option :=
    {| strike := strike option; expiry := expiry option - time_bump;
       type := type option; style := style option; product := Vanilla |} in
  exists base_price price_up price_down vega_price theta_price rho_price g1 g2 g3 g4 g5,
    price option market_data g0 = (Ok base_price, g1)
    /\ price option spot_up g1 = (Ok price_up, g2)
    /\ price option spot_down g2 = (Ok price_down, g3)
    /\ price option vol_up g3 = (Ok vega_price, g4)
    /\ price theta_option market_data g4 = (Ok theta_price, g5)
    /\ price option rate_up g5 = (Ok rho_price, g_end)
    /\ greek_theta greeks = (theta_price - base_price) / time_bump
    /\ delta greeks = (price_up - price_down) / (d2 * spot market_data * spot_bump)
    /\ gamma greeks = (price_up - d2 * base_price + price_down)
                      / dpow (spot market_data * spot_bump) (dZ 2)
    /\ vega greeks = (vega_price - base_price) / vol_bump
    /\ greek_rho greeks = (rho_price - base_price) / rate_bump.
Proof.
  intros H; cbv zeta.
  unfold numerical_greeks, bind, lift, ret in H.
  destruct (price option market_data g0) as [[base_price|e] g1] eqn:E0; [|discriminate].
  destruct (MarketData_new (spot market_data * (d1 + spot_bump)) _ _ _)
    as [spot_up|e] eqn:Eup; [|discriminate].
  destruct (MarketData_new (spot market_data * (d1 - spot_bump)) _ _ _)
    as [spot_down|e] eqn:Edown; [|discriminate].
  apply MarketData_new_Ok in Eup, Edown; subst spot_up spot_down.
  destruct (price option _ g1) as [[price_up|e] g2] eqn:E1; [|discriminate].
  destruct (price option _ g2) as [[price_down|e] g3] eqn:E2; [|discriminate].
  destruct (MarketData_new _ _ (volatility market_data + vol_bump) _)
    as [vol_up|e] eqn:Evol; [|discriminate].
  apply MarketData_new_Ok in Evol; subst vol_up.
  destruct (price option _ g3) as [[vega_price|e] g4] eqn:E3; [|discriminate].
  destruct (Option_new _ _ _ _) as [theta_option|e] eqn:Eopt; [|discriminate].
  apply Option_new_Ok in Eopt; subst theta_option.
  destruct (price _ market_data g4) as [[theta_price|e] g5] eqn:E4; [|discriminate].
  destruct (MarketData_new _ (rate market_data + rate_bump) _ _)
    as [rate_up|e] eqn:Erate; [|discriminate].
  apply MarketData_new_Ok in Erate; subst rate_up.
  destruct (price option _ g5) as [[rho_price|e] g6] eqn:E5; [|discriminate].
  injection H as <- <-.
  exists base_price, price_up, price_down, vega_price, theta_price, rho_price,
    g1, g2, g3, g4, g5.
  simpl. repeat split; assumption.
Qed.

End NumericalGreeks.

(** * The engines in exact real arithmetic *)

Local Open Scope R_scope.

Lemma Rltb_lt (x y : R) : x < y -> Rltb x y = true.
Proof. unfold Rltb; destruct (Rlt_dec x y); [reflexivity|contradiction]. Qed.

Lemma Rltb_ge (x y : R) : y <= x -> Rltb x y = false.
Proof. unfold Rltb; destruct (Rlt_dec x y); [lra|reflexivity]. Qed.

Lemma Rleb_le (x y : R) : x <= y -> Rleb x y = true.
Proof. unfold Rleb; destruct (Rle_dec x y); [reflexivity|contradiction]. Qed.

Lemma Rleb_gt (x y : R) : y < x -> Rleb x y = false.
Proof. unfold Rleb; destruct (Rle_dec x y); [lra|reflexivity]. Qed.

Lemma dmax_Rmax (a b : R) : dmax a b = Rmax a b.
Proof.
  unfold dmax; simpl; unfold Rltb, Rmax.
  destruct (Rlt_dec a b), (Rle_dec a b); lra.
Qed.

Lemma Rpow_std_pos (x y : R) : 0 < x -> Rpow_std x y = Rpower x y.
Proof. unfold Rpow_std; destruct (Rlt_dec 0 x); [reflexivity|contradiction]. Qed.

(** ** The averages of an Asian option *)

Definition Rsum (l : list R) : R := fold_right Rplus 0 l.












(** ** The range of [double] *)

Lemma double_max_large : 10 ^ 300 <= double_max.
Proof.
  unfold double_max. rewrite pow_IZR. apply IZR_le.
  apply Z.leb_le. vm_compute. reflexivity.
Qed.

Lemma round_range_finite (x : R) :
  - double_max <= x <= double_max -> round_range x = Finite x.
Proof.
  intros [Hl Hu]. unfold round_range.
  destruct (Rlt_dec double_max x); [lra|].
  destruct (Rlt_dec x (- double_max)); [lra|reflexivity].
Qed.

Lemma round_range_overflow (x : R) : double_max < x -> round_range x = PInf.
Proof.
  intros H. unfold round_range. destruct (Rlt_dec double_max x); [reflexivity|lra].
Qed.

Lemma signed_inf_pos (x : R) : 0 < x -> signed_inf x = PInf.
Proof. intros H; unfold signed_inf; destruct (Rlt_dec 0 x); [reflexivity|lra]. Qed.

Lemma signed_inf_neg (x : R) : x < 0 -> signed_inf x = NInf.
Proof.
  intros H; unfold signed_inf; destruct (Rlt_dec 0 x); [lra|].
  destruct (Rlt_dec x 0); [reflexivity|lra].
Qed.

Lemma signed_inf_zero : signed_inf 0 = NaN.
Proof.
  unfold signed_inf; destruct (Rlt_dec 0 0); [lra|]. destruct (Rlt_dec 0 0); [lra|reflexivity].
Qed.

(** The generic operations at the instance [ext_arith]. *)
Ltac ext_ops :=
  unfold dhalf, dnat, dgtb, dgeb in *; unfold d0, d1, d2, d3 in *;
  cbn [dZ dadd dsub dmul ddiv dneg dexp dsqrt dpow dlog dabs dltb dleb disfinite dpi
       ext_arith] in *.

Lemma round_range_positive (x : R) :
  0 < x -> exists y, round_range x = y /\ xmul y PInf = PInf.
Proof.
  intros H. unfold round_range.
  destruct (Rlt_dec double_max x); [exists PInf; split; reflexivity|].
  destruct (Rlt_dec x (- double_max)).
  - pose proof double_max_large. assert (0 < 10 ^ 300) by (apply pow_lt; lra). lra.
  - exists (Finite x). split; [reflexivity|]. cbn. apply signed_inf_pos; exact H.
Qed.

Lemma double_max_positive : 1 <= double_max.
Proof.
  pose proof double_max_large. assert (1 <= 10 ^ 300); [|lra].
  apply pow_R1_Rle; lra.
Qed.

Lemma double_max_trillion : 1000000000000 <= double_max.
Proof.
  unfold double_max. apply IZR_le. apply Z.leb_le. vm_compute. reflexivity.
Qed.


Example xltb_tests :
  xltb NInf NInf = false /\ xltb NInf PInf = true /\ xltb PInf PInf = false
  /\ xltb (Finite 0) PInf = true /\ xltb PInf (Finite 0) = false
  /\ xltb NInf (Finite 0) = true /\ xltb (Finite 0) NInf = false
  /\ xleb NInf NInf = true /\ xleb PInf PInf = true /\ xleb PInf NInf = false
  /\ xleb (Finite 0) NInf = false /\ xleb PInf (Finite 0) = false
  /\ xleb NaN NaN = false.
Proof. repeat split. Qed.

(** *** The averages of an Asian option in the range of [double] *)








Lemma dmax_finite (x : R) : dmax (Finite x) d0 = Finite (Rmax x 0).
Proof.
  unfold dmax, d0. cbn [dltb dZ ext_arith xltb]. unfold Rltb, Rmax.
  destruct (Rlt_dec x 0), (Rle_dec x 0); try reflexivity; try lra.
  f_equal; lra.
Qed.

(** The payoff of an Asian option on a finite positive average. *)
Definition asian_option (K T : R) (ty : OptionType) (avg : AveragingType) (n : nat)
  : Option ext :=
  {| strike := Finite K; expiry := Finite T; type := ty; style := EUROPEAN;
     product := Asian avg n |}.

Lemma asian_payoff_finite (K T : R) (ty : OptionType) (avg : AveragingType) (n : nat)
    (a : R) :
  0 < K <= double_max -> 0 <= a <= double_max ->
  payoff (asian_option K T ty avg n) (Finite a)
  = Finite match ty with
           | CALL => Rmax (a - K) 0
           | PUT => Rmax (K - a) 0
           end.
Proof.
  intros HK Ha. unfold payoff, asian_option. cbn [product type strike].
  destruct ty; cbn [dsub ext_arith xsub xneg xadd];
    rewrite round_range_finite by lra; apply dmax_finite.
Qed.









(** *** Overflow of the running product *)

Lemma product_of_repeat (x : R) (k : nat) (acc : R) :
  0 < x -> 0 < acc -> acc * x ^ k <= double_max -> 1 <= x ->
  fold_left (fun product obs => (product * obs)%D) (map Finite (repeat x k)) (Finite acc)
  = Finite (acc * x ^ k).
Proof.
  intros Hx; revert acc; induction k as [|k IH]; intros acc Hacc Hb H1.
  - cbn. f_equal. lra.
  - cbn [repeat map fold_left].
    change (Finite acc * Finite x)%D with (round_range (acc * x)).
    assert (Hk : 1 <= x ^ k) by (apply pow_R1_Rle; exact H1).
    assert (Hax : 0 < acc * x) by (apply Rmult_lt_0_compat; lra).
    simpl pow in Hb.
    rewrite round_range_finite.
    + rewrite IH; [f_equal; simpl; ring|exact Hax|lra|exact H1].
    + split; [pose proof double_max_positive; lra|].
      apply Rle_trans with (acc * (x * x ^ k)); [|exact Hb].
      rewrite <- Rmult_assoc. rewrite <- (Rmult_1_r (acc * x)) at 1.
      apply Rmult_le_compat_l; lra.
Qed.

Lemma sum_of_repeat (x : R) (k : nat) (acc : R) :
  0 < x -> 0 <= acc -> acc + INR k * x <= double_max ->
  fold_left (fun sum obs => (sum + obs)%D) (map Finite (repeat x k)) (Finite acc)
  = Finite (acc + INR k * x).
Proof.
  intros Hx; revert acc; induction k as [|k IH]; intros acc Hacc Hb.
  - cbn. f_equal. lra.
  - cbn [repeat map fold_left].
    change (Finite acc + Finite x)%D with (round_range (acc + x)).
    rewrite S_INR in Hb. pose proof (pos_INR k) as Hk.
    assert (0 <= INR k * x) by (apply Rmult_le_pos; lra).
    rewrite round_range_finite.
    + rewrite IH; [f_equal; rewrite S_INR; ring|lra|lra].
    + split; [pose proof double_max_positive; lra|lra].
Qed.

Lemma hundred_pow_154 : 100 ^ 154 <= double_max.
Proof.
  unfold double_max. rewrite pow_IZR. apply IZR_le. apply Z.leb_le. vm_compute. reflexivity.
Qed.

Lemma hundred_pow_155 : double_max < 100 ^ 155.
Proof.
  unfold double_max. rewrite pow_IZR. apply IZR_lt. apply Z.ltb_lt. vm_compute. reflexivity.
Qed.

(** The running product of 155 observations of 100 exceeds the largest
    [double]: the geometric average is infinite and so is the payoff of the
    call, while the arithmetic average is 100. *)
Lemma geometric_average_overflows :
  calculate_average GEOMETRIC (map Finite (repeat 100 155)) = PInf
  /\ calculate_average ARITHMETIC (map Finite (repeat 100 155)) = Finite 100
  /\ payoff (asian_option 90 1 CALL GEOMETRIC 155)
            (calculate_average GEOMETRIC (map Finite (repeat 100 155))) = PInf
  /\ payoff (asian_option 90 1 CALL ARITHMETIC 155)
            (calculate_average ARITHMETIC (map Finite (repeat 100 155))) = Finite 10.
Proof.
  pose proof double_max_trillion as Hmax.
  assert (Hg : calculate_average GEOMETRIC (map Finite (repeat 100 155)) = PInf).
  { unfold calculate_average.
    change (repeat 100 155) with (100 :: repeat 100 154) at 1.
    cbn [map]. cbv iota.
    change (Finite 100 :: map Finite (repeat 100 154)) with (map Finite (repeat 100 155)).
    rewrite length_map, repeat_length.
    replace (repeat 100 155) with (repeat 100 154 ++ [100])
      by (change [100] with (repeat 100 1); rewrite <- repeat_app; reflexivity).
    rewrite map_app, fold_left_app.
    unfold d1 at 1. cbn [dZ ext_arith].
    rewrite product_of_repeat;
      [|lra|lra|rewrite Rmult_1_l; exact hundred_pow_154|lra].
    cbn [map fold_left].
    change (Finite (1 * 100 ^ 154) * Finite 100)%D
      with (round_range (1 * 100 ^ 154 * 100)).
    rewrite round_range_overflow
      by (replace (1 * 100 ^ 154 * 100) with (100 ^ 155) by (simpl; ring);
          exact hundred_pow_155).
    unfold dnat, d1. cbn [dZ ddiv dpow ext_arith xdiv Z.of_nat Pos.of_succ_nat Pos.succ].
    destruct (Req_dec_T 155 0) as [E|_]; [lra|].
    rewrite round_range_finite by lra.
    unfold xpow. destruct (Req_dec_T (1 / 155) 0) as [E|_]; [lra|].
    destruct (Rlt_dec (1 / 155) 0) as [E|_]; [lra|]. reflexivity. }
  assert (Ha : calculate_average ARITHMETIC (map Finite (repeat 100 155)) = Finite 100).
  { unfold calculate_average.
    change (repeat 100 155) with (100 :: repeat 100 154) at 1.
    cbn [map]. cbv iota.
    change (Finite 100 :: map Finite (repeat 100 154)) with (map Finite (repeat 100 155)).
    rewrite length_map, repeat_length.
    unfold d0 at 1. cbn [dZ ext_arith].
    assert (Hn : INR 155 = 155) by (rewrite INR_IZR_INZ; reflexivity).
    rewrite sum_of_repeat by (rewrite ?Hn; lra). rewrite Hn.
    unfold dnat. cbn [dZ ddiv ext_arith xdiv Z.of_nat Pos.of_succ_nat Pos.succ].
    destruct (Req_dec_T 155 0) as [E|_]; [lra|].
    rewrite round_range_finite by lra. f_equal. lra. }
  split; [exact Hg|]. split; [exact Ha|]. rewrite Hg, Ha.
  split; [reflexivity|].
  rewrite asian_payoff_finite by lra. f_equal. rewrite Rmax_left by lra. lra.
Qed.

(** ** The binomial lattice with no steps *)

Lemma xdiv_by_zero (x : R) : 0 < x -> xdiv (Finite x) (Finite 0) = PInf.
Proof.
  intros H. unfold xdiv. destruct (Req_dec_T 0 0) as [_|Hn]; [|contradiction].
  apply signed_inf_pos; exact H.
Qed.

Lemma xmul_growth (r q : R) :
  q <= r -> xexp (xmul (xsub (Finite r) (Finite q)) PInf) = PInf
            \/ xexp (xmul (xsub (Finite r) (Finite q)) PInf) = NaN.
Proof.
  intros H. unfold xsub, xneg, xadd.
  destruct (Req_dec_T r q) as [->|Hne].
  - right. replace (q + - q) with 0 by lra.
    rewrite round_range_finite.
    + cbn [xmul]. rewrite signed_inf_zero. reflexivity.
    + pose proof double_max_large. assert (0 < 10 ^ 300) by (apply pow_lt; lra). lra.
  - left. destruct (@round_range_positive (r + - q)) as (y & -> & Hy); [lra|].
    rewrite Hy. reflexivity.
Qed.

(** With no steps the step length [T / 0] is infinite, so is the up
    factor, the growth factor is infinite or NaN, and the probability is
    NaN. *)
Lemma crr_probability_no_steps (S r q sigma T : R) :
  0 < sigma -> q <= r -> 0 < T ->
  crr_probability 0
    {| spot := Finite S; rate := Finite r; volatility := Finite sigma;
       dividend := Finite q |} (Finite T) = NaN.
Proof.
  intros Hs Hr HT. unfold crr_probability. cbn [rate volatility dividend]. ext_ops.
  cbn [Z.of_nat]. rewrite (xdiv_by_zero HT).
  destruct (xmul_growth Hr) as [-> | ->];
    cbn [xsqrt xmul]; rewrite (signed_inf_pos Hs); reflexivity.
Qed.

(** C3: a lattice of no steps.  The market and the option are accepted by
    their constructors.  For every such market with a rate at least the
    dividend yield, the probability the parameter computation derives is
    NaN, which is neither at least 0 nor at most 1, and neither below 0 nor
    above 1: the computation does not fail but returns the parameters with
    the NaN probability, and the price of a European option is its payoff
    at the spot itself. *)
Theorem calculate_parameters_accepts_nan (S K r q sigma T : R) (ty : OptionType) :
  0 < S <= double_max -> 0 < K -> 0 < sigma -> q <= r -> 0 < T ->
  let md := {| spot := Finite S; rate := Finite r; volatility := Finite sigma;
               dividend := Finite q |} in
  let o := {| strike := Finite K; expiry := Finite T; type := ty; style := EUROPEAN;
              product := Vanilla |} in
  MarketData_new (Finite S) (Finite r) (Finite sigma) (Finite q) = Ok md
  /\ EuropeanOption_new (Finite K) (Finite T) ty = Ok o
  /\ crr_probability 0 md (expiry o) = NaN
  /\ (d0 <=? NaN)%D = false /\ (NaN <=? d1)%D = false
  /\ (NaN <? d0)%D = false /\ (d1 <? NaN)%D = false
  /\ (exists pr, calculate_parameters 0 md (expiry o) = Ok pr /\ p pr = NaN)
  /\ BinomialTreeModel_price 0 o md = Ok (payoff o (spot md)).
Proof.
  intros HS HK Hs Hr HT md o.
  pose proof (crr_probability_no_steps S Hs Hr HT) as Hp. fold md in Hp.
  split.
  { unfold MarketData_new. ext_ops. cbn [xleb xisfinite negb orb].
    rewrite !Rleb_gt by lra. reflexivity. }
  split.
  { unfold EuropeanOption_new, Option_new, Option_validate. cbn [strike expiry].
    ext_ops. cbn [xleb xisfinite negb orb]. rewrite !Rleb_gt by lra. reflexivity. }
  split; [exact Hp|]. do 4 (split; [reflexivity|]).
  assert (Hc : exists pr, calculate_parameters 0 md (Finite T) = Ok pr /\ p pr = NaN
                          /\ u pr = PInf /\ d pr = Finite 0).
  { unfold calculate_parameters. fold (crr_probability 0 md (Finite T)).
    rewrite Hp. cbn [dltb dgtb ext_arith xltb orb].
    eexists. split; [reflexivity|]. cbn [p u d]. split; [reflexivity|].
    unfold md; cbn [volatility]. ext_ops. cbn [Z.of_nat].
    rewrite (xdiv_by_zero HT). cbn [xsqrt xmul]. rewrite (signed_inf_pos Hs).
    split; reflexivity. }
  destruct Hc as (pr & Hpr & Hpp & Hu & Hd).
  split; [exists pr; split; assumption|].
  unfold BinomialTreeModel_price. cbn [expiry o style]. rewrite Hpr. cbn [rbind].
  apply f_equal. unfold price_european.
  cbn [Nat.add seq map steps_down rev fold_left vget nth].
  unfold terminal_spot. rewrite Hu, Hd. cbn [Nat.sub]. ext_ops. cbn [Z.of_nat].
  unfold xpow. destruct (Req_dec_T 0 0) as [_|Hn]; [|contradiction].
  apply f_equal. unfold md; cbn [spot xmul].
  replace (S * 1) with S by lra.
  rewrite round_range_finite by lra. cbn [xmul]. replace (S * 1) with S by lra.
  apply round_range_finite; lra.
Qed.

(** The payoff of the call struck at 90 at the spot 100. *)
Lemma no_step_price_is_intrinsic :
  payoff {| strike := Finite 90; expiry := Finite 1; type := CALL;
            style := EUROPEAN; product := Vanilla |} (Finite 100) = Finite 10.
Proof.
  unfold payoff, Option_payoff. cbn [product type strike]. ext_ops.
  unfold dmax. cbn [dltb ext_arith xsub xneg xadd].
  rewrite round_range_finite.
  - cbn [xltb]. rewrite Rltb_ge by lra. f_equal; lra.
  - pose proof double_max_large. assert (100 <= 10 ^ 300); [|lra].
    replace 100 with (10 ^ 2) by lra. apply Rle_pow; [lra|lia].
Qed.

Lemma calculate_parameters_accepts_nan_witness :
  0 < 100 <= double_max /\ 0 < 90 /\ 0 < 2 / 10 /\ 0 <= 5 / 100 /\ 0 < 1
  /\ (exists pr,
        calculate_parameters 0
          {| spot := Finite 100; rate := Finite (5 / 100); volatility := Finite (2 / 10);
             dividend := Finite 0 |} (Finite 1) = Ok pr
        /\ p pr = NaN)
  /\ BinomialTreeModel_price 0
       {| strike := Finite 90; expiry := Finite 1; type := CALL; style := EUROPEAN;
          product := Vanilla |}
       {| spot := Finite 100; rate := Finite (5 / 100); volatility := Finite (2 / 10);
          dividend := Finite 0 |}
     = Ok (Finite 10).
Proof.
  assert (H1 : 0 < 100 <= double_max).
  { pose proof double_max_large. assert (100 <= 10 ^ 300); [|lra].
    replace 100 with (10 ^ 2) by lra. apply Rle_pow; [lra|lia]. }
  assert (H0 : 0 < 90) by lra.
  assert (H2 : 0 < 2 / 10) by lra.
  assert (H3 : 0 <= 5 / 100) by lra.
  assert (H4 : 0 < 1) by lra.
  split; [exact H1|]. split; [exact H0|]. split; [exact H2|]. split; [exact H3|].
  split; [exact H4|].
  pose proof (@calculate_parameters_accepts_nan 100 90 (5 / 100) 0 (2 / 10) 1 CALL
                H1 H0 H2 H3 H4) as H.
  cbv zeta in H. destruct H as (_ & _ & _ & _ & _ & _ & _ & Hpr & Hprice).
  split; [exact Hpr|].
  rewrite <- no_step_price_is_intrinsic. exact Hprice.
Defined.

(** ** Concrete inputs *)

Definition sample_market : MarketData R :=
  {| spot := 100; rate := 5 / 100; volatility := 2 / 10; dividend := 0 |}.

Definition vanilla (K T : R) (ty : OptionType) (st : OptionStyle) : Option R :=
  {| strike := K; expiry := T; type := ty; style := st; product := Vanilla |}.

Definition sample_heston : HestonParams R :=
  {| kappa := 2; theta := 4 / 100; sigma := 3 / 10; rho := - (7 / 10); v0 := 4 / 100 |}.

Definition sample_config (cv : bool) : MonteCarloConfig :=
  {| num_paths := 1000; num_timesteps := 100; seed := 12345; use_antithetic := false;
     use_control_variate := cv |}.

Definition sample_lsmc : LSMCConfig :=
  {| lsmc_num_paths := 2; lsmc_num_timesteps := 3; lsmc_seed := 12345;
     lsmc_use_antithetic := false; polynomial_degree := 3 |}.

Lemma unsupported_style_witness :
  style (vanilla 100 1 PUT BERMUDAN) <> EUROPEAN
  /\ style (vanilla 100 1 PUT BERMUDAN) <> AMERICAN
  /\ MonteCarloModel_price (RS := zero_stream) (sample_config false)
       (vanilla 100 1 PUT BERMUDAN) sample_market (RandomGenerator_new 12345)
     = (Throw (invalid_argument
          "Basic Monte Carlo only supports European options. Use LSMC for American options."),
        RandomGenerator_new 12345)
  /\ LSMCModel_price (RS := zero_stream) sample_lsmc
       (vanilla 100 1 PUT BERMUDAN) sample_market (RandomGenerator_new 12345)
     = (Throw (invalid_argument "LSMC is designed for American options"),
        RandomGenerator_new 12345).
Proof.
  assert (H1 : style (vanilla 100 1 PUT BERMUDAN) <> EUROPEAN) by discriminate.
  assert (H2 : style (vanilla 100 1 PUT BERMUDAN) <> AMERICAN) by discriminate.
  pose proof (unsupported_style_fails (RS := zero_stream) (sample_config false)
                sample_lsmc sample_heston (vanilla 100 1 PUT BERMUDAN) sample_market
                (RandomGenerator_new 12345)) as [Hmc Hlsmc].
  split; [exact H1|]. split; [exact H2|].
  split; [exact (proj1 (Hmc H1)) | exact (Hlsmc H2)].
Defined.

Lemma heston_simulate_path_witness :
  (1 <= 1 <= 2)%nat
  /\ snd (heston_simulate_path (RS := zero_stream) sample_heston 100 (4 / 100) sample_market
            1 2 (RandomGenerator_new 12345))
     = advance (RS := zero_stream) (2 * 2) (RandomGenerator_new 12345).
Proof.
  assert (H : (1 <= 1 <= 2)%nat) by lia.
  split; [exact H|].
  exact (proj1 (proj2 (proj2
           (heston_simulate_path_euler (RS := zero_stream) sample_heston 100 (4 / 100)
              sample_market 1 (RandomGenerator_new 12345) H)))).
Defined.

(** The generic operations at the instance [R_arith], as operations of [R]. *)
Ltac real_ops :=
  unfold dhalf, dnat, dgtb, dgeb in *; unfold d0, d1, d2, d3 in *;
  cbn [dZ dadd dsub dmul ddiv dneg dexp dsqrt dpow dlog dabs dltb dleb disfinite dpi
       R_arith] in *.

(** Two paths of three steps: the first falls, the second rises. *)
Definition sample_paths : list (list R) := [[100; 90; 80; 70]; [100; 110; 120; 130]].

Lemma itm_indices_sample :
  itm_indices sample_lsmc (vanilla 100 1 PUT AMERICAN) sample_paths 1 = [0%nat].
Proof.
  unfold itm_indices, sample_lsmc, sample_paths. cbn [lsmc_num_paths seq filter].
  unfold payoff, Option_payoff, at2, vget, vanilla. cbn [product type strike nth].
  rewrite !dmax_Rmax. real_ops.
  rewrite (Rmax_left (100 - 90)), (Rmax_right (100 - 110)) by lra.
  rewrite Rltb_lt, Rltb_ge by lra. reflexivity.
Qed.

Lemma lsmc_step_witness :
  (polynomial_degree sample_lsmc < 2 ^ 31)%Z
  /\ (Z.of_nat (List.length (itm_indices sample_lsmc (vanilla 100 1 PUT AMERICAN)
                               sample_paths 1))
      < polynomial_degree sample_lsmc + 1)%Z
  /\ lsmc_step sample_lsmc (vanilla 100 1 PUT AMERICAN) (5 / 100) (1 / 3) sample_paths
       (initial_cash_flows sample_lsmc (vanilla 100 1 PUT AMERICAN) sample_paths) 1
     = Ok (initial_cash_flows sample_lsmc (vanilla 100 1 PUT AMERICAN) sample_paths).
Proof.
  assert (H1 : (polynomial_degree sample_lsmc < 2 ^ 31)%Z) by (simpl; lia).
  assert (H2 : (Z.of_nat (List.length (itm_indices sample_lsmc (vanilla 100 1 PUT AMERICAN)
                                         sample_paths 1))
                < polynomial_degree sample_lsmc + 1)%Z)
    by (rewrite itm_indices_sample; simpl; lia).
  split; [exact H1|]. split; [exact H2|].
  exact (proj1 (lsmc_step_skips_regression sample_lsmc (vanilla 100 1 PUT AMERICAN)
                  (5 / 100) (1 / 3) sample_paths
                  (initial_cash_flows sample_lsmc (vanilla 100 1 PUT AMERICAN) sample_paths)
                  1 H1 H2)).
Defined.

(** A digital call, priced by the trinomial engine with its default Greeks. *)
Definition digital_call : Option R :=
  {| strike := 100; expiry := 1; type := CALL; style := EUROPEAN; product := Digital 10 |}.

Lemma trinomial_greeks_return :
  exists greeks,
    TrinomialTreeModel_greeks (RS := zero_stream) 100 digital_call sample_market
      (RandomGenerator_new 12345)
    = (Ok greeks, RandomGenerator_new 12345).
Proof.
  unfold TrinomialTreeModel_greeks, default_greeks, numerical_greeks, bind, lift, ret.
  unfold MarketData_new, Option_new, Option_validate.
  cbn [spot rate volatility dividend sample_market digital_call strike expiry type style
       negb orb].
  real_ops.
  rewrite !Rleb_gt by lra.
  cbn [orb negb].
  eexists; reflexivity.
Qed.

Lemma numerical_greeks_witness :
  exists greeks base_price theta_price,
    TrinomialTreeModel_greeks (RS := zero_stream) 100 digital_call sample_market
      (RandomGenerator_new 12345)
    = (Ok greeks, RandomGenerator_new 12345)
    /\ ret (RS := zero_stream)
           (TrinomialTreeModel_price 100
              {| strike := strike digital_call; expiry := expiry digital_call - 1 / 365;
                 type := type digital_call; style := style digital_call;
                 product := Vanilla |} sample_market)
           (RandomGenerator_new 12345)
       = (Ok theta_price, RandomGenerator_new 12345)
    /\ greek_theta greeks = (theta_price - base_price) / (1 / 365).
Proof.
  destruct trinomial_greeks_return as [greeks H].
  pose proof H as H'.
  unfold TrinomialTreeModel_greeks, default_greeks in H'.
  destruct (numerical_greeks_theta_reprices_vanilla _ _ _ _ _ _ _ _ H')
    as (base_price & price_up & price_down & vega_price & theta_price & rho_price
        & g1 & g2 & g3 & g4 & g5 & E0 & E1 & E2 & E3 & E4 & E5 & Htheta & _).
  exists greeks, base_price, theta_price.
  assert (Hg : g4 = RandomGenerator_new 12345 /\ g5 = RandomGenerator_new 12345).
  { unfold ret in E0, E1, E2, E3, E4.
    split; congruence. }
  destruct Hg as [-> ->].
  split; [exact H|]. split; [exact E4|]. exact Htheta.
Defined.

(** At the spot 105 the digital call pays its payout 10, while the option
    the theta difference reprices pays the vanilla 5. *)
Lemma digital_theta_option_payoff :
  payoff digital_call 105 = 10
  /\ payoff (vanilla (strike digital_call) (expiry digital_call - 1 / 365)
               (type digital_call) (style digital_call)) 105 = 5.
Proof.
  unfold payoff, Option_payoff, in_the_money, digital_call, vanilla.
  cbn [product type strike]. rewrite dmax_Rmax. real_ops.
  rewrite Rltb_lt by lra. rewrite Rmax_left by lra. split; lra.
Qed.

(** ** The trinomial lattice on two steps *)

Section TrinomialTwoSteps.

Context {D : Type} {AR : Arith D}.
Local Open Scope D_scope.

(** The value the trinomial code returns for an American option on two
    steps, written out.  [node z] is the payoff at the spot
    [S * exp (z * dx)].  In the sweep of layer 1 the lowest node [V1] takes
    its exercise payoff at [node (2^64 - 1)], not [node (-1)], and the
    middle node [V2] reads [V1], the value just written for this layer, as
    its lower successor, not [node (-1)] of the terminal layer. *)
Lemma trinomial_price_two_steps (K T : D) (ty : OptionType) (prod : Product D)
    (md : MarketData D) :
  let o := {| strike := K; expiry := T; type := ty; style := AMERICAN; product := prod |} in
  let tp := trinomial_parameters 2 o md in
  let node z := payoff o (spot md * dexp (dZ z * tri_dx tp)) in
  let cont up mid down :=
    tri_df tp * (tri_pu tp * up + tri_pm tp * mid + tri_pd tp * down) in
  let V1 := dmax (cont (node 0%Z) (node (-1)%Z) (node (-2)%Z))
                 (node 18446744073709551615%Z) in
  let V2 := dmax (cont (node 1%Z) (node 0%Z) V1) (node 0%Z) in
  let V3 := dmax (cont (node 2%Z) (node 1%Z) V2) (node 1%Z) in
  TrinomialTreeModel_price 2 o md = dmax (cont V3 V2 V1) (node 0%Z).
Proof.
  reflexivity.
Qed.

End TrinomialTwoSteps.

Local Open Scope R_scope.

(** The American call of strike 100 and expiry 1 on the sample market. *)
Definition american_call : Option R := vanilla 100 1 CALL AMERICAN.

Lemma sample_trinomial_parameters :
  let tp := trinomial_parameters 2 american_call sample_market in
  2 / 10 <= tri_dx tp <= 4 / 10
  /\ 0 <= tri_pu tp /\ 0 <= tri_pm tp /\ 13 / 100 <= tri_pd tp
  /\ tri_pu tp + tri_pm tp + tri_pd tp = 1
  /\ 97 / 100 <= tri_df tp <= 1.
Proof.
  cbv zeta. unfold trinomial_parameters, american_call, vanilla, sample_market.
  cbn [tri_dx tri_pu tri_pm tri_pd tri_df expiry rate dividend volatility].
  real_ops. cbn [Z.of_nat Pos.of_succ_nat Pos.succ].
  set (s := sqrt (3 * (1 / 2))).
  assert (Hs0 : 0 <= s) by apply sqrt_pos.
  assert (Hss : s * s = 3 / 2) by (unfold s; rewrite sqrt_sqrt; lra).
  assert (Hs : 1 <= s <= 2) by nra.
  set (dx := 2 / 10 * s).
  assert (Hdx : 2 / 10 <= dx <= 4 / 10) by (unfold dx; lra).
  assert (Hdx2 : dx * dx = 6 / 100) by (unfold dx; nra).
  rewrite Hdx2.
  set (B := (5 / 100 - 0 - 1 / 2 * (2 / 10) * (2 / 10)) * (1 / 2) / dx).
  assert (HB : B * dx = 15 / 1000) by (unfold B; field; lra).
  assert (HBb : 375 / 10000 <= B <= 75 / 1000) by nra.
  split; [exact Hdx|].
  pose proof (exp_ineq1_le (- (5 / 100) * (1 / 2))) as He1.
  assert (He2 : exp (- (5 / 100) * (1 / 2)) < exp 0) by (apply exp_increasing; lra).
  rewrite exp_0 in He2.
  repeat split; lra.
Qed.

(** In exact arithmetic the backward-induction value of a node lies between
    0 and any bound of the payoffs, when the branch probabilities are
    non-negative and sum to 1 and the discount factor is at most 1. *)
Lemma trinomial_value_bounded (N : nat) (o : Option R) (S0 : R) (tp : TrinomialParams R)
    (M : R) :
  0 <= tri_pu tp -> 0 <= tri_pm tp -> 0 <= tri_pd tp ->
  tri_pu tp + tri_pm tp + tri_pd tp = 1 ->
  0 <= tri_df tp <= 1 ->
  (forall i, (i <= 2 * N)%nat ->
     0 <= payoff o (S0 * exp (IZR (Z.of_nat i - Z.of_nat N) * tri_dx tp)) <= M) ->
  forall k i, (i + k <= 2 * N)%nat -> 0 <= trinomial_value N o S0 tp k i <= M.
Proof.
  intros Hu Hm Hd Hsum Hdf Hpay.
  induction k as [|k IH]; intros i Hi.
  - cbn [trinomial_value]; real_ops. apply Hpay; lia.
  - cbn [trinomial_value]; real_ops.
    pose proof (IH (i + 1)%nat ltac:(lia)) as Ha.
    pose proof (IH i ltac:(lia)) as Hb.
    pose proof (IH (i - 1)%nat ltac:(lia)) as Hc.
    pose proof (Hpay i ltac:(lia)) as Hp.
    set (a := trinomial_value N o S0 tp k (i + 1)) in *.
    set (b := trinomial_value N o S0 tp k i) in *.
    set (c := trinomial_value N o S0 tp k (i - 1)) in *.
    set (X := tri_pu tp * a + tri_pm tp * b + tri_pd tp * c).
    assert (HX : 0 <= X <= M) by (unfold X; nra).
    assert (HC : 0 <= tri_df tp * X <= M) by nra.
    destruct (style o); try exact HC.
    rewrite dmax_Rmax. unfold Rmax; destruct (Rle_dec _ _); lra.
Qed.

Lemma call_payoff_R (K T : R) (st : OptionStyle) (s : R) :
  payoff (vanilla K T CALL st) s = Rmax (s - K) 0.
Proof. unfold payoff, Option_payoff, vanilla; simpl. apply dmax_Rmax. Qed.

Lemma continuation_lower_bound (df pu pm pd a b c L : R) :
  97 / 100 <= df -> 0 <= pu -> 0 <= pm -> 13 / 100 <= pd ->
  0 <= a -> 0 <= b -> 0 <= L -> L <= c ->
  97 / 100 * (13 / 100) * L <= df * (pu * a + pm * b + pd * c).
Proof.
  intros Hdf Hu Hm Hd Ha Hb HL Hc.
  assert (H1 : 13 / 100 * L <= pd * c) by nra.
  assert (H2 : 0 <= pu * a + pm * b) by nra.
  nra.
Qed.

Lemma Rmax_payoff_nonneg (x y : R) : 0 <= Rmax x (Rmax y 0).
Proof. eapply Rle_trans; [|apply Rmax_r]. apply Rmax_r. Qed.

(** C1, on the trinomial lattice with 2 steps, the American call of strike
    100 and expiry 1, spot 100, rate 5%, volatility 20%: the
    backward-induction value of the root, with the larger of continuation
    and exercise at every node, is at most 200; the value the code returns
    is at least 10^18. *)
Theorem trinomial_american_call_diverges :
  trinomial_value 2 american_call (spot sample_market)
    (trinomial_parameters 2 american_call sample_market) 2 2 <= 200
  /\ 1000000000000000000 <= TrinomialTreeModel_price 2 american_call sample_market.
Proof.
  pose proof sample_trinomial_parameters as H; cbv zeta in H.
  destruct H as (Hdx & Hu & Hm & Hd & Hsum & Hdf).
  split.
  - apply (@trinomial_value_bounded 2 _ _ _ 200); try lra; try lia.
    intros i Hi.
    set (tp := trinomial_parameters 2 american_call sample_market) in *.
    unfold american_call. rewrite !call_payoff_R.
    assert (Hz : IZR (Z.of_nat i - Z.of_nat 2) <= 2) by (apply IZR_le; lia).
    assert (He : exp (IZR (Z.of_nat i - Z.of_nat 2) * tri_dx tp) < exp 1)
      by (apply exp_increasing; nra).
    pose proof exp_le_3 as H3.
    pose proof (exp_pos (IZR (Z.of_nat i - Z.of_nat 2) * tri_dx tp)) as Hp.
    cbn [spot sample_market].
    unfold Rmax; destruct (Rle_dec _ _); lra.
  - unfold american_call, vanilla in *.
    rewrite (trinomial_price_two_steps 100 1 CALL Vanilla sample_market).
    cbv zeta.
    set (tp := trinomial_parameters 2 _ sample_market) in *.
    fold (vanilla 100 1 CALL AMERICAN).
    rewrite !dmax_Rmax, !call_payoff_R. real_ops. cbn [spot sample_market].
    set (H := 18446744073709551615).
    pose proof (exp_ineq1_le (H * tri_dx tp)) as He.
    eapply Rle_trans; [|apply Rmax_l].
    eapply Rle_trans;
      [|apply (@continuation_lower_bound _ _ _ _ _ _ _ (20 * H));
        try lra; try apply Rmax_payoff_nonneg].
    + unfold H; lra.
    + unfold H; lra.
    + eapply Rle_trans; [|apply Rmax_r]. eapply Rle_trans; [|apply Rmax_l].
      unfold H in *; nra.
Qed.

(** ** The binomial parameters in exact arithmetic *)

(** In exact arithmetic the two comparisons of [calculate_parameters] say
    that the up-probability is outside the interval from 0 to 1. *)
Lemma calculate_parameters_unit_interval (num_steps : nat) (md : MarketData R) (T : R) :
  (exists e, calculate_parameters num_steps md T = Throw e)
  <-> ~ (0 <= crr_probability num_steps md T <= 1).
Proof.
  unfold calculate_parameters.
  fold (crr_probability num_steps md T).
  set (pv := crr_probability num_steps md T).
  real_ops. unfold Rltb.
  destruct (Rlt_dec pv 0), (Rlt_dec 1 pv); cbn [orb]; split;
    try (intros _; lra); try (intros _; eexists; reflexivity);
    try (intros [e He]; discriminate He); intros H; exfalso; apply H; lra.
Qed.

(** * Further properties of the engines *)

(** ** In-place sweeps of a recombining binomial lattice

    Both binomial pricers overwrite one vector layer by layer, node [i] of
    a layer from entries [i] and [i + 1] of the layer after it.  The sweep
    in increasing [i] is sound for any node function: entry [i + 1] is
    still the old layer when entry [i] is written. *)

Section LatticeSweep.

Context {D : Type}.
Variables (zero : D) (num_steps : nat).
Variable terminal : nat -> D.
Variable node : nat -> nat -> D -> D -> D.

Definition lattice_sweep (values : list D) (step : nat) : list D :=
  fold_left
    (fun values i => vset values i (node step i (vget zero values i) (vget zero values (i + 1))))
    (seq 0 (step + 1)) values.

(** The value of node [i] of layer [num_steps - k]. *)
Fixpoint lattice_value (k i : nat) : D :=
  match k with
  | O => terminal i
  | S k' => node (num_steps - k) i (lattice_value k' i) (lattice_value k' (i + 1))
  end.

Definition lattice_layer (k : nat) (values : list D) : Prop :=
  List.length values = (num_steps + 1)%nat /\
  forall i, (i <= num_steps - k)%nat -> vget zero values i = lattice_value k i.

Lemma lattice_sweep_prefix (k : nat) (values : list D) (m : nat) :
  (S k <= num_steps)%nat ->
  lattice_layer k values ->
  (m <= num_steps - k)%nat ->
  let values' :=
    fold_left
      (fun values i =>
         vset values i (node (num_steps - S k) i (vget zero values i)
                             (vget zero values (i + 1))))
      (seq 0 m) values in
  List.length values' = (num_steps + 1)%nat /\
  (forall i, (i < m)%nat -> vget zero values' i = lattice_value (S k) i) /\
  (forall i, (m <= i <= num_steps - k)%nat -> vget zero values' i = lattice_value k i).
Proof.
  intros Hk [Hlen Hval]; induction m as [|m IH]; intros Hm; cbv zeta.
  - simpl; repeat split; [exact Hlen | intros; lia | intros i Hi; apply Hval; lia].
  - destruct IH as (Hl & Hnew & Hold); [lia|].
    rewrite seq_S, fold_left_app; simpl.
    set (cur := fold_left _ (seq 0 m) values) in *.
    repeat split.
    + rewrite length_vset; exact Hl.
    + intros i Hi. destruct (Nat.eq_dec i m) as [->|Hne].
      * rewrite vget_vset_same by lia.
        rewrite (Hold m), (Hold (m + 1)%nat) by lia.
        reflexivity.
      * rewrite vget_vset_other by lia. apply Hnew; lia.
    + intros i Hi. rewrite vget_vset_other by lia. apply Hold; lia.
Qed.

Lemma lattice_sweep_layer (k : nat) (values : list D) :
  (S k <= num_steps)%nat ->
  lattice_layer k values ->
  lattice_layer (S k) (lattice_sweep values (num_steps - S k)).
Proof.
  intros Hk H.
  destruct (lattice_sweep_prefix (m := (num_steps - S k) + 1) Hk H) as (Hl & Hnew & _);
    [lia|].
  unfold lattice_sweep; split; [exact Hl|].
  intros i Hi; apply Hnew; lia.
Qed.

Lemma lattice_sweeps_layer (n k : nat) (values : list D) :
  (k + n <= num_steps)%nat ->
  lattice_layer k values ->
  lattice_layer (k + n)
    (fold_left lattice_sweep (map (fun j => (num_steps - k - 1 - j)%nat) (seq 0 n)) values).
Proof.
  revert k values; induction n as [|n IH]; intros k values Hn H.
  - simpl; rewrite Nat.add_0_r; exact H.
  - rewrite <- cons_seq, <- seq_shift, map_cons, map_map; simpl fold_left.
    replace (k + S n)%nat with (S k + n)%nat by lia.
    replace (num_steps - k - 1 - 0)%nat with (num_steps - S k)%nat by lia.
    erewrite map_ext; [apply IH; [lia|apply lattice_sweep_layer; [lia|exact H]]|].
    intros j; simpl; lia.
Qed.

Lemma lattice_root :
  vget zero
    (fold_left lattice_sweep (steps_down num_steps) (map terminal (seq 0 (num_steps + 1)))) 0
  = lattice_value num_steps 0.
Proof.
  rewrite steps_down_map.
  pose proof (lattice_sweeps_layer num_steps (k := 0)
                (values := map terminal (seq 0 (num_steps + 1)))) as H.
  destruct H as [_ H]; [lia| |apply H; lia].
  split.
  - rewrite length_map, length_seq; reflexivity.
  - intros i Hi; rewrite vget_map_seq by lia; reflexivity.
Qed.

End LatticeSweep.

(** ** The European binomial price *)

Section EuropeanLattice.

Context {D : Type} {AR : Arith D}.
Local Open Scope D_scope.

(** The value of node [i] of layer [num_steps - k] of the European
    lattice: the payoff on the terminal layer, the discounted expectation
    of the two successors below it. *)
Fixpoint european_value (num_steps : nat) (o : Option D) (S : D) (pr : TreeParams D)
    (k : nat) (i : nat) : D :=
  match k with
  | O => payoff o (terminal_spot num_steps S pr i)
  | Datatypes.S k' =>
      df pr * (p pr * european_value num_steps o S pr k' i
               + (d1 - p pr) * european_value num_steps o S pr k' (i + 1))
  end.

Lemma european_value_lattice (num_steps : nat) (o : Option D) (S0 : D) (pr : TreeParams D)
    (k i : nat) :
  european_value num_steps o S0 pr k i
  = lattice_value num_steps (fun i => payoff o (terminal_spot num_steps S0 pr i))
      (fun _ _ a b => df pr * (p pr * a + (d1 - p pr) * b)) k i.
Proof.
  revert i; induction k as [|k IH]; intros i; simpl; [reflexivity|].
  rewrite !IH; reflexivity.
Qed.

Lemma price_european_root (num_steps : nat) (o : Option D) (md : MarketData D)
    (pr : TreeParams D) :
  price_european num_steps o md pr = european_value num_steps o (spot md) pr num_steps 0.
Proof.
  rewrite european_value_lattice, <- (lattice_root d0).
  reflexivity.
Qed.

(** X2: the binomial price of a European option is the backward-induction
    value of the root: the payoff at every terminal node, and at every node
    of every earlier layer the discounted risk-neutral expectation of its
    two successors; the in-place update loses no value of the layer after. *)
Theorem price_european_backward_induction (num_steps : nat) (o : Option D)
    (md : MarketData D) (pr : TreeParams D) :
  price_european num_steps o md pr = european_value num_steps o (spot md) pr num_steps 0.
Proof. apply price_european_root. Qed.

End EuropeanLattice.

(** ** The binomial lattice in exact arithmetic *)

Local Open Scope R_scope.

(** The same contract with another exercise style. *)
Definition restyle (o : Option R) (st : OptionStyle) : Option R :=
  {| strike := strike o; expiry := expiry o; type := type o; style := st;
     product := product o |}.

Lemma payoff_restyle (o : Option R) (st : OptionStyle) (s : R) :
  payoff (restyle o st) s = payoff o s.
Proof. reflexivity. Qed.

(** The up-probability lies between 0 and 1 exactly when the drift of one
    step is at most one volatility step in absolute value. *)
Lemma crr_probability_range (num_steps : nat) (md : MarketData R) (T : R) :
  let x := volatility md * sqrt (T / IZR (Z.of_nat num_steps)) in
  let y := (rate md - dividend md) * (T / IZR (Z.of_nat num_steps)) in
  0 < x ->
  (0 <= crr_probability num_steps md T <= 1 <-> - x <= y <= x).
Proof.
  intros x y Hx.
  unfold crr_probability. real_ops. fold x y.
  pose proof (exp_pos x) as Ha. pose proof (exp_pos y) as Hb.
  assert (Ha1 : 1 < exp x) by (rewrite <- exp_0; apply exp_increasing; exact Hx).
  assert (Hinv : 1 / exp x = exp (- x)) by (rewrite exp_Ropp; unfold Rdiv; lra).
  assert (Hinv1 : exp (- x) < 1) by (rewrite <- exp_0; apply exp_increasing; lra).
  rewrite Hinv.
  set (den := exp x - exp (- x)).
  assert (Hden : 0 < den) by (unfold den; lra).
  set (pv := (exp y - exp (- x)) / den).
  assert (Hpv : pv * den = exp y - exp (- x)) by (unfold pv; field; lra).
  split.
  - intros [H0 H1].
    assert (Hlo : exp (- x) <= exp y) by nra.
    assert (Hhi : exp y <= exp x) by (unfold den in *; nra).
    split.
    + destruct (Rle_or_lt (- x) y) as [|Hlt]; [assumption|].
      apply exp_increasing in Hlt; lra.
    + destruct (Rle_or_lt y x) as [|Hlt]; [assumption|].
      apply exp_increasing in Hlt; lra.
  - intros [H0 H1].
    assert (Hlo : exp (- x) <= exp y).
    { destruct H0 as [Hlt| ->]; [apply Rlt_le, exp_increasing; exact Hlt|lra]. }
    assert (Hhi : exp y <= exp x).
    { destruct H1 as [Hlt| ->]; [apply Rlt_le, exp_increasing; exact Hlt|lra]. }
    split.
    + unfold pv. apply Rmult_le_pos; [lra|]. apply Rlt_le, Rinv_0_lt_compat; exact Hden.
    + assert (H : pv * den <= 1 * den) by (rewrite Hpv; unfold den; lra).
      apply Rmult_le_reg_r in H; assumption.
Qed.

Lemma calculate_parameters_Ok_R (num_steps : nat) (md : MarketData R) (T : R) :
  (exists pr, calculate_parameters num_steps md T = Ok pr)
  <-> 0 <= crr_probability num_steps md T <= 1.
Proof.
  pose proof (calculate_parameters_unit_interval num_steps md T) as H.
  destruct (calculate_parameters num_steps md T) as [pr|e].
  - split; [|intros _; eexists; reflexivity].
    intros _. destruct (Rle_dec 0 (crr_probability num_steps md T)) as [H0|H0];
      destruct (Rle_dec (crr_probability num_steps md T) 1) as [H1|H1];
      try (split; assumption);
      exfalso; assert (Hc : exists e0 : exn, @Ok (TreeParams R) pr = Throw e0)
        by (apply H; lra);
      destruct Hc as [e0 He0]; discriminate He0.
  - split; [intros [pr Hpr]; discriminate Hpr|].
    intros Hr. exfalso. apply (proj1 H); [eexists; reflexivity|exact Hr].
Qed.

(** X3: in exact arithmetic, with a positive volatility step
    [sigma sqrt(dt)], the binomial parameter computation succeeds exactly
    when the drift of one step [(r - q) dt] is at most [sigma sqrt(dt)] in
    absolute value, and throws otherwise. *)
Theorem calculate_parameters_succeeds_iff (num_steps : nat) (md : MarketData R) (T : R) :
  0 < volatility md * sqrt (T / IZR (Z.of_nat num_steps)) ->
  ((exists pr, calculate_parameters num_steps md T = Ok pr)
   <-> - (volatility md * sqrt (T / IZR (Z.of_nat num_steps)))
       <= (rate md - dividend md) * (T / IZR (Z.of_nat num_steps))
       <= volatility md * sqrt (T / IZR (Z.of_nat num_steps))).
Proof.
  intros Hx.
  rewrite calculate_parameters_Ok_R.
  apply (crr_probability_range num_steps md T Hx).
Qed.

Lemma sample_volatility_step :
  0 < volatility sample_market * sqrt (1 / IZR (Z.of_nat 1)).
Proof.
  replace (1 / IZR (Z.of_nat 1)) with 1 by (simpl; lra).
  rewrite sqrt_1; simpl; lra.
Qed.

Lemma calculate_parameters_witness :
  0 < volatility sample_market * sqrt (1 / IZR (Z.of_nat 1))
  /\ exists pr, calculate_parameters 1 sample_market 1 = Ok pr.
Proof.
  split; [exact sample_volatility_step|].
  apply (proj2 (calculate_parameters_succeeds_iff 1 sample_market 1 sample_volatility_step)).
  replace (1 / IZR (Z.of_nat 1)) with 1 by (simpl; lra).
  rewrite sqrt_1; simpl; lra.
Defined.

Lemma sample_parameters_Ok : exists pr, calculate_parameters 1 sample_market 1 = Ok pr.
Proof.
  apply calculate_parameters_Ok_R.
  apply (crr_probability_range 1 sample_market 1 sample_volatility_step).
  replace (1 / IZR (Z.of_nat 1)) with 1 by (simpl; lra).
  rewrite sqrt_1; simpl; lra.
Qed.

Lemma calculate_parameters_fields_R (num_steps : nat) (md : MarketData R) (T : R)
    (pr : TreeParams R) :
  calculate_parameters num_steps md T = Ok pr ->
  0 <= p pr <= 1 /\ 0 < df pr /\ 0 < u pr /\ 0 < d pr.
Proof.
  intros H.
  assert (Hp : 0 <= p pr <= 1).
  { rewrite (calculate_parameters_p _ _ _ H).
    apply calculate_parameters_Ok_R; exists pr; exact H. }
  split; [exact Hp|].
  unfold calculate_parameters in H.
  destruct (_ || _); [discriminate|]. injection H as <-.
  cbn [df u d]. real_ops.
  repeat split; try apply exp_pos.
  apply Rdiv_lt_0_compat; [lra|apply exp_pos].
Qed.

Lemma european_le_american_value (num_steps : nat) (o : Option R) (S0 : R)
    (pr : TreeParams R) :
  0 <= p pr <= 1 -> 0 <= df pr ->
  forall k i,
    european_value num_steps (restyle o EUROPEAN) S0 pr k i
    <= american_value num_steps (restyle o AMERICAN) S0 pr k i.
Proof.
  intros Hp Hdf; induction k as [|k IH]; intros i.
  - cbn [european_value american_value]. rewrite !payoff_restyle. lra.
  - cbn [european_value american_value]. rewrite dmax_Rmax. real_ops.
    pose proof (IH i) as H1. pose proof (IH (i + 1)%nat) as H2.
    eapply Rle_trans; [|apply Rmax_l].
    apply Rmult_le_compat_l; [exact Hdf|]. nra.
Qed.

Lemma price_american_root (num_steps : nat) (o : Option R) (md : MarketData R)
    (pr : TreeParams R) :
  price_american num_steps o md pr = american_value num_steps o (spot md) pr num_steps 0.
Proof.
  unfold price_american.
  destruct (price_american_layers o (spot md) pr (Nat.le_refl num_steps)) as [_ H].
  rewrite firstn_all2 in H by (unfold steps_down; rewrite length_rev, length_seq; lia).
  apply H; lia.
Qed.

Lemma node_spot_root_R (S0 : R) (pr : TreeParams R) :
  0 < u pr -> 0 < d pr -> node_spot S0 pr 0 0 = S0.
Proof.
  intros Hu Hd. unfold node_spot. real_ops. cbn [Z.of_nat Z.sub Z.opp Z.add].
  rewrite !Rpow_std_pos, !Rpower_O by assumption. lra.
Qed.

(** X4: in exact arithmetic, whenever the binomial engine prices the
    European contract, it prices the American contract of the same terms,
    at no less than the European price and no less than the payoff of
    exercising at the spot. *)
Theorem american_price_dominates (num_steps : nat) (o : Option R) (md : MarketData R)
    (european : R) :
  (1 <= num_steps)%nat ->
  BinomialTreeModel_price num_steps (restyle o EUROPEAN) md = Ok european ->
  exists american,
    BinomialTreeModel_price num_steps (restyle o AMERICAN) md = Ok american
    /\ european <= american
    /\ payoff o (spot md) <= american.
Proof.
  intros HN H. unfold BinomialTreeModel_price in *. cbn [style restyle expiry] in *.
  destruct (calculate_parameters num_steps md (expiry o)) as [pr|e] eqn:E;
    [|discriminate H].
  cbn [rbind] in *. injection H as <-.
  destruct (calculate_parameters_fields_R _ _ _ E) as (Hp & Hdf & Hu & Hd).
  eexists; split; [reflexivity|].
  rewrite price_american_root, price_european_root. split.
  - apply european_le_american_value; lra.
  - destruct num_steps as [|n]; [lia|].
    cbn [american_value]. rewrite dmax_Rmax.
    replace (S n - S n)%nat with 0%nat by lia.
    rewrite node_spot_root_R, payoff_restyle by assumption.
    apply Rmax_r.
Qed.

Lemma american_price_witness :
  (1 <= 1)%nat
  /\ exists european american,
       BinomialTreeModel_price 1 (restyle (vanilla 100 1 PUT EUROPEAN) EUROPEAN) sample_market
       = Ok european
       /\ BinomialTreeModel_price 1 (restyle (vanilla 100 1 PUT EUROPEAN) AMERICAN)
            sample_market
          = Ok american
       /\ european <= american.
Proof.
  split; [lia|].
  destruct sample_parameters_Ok as [pr Hpr].
  assert (H : BinomialTreeModel_price 1 (restyle (vanilla 100 1 PUT EUROPEAN) EUROPEAN)
                sample_market
              = Ok (price_european 1 (restyle (vanilla 100 1 PUT EUROPEAN) EUROPEAN)
                      sample_market pr)).
  { unfold BinomialTreeModel_price. cbn [expiry restyle vanilla style].
    rewrite Hpr; reflexivity. }
  destruct (@american_price_dominates 1 (vanilla 100 1 PUT EUROPEAN) sample_market _
              (Nat.le_refl 1) H) as (american & Ha & Hle & _).
  eexists; exists american. split; [exact H|]. split; [exact Ha|exact Hle].
Defined.

(** ** Simulated paths and the Monte Carlo path loops *)

Section PathLoops.

Context {D : Type} {AR : Arith D} {CA : ComplexArith D} {RS : RandomStream D}.
Local Open Scope D_scope.

(** The entries of [gbm_steps]: each is the one before it times
    [exp (drift + diffusion * Z)] with [Z] the next draw. *)
Lemma gbm_steps_recurrence (drift diffusion : D) (n : nat) (prev : D)
    (g : RandomGenerator) :
  List.length (fst (gbm_steps drift diffusion n prev g)) = n
  /\ forall i, (i < n)%nat ->
       vget d0 (prev :: fst (gbm_steps drift diffusion n prev g)) (S i)
       = vget d0 (prev :: fst (gbm_steps drift diffusion n prev g)) i
         * dexp (drift + diffusion * nth_normal i g).
Proof.
  revert prev g; induction n as [|n IH]; intros prev g.
  - split; [reflexivity|intros; lia].
  - cbn [gbm_steps]. unfold nth_normal.
    destruct (next_normal g) as [dW g1] eqn:E.
    specialize (IH (prev * dexp (drift + diffusion * dW)) g1).
    destruct (gbm_steps drift diffusion n _ g1) as [rest g2].
    cbn [fst] in *. destruct IH as [Hlen Hrec].
    split; [simpl; congruence|].
    intros [|i] Hi.
    + unfold vget; cbn [nth advance]. rewrite E; reflexivity.
    + specialize (Hrec i ltac:(lia)).
      unfold nth_normal in Hrec.
      cbn [advance]. rewrite E; cbn [snd].
      exact Hrec.
Qed.

(** X5: [simulate_path] returns [num_steps + 1] prices starting at [S0];
    price [i] is price [i - 1] times
    [exp ((r - q - sigma^2 / 2) dt + sigma sqrt(dt) Z)] where [Z] is draw
    [i - 1] of the generator, and the generator ends [num_steps] draws
    further. *)
Theorem simulate_path_recurrence (S0 : D) (md : MarketData D) (T : D) (num_steps : nat)
    (g : RandomGenerator) (i : nat) :
  (1 <= i <= num_steps)%nat ->
  let path := fst (simulate_path S0 md T num_steps g) in
  let dt := T / dnat num_steps in
  let drift := (rate md - dividend md - dhalf * volatility md * volatility md) * dt in
  let diffusion := volatility md * dsqrt dt in
  List.length path = (num_steps + 1)%nat
  /\ vget d0 path 0 = S0
  /\ vget d0 path i
     = vget d0 path (i - 1) * dexp (drift + diffusion * nth_normal (i - 1) g)
  /\ snd (simulate_path S0 md T num_steps g) = advance num_steps g.
Proof.
  intros Hi; cbv zeta.
  rewrite simulate_path_generator.
  unfold simulate_path.
  match goal with
  | |- context [gbm_steps ?dr ?di num_steps S0 g] =>
      pose proof (gbm_steps_recurrence dr di num_steps S0 g) as [Hlen Hrec];
      destruct (gbm_steps dr di num_steps S0 g) as [tl g']
  end.
  cbn [fst] in *.
  split; [simpl; lia|]. split; [reflexivity|]. split; [|reflexivity].
  destruct i as [|i]; [lia|].
  replace (S i - 1)%nat with i by lia. apply Hrec; lia.
Qed.

Variables (o : Option D) (md : MarketData D).

(** A loop over simulated paths that adds [f path] to the sum. *)
Fixpoint path_loop (steps : nat) (f : list D -> D) (n : nat) (sum : D)
    (g : RandomGenerator) : D * RandomGenerator :=
  match n with
  | O => (sum, g)
  | S n' =>
      let (path, g1) := simulate_path (spot md) md (expiry o) steps g in
      path_loop steps f n' (sum + f path) g1
  end.

(** Path [k] of a loop whose generator was [g] at the start. *)
Definition path_at (steps : nat) (g : RandomGenerator) (k : nat) : list D :=
  fst (simulate_path (spot md) md (expiry o) steps (advance (steps * k) g)).

Lemma path_loop_fold (steps : nat) (f : list D -> D) (g0 : RandomGenerator)
    (n a : nat) (sum : D) :
  path_loop steps f n sum (advance (steps * a) g0)
  = (fold_left (fun sum k => sum + f (path_at steps g0 k)) (seq a n) sum,
     advance (steps * (a + n)) g0).
Proof.
  revert a sum; induction n as [|n IH]; intros a sum.
  - cbn [path_loop seq fold_left]; rewrite Nat.add_0_r; reflexivity.
  - cbn [path_loop seq fold_left].
    pose proof (simulate_path_generator (spot md) md (expiry o) steps
                  (advance (steps * a) g0)) as Hg.
    assert (Hp : path_at steps g0 a
                 = fst (simulate_path (spot md) md (expiry o) steps
                          (advance (steps * a) g0))) by reflexivity.
    rewrite Hp; clear Hp.
    destruct (simulate_path (spot md) md (expiry o) steps (advance (steps * a) g0))
      as [path g1].
    cbn [fst snd] in Hg |- *; subst g1.
    rewrite <- advance_add.
    replace (steps * a + steps)%nat with (steps * S a)%nat by lia.
    rewrite IH. f_equal. f_equal; lia.
Qed.

Lemma path_loop_from_start (steps : nat) (f : list D -> D) (g : RandomGenerator)
    (n : nat) (sum : D) :
  path_loop steps f n sum g
  = (fold_left (fun sum k => sum + f (path_at steps g k)) (seq 0 n) sum,
     advance (steps * n) g).
Proof.
  pose proof (path_loop_fold steps f g n 0 sum) as H.
  rewrite Nat.mul_0_r in H; exact H.
Qed.

Lemma asian_loop_path_loop (cfg : MonteCarloConfig) (avg : AveragingType) (nobs : nat)
    (n : nat) (sum : D) (g : RandomGenerator) :
  asian_loop cfg o avg nobs md n sum g
  = path_loop nobs (fun path => payoff o (calculate_average avg path)) n sum g.
Proof.
  revert sum g; induction n as [|n IH]; intros sum g; cbn [asian_loop path_loop];
    [reflexivity|].
  destruct (simulate_path (spot md) md (expiry o) nobs g) as [path g1]. apply IH.
Qed.

(** The payoff [price_barrier] takes from one path. *)
Definition barrier_path_payoff (bt : BarrierType) (level reb : D) (path : list D) : D :=
  let barrier_hit := existsb (is_knocked bt level) path in
  if is_knock_in bt then
    if barrier_hit then Option_payoff o (back path) else reb
  else
    if barrier_hit then reb else Option_payoff o (back path).

Lemma barrier_loop_path_loop (cfg : MonteCarloConfig) (bt : BarrierType) (level reb : D)
    (n : nat) (sum : D) (g : RandomGenerator) :
  barrier_loop cfg o bt level reb md n sum g
  = path_loop (num_timesteps cfg) (barrier_path_payoff bt level reb) n sum g.
Proof.
  revert sum g; induction n as [|n IH]; intros sum g; cbn [barrier_loop path_loop];
    [reflexivity|].
  destruct (simulate_path (spot md) md (expiry o) (num_timesteps cfg) g) as [path g1].
  apply IH.
Qed.

Lemma vanilla_loop_path_loop (cfg : MonteCarloConfig) (n : nat) (sum sum_sq : D)
    (g : RandomGenerator) :
  use_antithetic cfg = false ->
  fst (fst (vanilla_loop cfg o md n sum sum_sq g))
  = fst (path_loop (num_timesteps cfg) (fun path => payoff o (back path)) n sum g)
  /\ snd (vanilla_loop cfg o md n sum sum_sq g)
     = snd (path_loop (num_timesteps cfg) (fun path => payoff o (back path)) n sum g).
Proof.
  intros Ha; revert sum sum_sq g; induction n as [|n IH]; intros sum sum_sq g;
    cbn [vanilla_loop path_loop]; [split; reflexivity|].
  rewrite Ha.
  destruct (simulate_path (spot md) md (expiry o) (num_timesteps cfg) g) as [path g1].
  apply IH.
Qed.

End PathLoops.

(** ** Monte Carlo prices in exact arithmetic *)

Section MonteCarloReal.

Context {RS : RandomStream R}.
Local Open Scope R_scope.

Lemma Rfold_sum {A : Type} (f : A -> R) (l : list A) (acc : R) :
  fold_left (fun sum k => (sum + f k)%D) l acc = acc + Rsum (map f l).
Proof.
  revert acc; induction l as [|x l IH]; intros acc; simpl; [lra|].
  rewrite IH; lra.
Qed.

Lemma Rsum_map_le {A : Type} (f h : A -> R) (l : list A) :
  (forall k, In k l -> f k <= h k) -> Rsum (map f l) <= Rsum (map h l).
Proof.
  induction l as [|x l IH]; intros H; simpl; [lra|].
  pose proof (H x (or_introl eq_refl)).
  assert (Rsum (map f l) <= Rsum (map h l)) by (apply IH; intros; apply H; right; assumption).
  lra.
Qed.

Lemma Rsum_map_plus {A : Type} (f h : A -> R) (l : list A) :
  Rsum (map (fun k => f k + h k) l) = Rsum (map f l) + Rsum (map h l).
Proof. induction l as [|x l IH]; simpl; [lra|]. rewrite IH; lra. Qed.

Lemma Rsum_map_const {A : Type} (c : R) (l : list A) :
  Rsum (map (fun _ => c) l) = INR (List.length l) * c.
Proof.
  induction l as [|x l IH]; [simpl; lra|].
  change (List.length (x :: l)) with (S (List.length l)). rewrite S_INR.
  simpl; rewrite IH; lra.
Qed.

Lemma Rsum_map_ext {A : Type} (f h : A -> R) (l : list A) :
  (forall k, In k l -> f k = h k) -> Rsum (map f l) = Rsum (map h l).
Proof.
  intros H; f_equal; apply map_ext_in; exact H.
Qed.

Lemma Rinv_nonneg (x : R) : 0 <= x -> 0 <= / x.
Proof.
  intros [H| <-]; [apply Rlt_le, Rinv_0_lt_compat; exact H|].
  rewrite Rinv_0; lra.
Qed.

Lemma dnat_nonneg (n : nat) : 0 <= dnat (D := R) n.
Proof. unfold dnat; simpl. apply IZR_le; lia. Qed.

Lemma dnat_INR (n : nat) : dnat (D := R) n = INR n.
Proof. unfold dnat; simpl. symmetry; apply INR_IZR_INZ. Qed.

Lemma gbm_steps_positive (drift diffusion : R) (n : nat) (prev : R) (g : RandomGenerator) :
  0 < prev -> Forall (fun x => 0 < x) (fst (gbm_steps drift diffusion n prev g)).
Proof.
  revert prev g; induction n as [|n IH]; intros prev g Hp; cbn [gbm_steps].
  - constructor.
  - destruct (next_normal g) as [dW g1].
    assert (Hx : 0 < (prev * dexp (drift + diffusion * dW))%D).
    { simpl. apply Rmult_lt_0_compat; [exact Hp|apply exp_pos]. }
    specialize (IH _ g1 Hx).
    destruct (gbm_steps drift diffusion n _ g1) as [rest g2].
    cbn [fst] in *. constructor; assumption.
Qed.

(** X6: in exact arithmetic every price of a simulated geometric Brownian
    path is positive when the initial spot is. *)
Theorem simulate_path_positive (S0 : R) (md : MarketData R) (T : R) (num_steps : nat)
    (g : RandomGenerator) :
  0 < S0 -> Forall (fun x => 0 < x) (fst (simulate_path S0 md T num_steps g)).
Proof.
  intros H0. unfold simulate_path.
  match goal with
  | |- context [gbm_steps ?dr ?di num_steps S0 g] =>
      pose proof (gbm_steps_positive dr di num_steps g H0) as H;
      destruct (gbm_steps dr di num_steps S0 g) as [tl g']
  end.
  cbn [fst] in *. constructor; assumption.
Qed.

Lemma path_at_positive (o : Option R) (md : MarketData R) (steps : nat)
    (g : RandomGenerator) (k : nat) :
  0 < spot md -> Forall (fun x => 0 < x) (path_at o md steps g k).
Proof.
  intros H. unfold path_at.
  match goal with
  | |- context [simulate_path ?S0 md ?T steps ?g1] =>
      pose proof (gbm_steps_positive) as _;
      unfold simulate_path;
      match goal with
      | |- context [gbm_steps ?dr ?di steps S0 g1] =>
          pose proof (gbm_steps_positive dr di steps g1 H) as Hp;
          destruct (gbm_steps dr di steps S0 g1) as [tl g']
      end
  end.
  cbn [fst] in *. constructor; assumption.
Qed.

Lemma path_at_nonempty (o : Option R) (md : MarketData R) (steps : nat)
    (g : RandomGenerator) (k : nat) :
  exists tl, path_at o md steps g k = spot md :: tl.
Proof.
  unfold path_at, simulate_path.
  match goal with
  | |- context [gbm_steps ?dr ?di steps ?S0 ?g1] =>
      destruct (gbm_steps dr di steps S0 g1) as [tl g']
  end.
  exists tl; reflexivity.
Qed.

(** The Asian price as the discounted mean over the paths. *)
Lemma price_asian_R (cfg : MonteCarloConfig) (o : Option R) (avg : AveragingType)
    (nobs : nat) (md : MarketData R) (g : RandomGenerator) :
  fst (price_asian cfg o avg nobs md g)
  = exp (- rate md * expiry o)
    * (Rsum (map (fun k => payoff o (calculate_average avg (path_at o md nobs g k)))
                 (seq 0 (num_paths cfg)))
       / dnat (num_paths cfg)).
Proof.
  unfold price_asian.
  rewrite asian_loop_path_loop, path_loop_from_start, Rfold_sum.
  cbn [fst]. real_ops. f_equal. f_equal. lra.
Qed.

End MonteCarloReal.

(** ** Monte Carlo prices of Asian options in the range of [double] *)








Section MonteCarloRange.

Context {RS : RandomStream ext}.



End MonteCarloRange.

(** ** Barrier options in exact arithmetic *)

Section BarrierReal.

Context {RS : RandomStream R}.
Local Open Scope R_scope.

(** A barrier option as its constructor builds it. *)
Definition barrier (K T : R) (ty : OptionType) (bt : BarrierType) (level reb : R)
  : Option R :=
  {| strike := K; expiry := T; type := ty; style := EUROPEAN;
     product := Barrier bt level reb |}.

Lemma price_barrier_R (cfg : MonteCarloConfig) (o : Option R) (bt : BarrierType)
    (level reb : R) (md : MarketData R) (g : RandomGenerator) :
  fst (price_barrier cfg o bt level reb md g)
  = exp (- rate md * expiry o)
    * (Rsum (map (fun k => barrier_path_payoff o bt level reb
                             (path_at o md (num_timesteps cfg) g k))
                 (seq 0 (num_paths cfg)))
       / dnat (num_paths cfg)).
Proof.
  unfold price_barrier.
  rewrite barrier_loop_path_loop, path_loop_from_start, Rfold_sum.
  cbn [fst]. real_ops. f_equal. f_equal. lra.
Qed.

Lemma barrier_price_Ok (cfg : MonteCarloConfig) (K T : R) (ty : OptionType)
    (bt : BarrierType) (level reb : R) (md : MarketData R) (g : RandomGenerator) :
  fst (MonteCarloModel_price cfg (barrier K T ty bt level reb) md g)
  = Ok (fst (price_barrier cfg (barrier K T ty bt level reb) bt level reb md g)).
Proof.
  unfold MonteCarloModel_price; cbn [style barrier OptionStyle_eqb negb product].
  destruct (price_barrier _ _ _ _ _ _ _); reflexivity.
Qed.

(** The plain European price without antithetic variates, as the
    discounted mean over the paths. *)
Lemma vanilla_price_R (cfg : MonteCarloConfig) (K T : R) (ty : OptionType)
    (md : MarketData R) (g : RandomGenerator) :
  use_antithetic cfg = false ->
  fst (MonteCarloModel_price cfg (vanilla K T ty EUROPEAN) md g)
  = Ok (exp (- rate md * T)
        * (Rsum (map (fun k => payoff (vanilla K T ty EUROPEAN)
                                 (back (path_at (vanilla K T ty EUROPEAN) md
                                          (num_timesteps cfg) g k)))
                     (seq 0 (num_paths cfg)))
           / dnat (num_paths cfg))).
Proof.
  intros Ha.
  unfold MonteCarloModel_price; cbn [style vanilla OptionStyle_eqb negb product].
  fold (vanilla K T ty EUROPEAN).
  unfold actual_paths, total_paths; rewrite Ha.
  destruct (vanilla_loop_path_loop (vanilla K T ty EUROPEAN) md cfg (num_paths cfg)
              d0 d0 g Ha) as [H1 _].
  destruct (vanilla_loop cfg (vanilla K T ty EUROPEAN) md (num_paths cfg) d0 d0 g)
    as [[sum sum_sq] g'].
  cbn [fst] in H1 |- *. rewrite H1, path_loop_from_start, Rfold_sum.
  cbn [fst expiry vanilla]. real_ops. do 3 f_equal. lra.
Qed.

Lemma barrier_in_out_path (o : Option R) (up : bool) (level reb : R) (path : list R) :
  barrier_path_payoff o (if up then UP_AND_IN else DOWN_AND_IN) level reb path
  + barrier_path_payoff o (if up then UP_AND_OUT else DOWN_AND_OUT) level reb path
  = Option_payoff o (back path) + reb.
Proof.
  unfold barrier_path_payoff.
  destruct up; unfold is_knocked, is_knock_in;
    match goal with |- context [existsb ?f path] => destruct (existsb f path) end; lra.
Qed.

(** X8: in exact arithmetic, without antithetic variates and from the same
    generator, the Monte Carlo prices of a knock-in and a knock-out barrier
    option with the same barrier, rebate and terms add up to the plain
    European price plus the discounted rebate. *)
Theorem barrier_in_out_parity (cfg : MonteCarloConfig) (K T : R) (ty : OptionType)
    (up : bool) (level reb : R) (md : MarketData R) (g : RandomGenerator) :
  use_antithetic cfg = false ->
  (0 < num_paths cfg)%nat ->
  exists knock_in knock_out plain,
    fst (MonteCarloModel_price cfg
           (barrier K T ty (if up then UP_AND_IN else DOWN_AND_IN) level reb) md g)
    = Ok knock_in
    /\ fst (MonteCarloModel_price cfg
              (barrier K T ty (if up then UP_AND_OUT else DOWN_AND_OUT) level reb) md g)
       = Ok knock_out
    /\ fst (MonteCarloModel_price cfg (vanilla K T ty EUROPEAN) md g) = Ok plain
    /\ knock_in + knock_out = plain + exp (- rate md * T) * reb.
Proof.
  intros Ha Hn.
  do 3 eexists. split; [apply barrier_price_Ok|]. split; [apply barrier_price_Ok|].
  split; [apply vanilla_price_R; exact Ha|].
  rewrite !price_barrier_R. cbn [expiry barrier].
  set (n := num_paths cfg) in *.
  assert (Hn0 : dnat (D := R) n <> 0).
  { rewrite dnat_INR. apply not_0_INR; lia. }
  set (disc := exp (- rate md * T)).
  rewrite <- Rmult_plus_distr_l. unfold Rdiv.
  rewrite <- Rmult_plus_distr_r, <- Rsum_map_plus.
  erewrite Rsum_map_ext.
  2:{ intros k _.
      change (path_at (barrier K T ty (if up then UP_AND_OUT else DOWN_AND_OUT) level reb)
                md (num_timesteps cfg) g k)
        with (path_at (barrier K T ty (if up then UP_AND_IN else DOWN_AND_IN) level reb)
                md (num_timesteps cfg) g k).
      change (barrier_path_payoff
                (barrier K T ty (if up then UP_AND_OUT else DOWN_AND_OUT) level reb))
        with (barrier_path_payoff
                (barrier K T ty (if up then UP_AND_IN else DOWN_AND_IN) level reb)).
      apply barrier_in_out_path. }
  rewrite Rsum_map_plus, Rsum_map_const, length_seq, <- dnat_INR.
  fold n.
  replace (Rsum (map (fun k => Option_payoff
                                 (barrier K T ty (if up then UP_AND_IN else DOWN_AND_IN)
                                    level reb)
                                 (back (path_at (barrier K T ty
                                                   (if up then UP_AND_IN else DOWN_AND_IN)
                                                   level reb)
                                          md (num_timesteps cfg) g k)))
                     (seq 0 n)))
    with (Rsum (map (fun k => payoff (vanilla K T ty EUROPEAN)
                                (back (path_at (vanilla K T ty EUROPEAN) md
                                         (num_timesteps cfg) g k)))
                    (seq 0 n))) by reflexivity.
  field. exact Hn0.
Qed.

(** X9: when the spot already lies beyond the barrier, every path counts
    as knocked at its first entry: in exact arithmetic the knock-out price
    is the discounted rebate, whatever the draws. *)
Theorem barrier_breached_at_start (cfg : MonteCarloConfig) (K T : R) (ty : OptionType)
    (bt : BarrierType) (level reb : R) (md : MarketData R) (g : RandomGenerator) :
  is_knock_in bt = false ->
  is_knocked bt level (spot md) = true ->
  (0 < num_paths cfg)%nat ->
  fst (MonteCarloModel_price cfg (barrier K T ty bt level reb) md g)
  = Ok (exp (- rate md * T) * reb).
Proof.
  intros Hout Hk Hn.
  rewrite barrier_price_Ok, price_barrier_R. cbn [expiry barrier].
  assert (Hn0 : dnat (D := R) (num_paths cfg) <> 0).
  { rewrite dnat_INR. apply not_0_INR; lia. }
  erewrite Rsum_map_ext.
  2:{ intros k _.
      destruct (path_at_nonempty (barrier K T ty bt level reb) md (num_timesteps cfg) g k)
        as [tl Htl].
      rewrite Htl. unfold barrier_path_payoff. rewrite Hout.
      cbn [existsb]. rewrite Hk. cbn [orb]. reflexivity. }
  rewrite Rsum_map_const, length_seq, <- dnat_INR.
  f_equal. field. exact Hn0.
Qed.

End BarrierReal.

Lemma simulate_path_recurrence_witness :
  (1 <= 1 <= 2)%nat
  /\ List.length (fst (simulate_path (RS := zero_stream) 100 sample_market 1 2
                         (RandomGenerator_new 12345))) = 3%nat.
Proof.
  assert (H : (1 <= 1 <= 2)%nat) by lia.
  split; [exact H|].
  exact (proj1 (simulate_path_recurrence (RS := zero_stream) 100 sample_market 1
                  (RandomGenerator_new 12345) H)).
Defined.

Lemma simulate_path_positive_witness :
  0 < 100
  /\ Forall (fun x => 0 < x)
       (fst (simulate_path (RS := zero_stream) 100 sample_market 1 2
               (RandomGenerator_new 12345))).
Proof.
  assert (H : 0 < 100) by lra.
  split; [exact H|].
  exact (simulate_path_positive (RS := zero_stream) sample_market 1 2
           (RandomGenerator_new 12345) H).
Defined.













Lemma sample_config_paths : (0 < num_paths (sample_config false))%nat.
Proof. unfold sample_config; cbn [num_paths]. apply Nat.lt_0_succ. Qed.

Lemma barrier_parity_witness :
  use_antithetic (sample_config false) = false
  /\ (0 < num_paths (sample_config false))%nat
  /\ exists knock_in knock_out plain,
       fst (MonteCarloModel_price (RS := zero_stream) (sample_config false)
              (barrier 100 1 CALL UP_AND_IN 120 0) sample_market (RandomGenerator_new 12345))
       = Ok knock_in
       /\ fst (MonteCarloModel_price (RS := zero_stream) (sample_config false)
                 (barrier 100 1 CALL UP_AND_OUT 120 0) sample_market
                 (RandomGenerator_new 12345))
          = Ok knock_out
       /\ fst (MonteCarloModel_price (RS := zero_stream) (sample_config false)
                 (vanilla 100 1 CALL EUROPEAN) sample_market (RandomGenerator_new 12345))
          = Ok plain
       /\ knock_in + knock_out = plain + exp (- rate sample_market * 1) * 0.
Proof.
  split; [reflexivity|]. split; [exact sample_config_paths|].
  exact (barrier_in_out_parity (RS := zero_stream) (sample_config false) 100 1 CALL true
           120 0 sample_market (RandomGenerator_new 12345) eq_refl sample_config_paths).
Defined.

Lemma sample_barrier_breached : is_knocked UP_AND_OUT 90 (spot sample_market) = true.
Proof. unfold is_knocked, dgeb; simpl. apply Rleb_le; lra. Qed.

Lemma barrier_breached_witness :
  is_knock_in UP_AND_OUT = false
  /\ is_knocked UP_AND_OUT 90 (spot sample_market) = true
  /\ (0 < num_paths (sample_config false))%nat
  /\ fst (MonteCarloModel_price (RS := zero_stream) (sample_config false)
            (barrier 100 1 CALL UP_AND_OUT 90 5) sample_market (RandomGenerator_new 12345))
     = Ok (exp (- rate sample_market * 1) * 5).
Proof.
  split; [reflexivity|]. split; [exact sample_barrier_breached|].
  split; [exact sample_config_paths|].
  exact (barrier_breached_at_start (RS := zero_stream) (sample_config false) 100 1 CALL
           UP_AND_OUT 90 5 sample_market (RandomGenerator_new 12345) eq_refl
           sample_barrier_breached sample_config_paths).
Defined.

(** ** LSMC path generation *)

Section GeneratePaths.

Context {D : Type} {AR : Arith D} {CA : ComplexArith D} {RS : RandomStream D}.
Local Open Scope D_scope.

Lemma map_vget_tail (d x : D) (tl : list D) :
  map (fun j => vget d (x :: tl) j) (seq 1 (List.length tl)) = tl.
Proof.
  rewrite <- seq_shift, map_map. unfold vget; cbn [nth].
  induction tl as [|y tl IH]; [reflexivity|].
  cbn [List.length seq map nth]. f_equal.
  rewrite <- seq_shift, map_map. cbn [nth]. exact IH.
Qed.

Lemma vget_repeat {A : Type} (d x : A) (n i : nat) :
  (i < n)%nat -> vget d (repeat x n) i = x.
Proof.
  unfold vget; revert i; induction n as [|n IH]; intros [|i] H; simpl; try lia; auto.
  apply IH; lia.
Qed.

Variables (cfg : LSMCConfig) (S0 : D) (md : MarketData D) (T : D).

Let steps := lsmc_num_timesteps cfg.
Let n := lsmc_num_paths cfg.
Let dt := T / dnat steps.
Let drift := (rate md - dividend md - dhalf * volatility md * volatility md) * dt.
Let diffusion := volatility md * dsqrt dt.
Let half := if lsmc_use_antithetic cfg then (n / 2)%nat else n.

(** The path the generator yields for row [i]. *)
Definition lsmc_path (g : RandomGenerator) (i : nat) : list D :=
  S0 :: fst (gbm_steps drift diffusion steps S0 (advance (steps * i) g)).

Lemma lsmc_path_length (g : RandomGenerator) (i : nat) :
  List.length (lsmc_path g i) = (steps + 1)%nat.
Proof.
  unfold lsmc_path. cbn [List.length].
  rewrite (proj1 (gbm_steps_recurrence drift diffusion steps S0 _)). lia.
Qed.

(** The rows after the first [m] iterations of the path loop. *)
Definition generated (g : RandomGenerator) (m : nat) (paths : list (list D)) : Prop :=
  List.length paths = n
  /\ (forall i, (i < m)%nat -> vget [] paths i = lsmc_path g i)
  /\ (forall i, (i < m)%nat -> lsmc_use_antithetic cfg = true ->
                vget [] paths (i + half) = lsmc_path g i)
  /\ (forall j, (j < n)%nat -> (m <= j)%nat ->
                (lsmc_use_antithetic cfg = true -> (j < half \/ m + half <= j)%nat) ->
                vget [] paths j = repeat d0 (steps + 1)).

Lemma generate_one_eq (paths : list (list D)) (g : RandomGenerator) (i : nat) :
  generate_one cfg S0 drift diffusion half (paths, g) i
  = (let row := S0 :: fst (gbm_steps drift diffusion steps S0 g) in
     if lsmc_use_antithetic cfg && (i + half <? n)%nat then
       vset (vset paths i row) (i + half)
            (S0 :: map (fun j => vget d0 (vget [] (vset paths i row) i) j) (seq 1 steps))
     else vset paths i row,
     snd (gbm_steps drift diffusion steps S0 g)).
Proof.
  unfold generate_one. fold steps n.
  destruct (gbm_steps drift diffusion steps S0 g) as [tl g']. reflexivity.
Qed.

Lemma generate_loop (g : RandomGenerator) (m : nat) :
  (m <= half)%nat ->
  generated g m
    (fst (fold_left (generate_one cfg S0 drift diffusion half) (seq 0 m)
            (repeat (repeat d0 (steps + 1)) n, g)))
  /\ snd (fold_left (generate_one cfg S0 drift diffusion half) (seq 0 m)
            (repeat (repeat d0 (steps + 1)) n, g))
     = advance (steps * m) g.
Proof.
  assert (Hhalf : lsmc_use_antithetic cfg = true -> (half + half <= n)%nat).
  { intros Ha. unfold half; rewrite Ha.
    pose proof (Nat.div_mod_eq n 2). lia. }
  assert (Hhalf' : (half <= n)%nat).
  { unfold half. destruct (lsmc_use_antithetic cfg); [|lia].
    apply Nat.Div0.div_le_upper_bound; lia. }
  induction m as [|m IH]; intros Hm.
  - cbn [seq fold_left fst snd]. rewrite Nat.mul_0_r. split; [|reflexivity].
    split; [apply repeat_length|].
    split; [intros; lia|]. split; [intros; lia|].
    intros j Hj _ _. apply vget_repeat; exact Hj.
  - destruct IH as [(Hlen & Hrow & Hcopy & Hzero) Hg]; [lia|].
    rewrite seq_S, fold_left_app. cbn [fold_left Nat.add].
    destruct (fold_left _ (seq 0 m) _) as [paths g1].
    cbn [fst snd] in *. subst g1.
    rewrite generate_one_eq. cbv zeta. cbn [fst snd].
    pose proof (gbm_steps_generator drift diffusion steps S0 (advance (steps * m) g)) as Hadv.
    pose proof (gbm_steps_recurrence drift diffusion steps S0 (advance (steps * m) g))
      as [Hl _].
    assert (Hpath : lsmc_path g m
                    = S0 :: fst (gbm_steps drift diffusion steps S0
                                   (advance (steps * m) g))) by reflexivity.
    destruct (gbm_steps drift diffusion steps S0 (advance (steps * m) g)) as [tl g2].
    cbn [fst snd] in *. subst g2.
    assert (Hcopyrow :
              S0 :: map (fun j => vget d0 (vget [] (vset paths m (S0 :: tl)) m) j)
                        (seq 1 steps) = S0 :: tl).
    { rewrite vget_vset_same by lia. rewrite <- Hl at 1. rewrite map_vget_tail.
      reflexivity. }
    rewrite Hcopyrow.
    split.
    2:{ rewrite <- advance_add; f_equal; lia. }
    destruct (Bool.bool_dec (lsmc_use_antithetic cfg) true) as [Ha|Ha];
      [|apply not_true_is_false in Ha]; rewrite Ha; cbn [andb].
    + specialize (Hhalf Ha).
      assert (Hlt : (m + half <? n)%nat = true) by (apply Nat.ltb_lt; lia).
      rewrite Hlt.
      split; [rewrite !length_vset; exact Hlen|]. split; [|split].
      * intros i Hi. rewrite vget_vset_other by lia.
        destruct (Nat.eq_dec i m) as [->|Hne].
        -- rewrite vget_vset_same by lia. symmetry; exact Hpath.
        -- rewrite vget_vset_other by lia. apply Hrow; lia.
      * intros i Hi _.
        destruct (Nat.eq_dec i m) as [->|Hne].
        -- rewrite vget_vset_same by (rewrite length_vset; lia). symmetry; exact Hpath.
        -- rewrite !vget_vset_other by lia. apply Hcopy; [lia|exact Ha].
      * intros j Hj Hmj Hrange. specialize (Hrange Ha).
        rewrite !vget_vset_other by lia.
        apply Hzero; [lia|lia|]. intros _; lia.
    + split; [rewrite length_vset; exact Hlen|]. split; [|split].
      * intros i Hi.
        destruct (Nat.eq_dec i m) as [->|Hne].
        -- rewrite vget_vset_same by lia. symmetry; exact Hpath.
        -- rewrite vget_vset_other by lia. apply Hrow; lia.
      * intros i Hi Hc; rewrite Ha in Hc; discriminate Hc.
      * intros j Hj Hmj _.
        rewrite vget_vset_other by lia.
        apply Hzero; [lia|lia|]. intros Hc; rewrite Ha in Hc; discriminate Hc.
Qed.

(** X10: with [use_antithetic] LSMC simulates [num_paths / 2] paths, row
    [i] from draws [i * num_timesteps] onwards of the generator, and stores
    in row [i + num_paths / 2] an identical copy of row [i], not a path of
    negated draws; when [num_paths] is odd the last row is never written
    and stays all zero. *)
Theorem generate_paths_antithetic_copies (g : RandomGenerator) (i : nat) :
  lsmc_use_antithetic cfg = true ->
  (i < n / 2)%nat ->
  let paths := fst (generate_paths cfg S0 md T g) in
  List.length paths = n
  /\ vget [] paths i = lsmc_path g i
  /\ vget [] paths (i + n / 2) = vget [] paths i
  /\ (Nat.odd n = true -> vget [] paths (n - 1) = repeat d0 (steps + 1))
  /\ snd (generate_paths cfg S0 md T g) = advance (steps * (n / 2)) g.
Proof.
  intros Ha Hi; cbv zeta.
  unfold generate_paths. fold steps n dt drift diffusion half.
  assert (Hh : half = (n / 2)%nat) by (unfold half; rewrite Ha; reflexivity).
  destruct (generate_loop g (m := half) (Nat.le_refl half))
    as [(Hlen & Hrow & Hcopy & Hzero) Hg].
  rewrite Hh in *.
  split; [exact Hlen|]. split; [apply Hrow; exact Hi|].
  split; [rewrite Hcopy, Hrow by (auto; lia); reflexivity|].
  split; [|exact Hg].
  intros Hodd.
  pose proof (Nat.div_mod_eq n 2) as Hdm.
  assert (Hmod : (n mod 2 = 1)%nat).
  { rewrite <- Nat.bit0_mod, Nat.bit0_odd, Hodd; reflexivity. }
  apply Hzero; [lia|lia|]. intros _; right; lia.
Qed.

End GeneratePaths.

(** ** LSMC: one cash flow per path *)

Section CashFlows.

Context {D : Type} {AR : Arith D} {CA : ComplexArith D} {RS : RandomStream D}.
Local Open Scope D_scope.

Variables (cfg : LSMCConfig) (o : Option D) (paths : list (list D)).

Let steps := lsmc_num_timesteps cfg.

Lemma vget_beyond {A : Type} (d : A) (v : list A) (i : nat) :
  (List.length v <= i)%nat -> vget d v i = d.
Proof. intros H; unfold vget; apply nth_overflow; exact H. Qed.

Lemma vset_beyond {A : Type} (v : list A) (i : nat) (x : A) :
  (List.length v <= i)%nat -> vset v i x = v.
Proof.
  revert i; induction v as [|h t IH]; intros [|i] H; simpl in *; try lia; auto.
  f_equal; apply IH; lia.
Qed.

(** A row with zeros before index [b] and at most one entry that is not the
    initial zero. *)
Definition row_ok (b : nat) (row : list D) : Prop :=
  List.length row = (steps + 1)%nat
  /\ (forall k, (k < b)%nat -> vget d0 row k = d0)
  /\ exists j, forall k, k <> j -> vget d0 row k = d0.

Definition rows_ok (b : nat) (cash_flows : list (list D)) : Prop :=
  forall i, (i < List.length cash_flows)%nat -> row_ok b (vget [] cash_flows i).

Lemma row_ok_weaken (b t : nat) (row : list D) :
  (t <= b)%nat -> row_ok b row -> row_ok t row.
Proof.
  intros Ht (Hl & Hz & Hj); split; [exact Hl|]. split; [|exact Hj].
  intros k Hk; apply Hz; lia.
Qed.

Lemma clear_entries (l : list nat) (row : list D) (k : nat) :
  List.length (fold_left (fun row j => vset row j d0) l row) = List.length row
  /\ vget d0 (fold_left (fun row j => vset row j d0) l row) k
     = (if in_dec Nat.eq_dec k l then d0 else vget d0 row k).
Proof.
  revert row; induction l as [|j l IH]; intros row; cbn [fold_left].
  - split; reflexivity.
  - destruct (IH (vset row j d0)) as [Hl Hv]. rewrite Hl, Hv, length_vset.
    split; [reflexivity|].
    destruct (in_dec Nat.eq_dec k l) as [Hin|Hin];
      destruct (in_dec Nat.eq_dec k (j :: l)) as [Hin'|Hin']; try reflexivity.
    + exfalso; apply Hin'; right; exact Hin.
    + destruct Hin' as [->|Hin']; [|contradiction].
      destruct (Nat.lt_ge_cases k (List.length row)) as [Hlt|Hge].
      * apply vget_vset_same; exact Hlt.
      * rewrite vset_beyond by exact Hge. apply vget_beyond; exact Hge.
    + apply vget_vset_other. intros ->; apply Hin'; left; reflexivity.
Qed.

Lemma exercised_row_ok (t : nat) (row : list D) (x : D) :
  (t <= steps)%nat -> row_ok t row ->
  row_ok t (fold_left (fun row j => vset row j d0) (seq (t + 1) (steps - t))
              (vset row t x)).
Proof.
  intros Ht (Hl & Hz & _).
  split; [|split].
  - rewrite (proj1 (clear_entries _ _ 0)), length_vset; exact Hl.
  - intros k Hk. rewrite (proj2 (clear_entries _ _ k)).
    destruct (in_dec _ _ _); [reflexivity|].
    rewrite vget_vset_other by lia. apply Hz; exact Hk.
  - exists t. intros k Hk. rewrite (proj2 (clear_entries _ _ k)).
    destruct (in_dec Nat.eq_dec k (seq (t + 1) (steps - t))) as [Hin|Hin]; [reflexivity|].
    rewrite vget_vset_other by lia.
    destruct (Nat.lt_ge_cases k t) as [Hlt|Hge]; [apply Hz; exact Hlt|].
    destruct (Nat.lt_ge_cases k (steps + 1)) as [Hlt'|Hge'].
    + exfalso; apply Hin. apply in_seq; lia.
    + apply vget_beyond; lia.
Qed.

Lemma exercise_update_ok (coeffs : list D) (t : nat) (cash_flows : list (list D))
    (i : nat) :
  (t <= steps)%nat -> rows_ok t cash_flows ->
  rows_ok t (exercise_update cfg o paths coeffs t cash_flows i).
Proof.
  intros Ht H. unfold exercise_update. fold steps.
  destruct (dgtb _ _); [|exact H].
  intros k Hk. rewrite length_vset in Hk.
  destruct (Nat.eq_dec k i) as [->|Hne].
  - rewrite vget_vset_same by exact Hk.
    apply exercised_row_ok; [exact Ht|apply H; exact Hk].
  - rewrite vget_vset_other by lia. apply H; exact Hk.
Qed.

Lemma exercise_updates_ok (coeffs : list D) (t : nat) (itm : list nat)
    (cash_flows : list (list D)) :
  (t <= steps)%nat -> rows_ok t cash_flows ->
  rows_ok t (fold_left (exercise_update cfg o paths coeffs t) itm cash_flows).
Proof.
  intros Ht; revert cash_flows; induction itm as [|i itm IH]; intros cash_flows H;
    cbn [fold_left]; [exact H|].
  apply IH, exercise_update_ok; assumption.
Qed.

Lemma lsmc_step_ok (r dt : D) (t : nat) (cash_flows cash_flows' : list (list D)) :
  (t <= steps)%nat -> rows_ok t cash_flows ->
  lsmc_step cfg o r dt paths cash_flows t = Ok cash_flows' ->
  rows_ok t cash_flows'.
Proof.
  intros Ht H. unfold lsmc_step.
  destruct (_ <=? _)%Z.
  - destruct (regression _ _ _) as [coeffs|e]; cbn [rbind]; [|discriminate].
    intros E; injection E as <-. apply exercise_updates_ok; assumption.
  - intros E; injection E as <-; exact H.
Qed.

Lemma backward_induction_ok (r dt : D) (m : nat) (cash_flows cash_flows' : list (list D)) :
  (m <= steps)%nat -> rows_ok m cash_flows ->
  backward_induction cfg o r dt paths (rev (seq 1 m)) cash_flows = Ok cash_flows' ->
  rows_ok 0 cash_flows'.
Proof.
  revert cash_flows; induction m as [|m IH]; intros cash_flows Hm H.
  - cbn [seq rev backward_induction]. intros E; injection E as <-; exact H.
  - rewrite seq_S, rev_app_distr. cbn [rev app backward_induction Nat.add].
    destruct (lsmc_step cfg o r dt paths cash_flows (S m)) as [cf1|e] eqn:E1;
      cbn [rbind]; [|discriminate].
    apply IH; [lia|].
    intros i Hi. apply (row_ok_weaken (b := S m)); [lia|].
    apply (lsmc_step_ok r dt (t := S m) Hm H E1); exact Hi.
Qed.

Lemma zero_row_ok (b : nat) : row_ok b (repeat d0 (steps + 1)).
Proof.
  split; [apply repeat_length|]. split.
  - intros k _. destruct (Nat.lt_ge_cases k (steps + 1)).
    + apply vget_repeat; assumption.
    + apply vget_beyond; rewrite repeat_length; assumption.
  - exists 0%nat. intros k _. destruct (Nat.lt_ge_cases k (steps + 1)).
    + apply vget_repeat; assumption.
    + apply vget_beyond; rewrite repeat_length; assumption.
Qed.

Lemma terminal_row_ok (row : list D) (x : D) :
  row_ok steps row -> row_ok steps (vset row steps x).
Proof.
  intros (Hl & Hz & _). split; [rewrite length_vset; exact Hl|]. split.
  - intros k Hk. rewrite vget_vset_other by lia. apply Hz; exact Hk.
  - exists steps. intros k Hk. rewrite vget_vset_other by lia.
    destruct (Nat.lt_ge_cases k steps) as [Hlt|Hge]; [apply Hz; exact Hlt|].
    apply vget_beyond; lia.
Qed.

Lemma initial_cash_flows_ok : rows_ok steps (initial_cash_flows cfg o paths).
Proof.
  unfold initial_cash_flows. fold steps.
  assert (H0 : rows_ok steps (repeat (repeat d0 (steps + 1)) (lsmc_num_paths cfg))).
  { intros i Hi. rewrite repeat_length in Hi. rewrite vget_repeat by exact Hi.
    apply zero_row_ok. }
  revert H0. generalize (repeat (repeat d0 (steps + 1)) (lsmc_num_paths cfg)).
  induction (seq 0 (lsmc_num_paths cfg)) as [|i l IH]; intros cf H; cbn [fold_left];
    [exact H|].
  apply IH. intros k Hk. rewrite length_vset in Hk.
  destruct (Nat.eq_dec k i) as [->|Hne].
  - rewrite vget_vset_same by exact Hk. apply terminal_row_ok, H; exact Hk.
  - rewrite vget_vset_other by lia. apply H; exact Hk.
Qed.

(** X11: whatever the regressions return, when the LSMC backward induction
    completes every path carries at most one cash flow: all entries of its
    row but at most one are the initial zero, so a path is exercised at
    most once. *)
Theorem lsmc_single_cash_flow (r dt : D) (cash_flows : list (list D)) (i : nat) :
  backward_induction cfg o r dt paths (lsmc_steps cfg) (initial_cash_flows cfg o paths)
  = Ok cash_flows ->
  (i < List.length cash_flows)%nat ->
  exists j, forall k, k <> j -> at2 cash_flows i k = d0.
Proof.
  intros H Hi. unfold lsmc_steps in H. fold steps in H.
  pose proof initial_cash_flows_ok as H0.
  assert (H1 : rows_ok (steps - 1) (initial_cash_flows cfg o paths)).
  { intros k Hk. apply (row_ok_weaken (b := steps)); [lia|apply H0; exact Hk]. }
  pose proof (backward_induction_ok r dt (m := steps - 1) ltac:(lia) H1 H) as H2.
  destruct (H2 i Hi) as (_ & _ & Hj). exact Hj.
Qed.

End CashFlows.

(** ** LSMC on concrete inputs *)

Definition antithetic_lsmc : LSMCConfig :=
  {| lsmc_num_paths := 3; lsmc_num_timesteps := 2; lsmc_seed := 12345;
     lsmc_use_antithetic := true; polynomial_degree := 3 |}.

Lemma generate_paths_antithetic_witness :
  lsmc_use_antithetic antithetic_lsmc = true
  /\ (0 < lsmc_num_paths antithetic_lsmc / 2)%nat
  /\ vget [] (fst (generate_paths (RS := zero_stream) antithetic_lsmc 100 sample_market 1
                     (RandomGenerator_new 12345)))
       (0 + lsmc_num_paths antithetic_lsmc / 2)
     = vget [] (fst (generate_paths (RS := zero_stream) antithetic_lsmc 100 sample_market 1
                       (RandomGenerator_new 12345))) 0.
Proof.
  assert (H1 : lsmc_use_antithetic antithetic_lsmc = true) by reflexivity.
  assert (H2 : (0 < lsmc_num_paths antithetic_lsmc / 2)%nat) by (cbn; lia).
  split; [exact H1|]. split; [exact H2|].
  exact (proj1 (proj2 (proj2
           (generate_paths_antithetic_copies (RS := zero_stream) antithetic_lsmc 100
              sample_market 1 (RandomGenerator_new 12345) H1 H2)))).
Defined.

Ltac compare_reals :=
  unfold Rabs; repeat (destruct (Rcase_abs _)); lra.

Ltac decide_Rltb :=
  match goal with
  | |- context [Rltb ?a ?b] =>
      first [rewrite (@Rltb_lt a b) by compare_reals
            |rewrite (@Rltb_ge a b) by compare_reals]
  end.

Ltac reals_eq := repeat (apply (f_equal2 (@cons R)); [lra|]); reflexivity.

(** One regression and one exercise: two paths of two steps under a put
    struck at 1, regressed on the single basis function. *)
Definition exercise_lsmc : LSMCConfig :=
  {| lsmc_num_paths := 2; lsmc_num_timesteps := 2; lsmc_seed := 12345;
     lsmc_use_antithetic := false; polynomial_degree := 0 |}.

Definition exercise_paths : list (list R) := [[1; 1 / 4; 1 / 2]; [1; 2; 3]].

Ltac lsmc_eval :=
  cbv beta iota zeta
      delta [initial_cash_flows itm_indices future_cash_flow exercise_update
             evaluate_polynomial basis_functions
             exercise_lsmc exercise_paths vanilla
             lsmc_num_paths lsmc_num_timesteps polynomial_degree
             filter find map fold_left seq rev app repeat List.length
             Nat.add Nat.sub Nat.mul Nat.eqb
             at2 vget vset nth payoff Option_payoff product type strike
             dmax dgtb dltb dadd dsub dmul ddiv dneg dexp R_arith d0 d1 d2 dZ
             Z.of_nat Z.sub Z.add Z.opp Z.leb Z.compare Z.to_nat Z.pos_sub
             Pos.of_succ_nat Pos.succ Pos.add Pos.compare Pos.compare_cont Pos.to_nat
             Pos.iter_op Pos.pred_double Z.succ_double Z.pred_double Z.double
             regression solve_linear_system forward_elimination find_pivot swap_rows
             eliminate_column back_substitution rbind Matrix_new mget mset
             rows_ cols_ data_ fst snd negb orb dabs singular_eps].

Ltac rows_eq := repeat (apply (f_equal2 (@cons (list R))); [reals_eq|]); reflexivity.

Lemma exercise_initial_cash_flows :
  initial_cash_flows exercise_lsmc (vanilla 1 1 PUT AMERICAN) exercise_paths
  = [[0; 0; 1 / 2]; [0; 0; 0]].
Proof.
  lsmc_eval. repeat decide_Rltb. rows_eq.
Qed.

Lemma exercise_itm_indices :
  itm_indices exercise_lsmc (vanilla 1 1 PUT AMERICAN) exercise_paths 1 = [0%nat].
Proof.
  lsmc_eval. repeat decide_Rltb. reflexivity.
Qed.

Lemma exercise_future_cash_flow :
  future_cash_flow exercise_lsmc (5 / 100) (1 / 2) [[0; 0; 1 / 2]; [0; 0; 0]] 0 1
  = 1 / 2 * exp (- (5 / 100) * (1 / 2) * 1).
Proof.
  lsmc_eval. repeat decide_Rltb. reflexivity.
Qed.


Lemma exp_eighth : 7 / 8 <= exp (- (1 / 4) / 2).
Proof.
  pose proof (exp_ineq1_le (- (1 / 4) / 2)). lra.
Qed.

Lemma exercise_regression (y : R) :
  regression [1 / 4] [y] 0 = Ok [y / exp (- (1 / 4) / 2)].
Proof.
  pose proof exp_eighth as He.
  lsmc_eval. set (e := exp (- (1 / 4) / 2)) in *.
  assert (Hee : 49 / 64 <= e * e) by nra.
  decide_Rltb. cbv beta iota.
  apply f_equal. apply (f_equal2 (@cons R)); [|reflexivity].
  field. lra.
Qed.

Lemma exercise_decision (y : R) :
  y < 3 / 4 ->
  exercise_update exercise_lsmc (vanilla 1 1 PUT AMERICAN) exercise_paths
    [y / exp (- (1 / 4) / 2)] 1 [[0; 0; 1 / 2]; [0; 0; 0]] 0
  = [[0; 3 / 4; 0]; [0; 0; 0]].
Proof.
  intros Hy. pose proof exp_eighth as He.
  lsmc_eval. set (e := exp (- (1 / 4) / 2)) in *.
  replace (0 + y / e * e) with y by (field; lra).
  repeat decide_Rltb. rows_eq.
Qed.

Lemma exercise_run :
  backward_induction exercise_lsmc (vanilla 1 1 PUT AMERICAN) (5 / 100) (1 / 2)
    exercise_paths (lsmc_steps exercise_lsmc)
    (initial_cash_flows exercise_lsmc (vanilla 1 1 PUT AMERICAN) exercise_paths)
  = Ok [[0; 3 / 4; 0]; [0; 0; 0]].
Proof.
  rewrite exercise_initial_cash_flows.
  change (lsmc_steps exercise_lsmc) with [1%nat].
  cbn [backward_induction]. unfold lsmc_step.
  rewrite exercise_itm_indices. cbn [map List.length].
  change (regression_threshold exercise_lsmc) with 1%Z.
  change (1 <=? Z.of_nat 1)%Z with true. cbv iota.
  rewrite exercise_future_cash_flow.
  change (at2 exercise_paths 0 1) with (1 / 4).
  change (polynomial_degree exercise_lsmc) with 0%Z.
  rewrite exercise_regression. cbn [rbind fold_left].
  rewrite exercise_decision; [reflexivity|].
  assert (exp (- (5 / 100) * (1 / 2) * 1) < 1).
  { apply Rlt_le_trans with (exp 0); [apply exp_increasing; lra|rewrite exp_0; lra]. }
  lra.
Qed.

Lemma lsmc_single_cash_flow_witness :
  backward_induction exercise_lsmc (vanilla 1 1 PUT AMERICAN) (5 / 100) (1 / 2)
    exercise_paths (lsmc_steps exercise_lsmc)
    (initial_cash_flows exercise_lsmc (vanilla 1 1 PUT AMERICAN) exercise_paths)
  = Ok [[0; 3 / 4; 0]; [0; 0; 0]]
  /\ (0 < List.length [[0; 3 / 4; 0]; [0; 0; 0]])%nat
  /\ exists j, forall k, k <> j -> at2 [[0; 3 / 4; 0]; [0; 0; 0]] 0 k = 0%R.
Proof.
  assert (H2 : (0 < List.length [[0; 3 / 4; 0]; [0; 0; 0]])%nat) by (cbn; lia).
  split; [exact exercise_run|]. split; [exact H2|].
  exact (@lsmc_single_cash_flow R R_arith _ _ _ _ _ _ 0%nat exercise_run H2).
Defined.

(** ** Numerical Greeks close to expiry *)

Lemma MarketData_new_R (s r vol div : R) :
  0 < s -> 0 < vol ->
  MarketData_new s r vol div
  = Ok {| spot := s; rate := r; volatility := vol; dividend := div |}.
Proof.
  intros Hs Hv. unfold MarketData_new. real_ops.
  rewrite !Rleb_gt by lra. reflexivity.
Qed.

Lemma Option_new_expired (K T : R) (ty : OptionType) (st : OptionStyle) :
  0 < K -> T <= 0 ->
  Option_new K T ty st = Throw (invalid_argument "Expiry must be positive and finite").
Proof.
  intros HK HT. unfold Option_new, Option_validate. cbn [strike expiry]. real_ops.
  rewrite Rleb_gt by lra. rewrite Rleb_le by lra. reflexivity.
Qed.

Section GreeksExpiry.

Context {RS : RandomStream R}.

(** X12: with the default bumps, the Greeks of an option that expires in at
    most one day (expiry <= 1/365) are never returned, although every price
    the engine is asked for succeeds: the option built for theta has the
    expiry less the time bump, which the option constructor rejects, so the
    call ends with invalid_argument after the base, the two spot-bumped and
    the volatility-bumped prices have been computed. *)
Theorem greeks_need_a_day_to_expiry (price : Option R -> MarketData R -> M R)
    (option : Option R) (market_data : MarketData R) (g : RandomGenerator) :
  (forall md g0, exists v g1, price option md g0 = (Ok v, g1)) ->
  0 < spot market_data ->
  0 < volatility market_data ->
  0 < strike option ->
  expiry option <= 1 / 365 ->
  exists g',
    default_greeks price option market_data g
    = (Throw (invalid_argument "Expiry must be positive and finite"), g').
Proof.
  intros Hp Hs Hv HK HT.
  unfold default_greeks, numerical_greeks.
  rewrite !MarketData_new_R by (real_ops; nra).
  rewrite Option_new_expired by (real_ops; lra).
  unfold bind, lift.
  destruct (Hp market_data g) as (v0 & g0 & ->).
  match goal with |- context [price option ?m g0] =>
    destruct (Hp m g0) as (v1 & g1 & ->) end.
  match goal with |- context [price option ?m g1] =>
    destruct (Hp m g1) as (v2 & g2 & ->) end.
  match goal with |- context [price option ?m g2] =>
    destruct (Hp m g2) as (v3 & g3 & ->) end.
  exists g3; reflexivity.
Qed.

End GreeksExpiry.

Lemma greeks_expiry_witness :
  (forall md g0, exists v g1,
      ret (RS := zero_stream) (TrinomialTreeModel_price 100 (vanilla 100 (1 / 365) CALL EUROPEAN) md)
        g0 = (Ok v, g1))
  /\ 0 < spot sample_market
  /\ 0 < volatility sample_market
  /\ 0 < strike (vanilla 100 (1 / 365) CALL EUROPEAN)
  /\ expiry (vanilla 100 (1 / 365) CALL EUROPEAN) <= 1 / 365
  /\ exists g',
       TrinomialTreeModel_greeks (RS := zero_stream) 100
         (vanilla 100 (1 / 365) CALL EUROPEAN) sample_market (RandomGenerator_new 12345)
       = (Throw (invalid_argument "Expiry must be positive and finite"), g').
Proof.
  assert (H0 : forall md g0, exists v g1,
             ret (RS := zero_stream)
               (TrinomialTreeModel_price 100 (vanilla 100 (1 / 365) CALL EUROPEAN) md) g0
             = (Ok v, g1)).
  { intros md g0. eexists; eexists; reflexivity. }
  assert (H1 : 0 < spot sample_market) by (cbn; lra).
  assert (H2 : 0 < volatility sample_market) by (cbn; lra).
  assert (H3 : 0 < strike (vanilla 100 (1 / 365) CALL EUROPEAN)) by (cbn; lra).
  assert (H4 : expiry (vanilla 100 (1 / 365) CALL EUROPEAN) <= 1 / 365) by (cbn; lra).
  repeat (split; [assumption|]).
  exact (greeks_need_a_day_to_expiry (RS := zero_stream)
           (fun o md => ret (TrinomialTreeModel_price 100 o md))
           (vanilla 100 (1 / 365) CALL EUROPEAN) sample_market (RandomGenerator_new 12345)
           H0 H1 H2 H3 H4).
Defined.

(** ** Matrices and the linear solver *)

Ltac nat_decide :=
  match goal with
  | |- context [Nat.eqb ?a ?b] =>
      first [ rewrite (proj2 (Nat.eqb_eq a b)) by lia
            | rewrite (proj2 (Nat.eqb_neq a b)) by lia
            | destruct (Nat.eqb_spec a b) ]
  | |- context [Nat.leb ?a ?b] =>
      first [ rewrite (proj2 (Nat.leb_le a b)) by lia
            | rewrite (proj2 (Nat.leb_gt a b)) by lia
            | destruct (Nat.leb_spec a b) ]
  | |- context [Nat.ltb ?a ?b] =>
      first [ rewrite (proj2 (Nat.ltb_lt a b)) by lia
            | rewrite (proj2 (Nat.ltb_ge a b)) by lia
            | destruct (Nat.ltb_spec a b) ]
  end.

Ltac nat_cases :=
  repeat (nat_decide; cbn [andb orb negb]);
  try reflexivity; try congruence; try lia.

Section MatrixFacts.

Context {D : Type} {AR : Arith D}.

(** The class invariant of [Matrix]: the storage holds rows * cols entries. *)
Definition well_formed (A : Matrix D) : Prop :=
  List.length (data_ A) = (rows_ A * cols_ A)%nat.

Definition square (n : nat) (A : Matrix D) : Prop :=
  rows_ A = n /\ cols_ A = n /\ well_formed A.

Lemma square_mset (n : nat) (A : Matrix D) (i j : nat) (x : D) :
  square n A -> square n (mset A i j x).
Proof.
  intros (Hr & Hc & Hl). unfold square, well_formed, mset in *; cbn [rows_ cols_ data_].
  rewrite length_vset. auto.
Qed.

Lemma mget_mset (n : nat) (A : Matrix D) (i j i' j' : nat) (x : D) :
  square n A -> (i < n)%nat -> (j < n)%nat -> (i' < n)%nat -> (j' < n)%nat ->
  mget (mset A i j x) i' j' = if ((i =? i') && (j =? j'))%nat then x else mget A i' j'.
Proof.
  intros (Hr & Hc & Hl) Hi Hj Hi' Hj'. unfold well_formed in Hl.
  unfold mget, mset; cbn [rows_ cols_ data_]. rewrite Hc.
  destruct (Nat.eqb_spec i i') as [->|Hne]; cbn [andb].
  - destruct (Nat.eqb_spec j j') as [->|Hne'].
    + apply vget_vset_same. rewrite Hl, Hr, Hc. nia.
    + apply vget_vset_other. lia.
  - apply vget_vset_other. nia.
Qed.

Local Open Scope D_scope.

(** The row update of the elimination: columns [i .. i+m-1] of row [k]. *)
Lemma row_update_spec (n : nat) (A : Matrix D) (k i : nat) (f : D) (m : nat) :
  square n A -> (k < n)%nat -> (i < n)%nat -> k <> i -> (i + m <= n)%nat ->
  square n (fold_left (fun A j => mset A k j (mget A k j - f * mget A i j)) (seq i m) A)
  /\ forall r c, (r < n)%nat -> (c < n)%nat ->
       mget (fold_left (fun A j => mset A k j (mget A k j - f * mget A i j)) (seq i m) A) r c
       = if ((r =? k) && (i <=? c) && (c <? i + m))%nat
         then mget A k c - f * mget A i c else mget A r c.
Proof.
  intros HA Hk Hi Hki. induction m as [|m IH]; intros Hm.
  - cbn [seq fold_left]. split; [exact HA|]. intros r c Hr Hc. nat_cases.
  - destruct (IH ltac:(lia)) as [Hsq Hget]. rewrite seq_S, fold_left_app. cbn [fold_left].
    split; [apply square_mset; exact Hsq|].
    intros r c Hr Hc.
    rewrite (@mget_mset n _ _ _ _ _ _ Hsq) by lia.
    rewrite !Hget by lia.
    nat_cases.
Qed.

(** The row swap: columns [i .. i+p-1] of rows [i] and [m]. *)
Lemma swap_loop_spec (n : nat) (A : Matrix D) (i m p : nat) :
  square n A -> (i < n)%nat -> (m < n)%nat -> i <> m -> (i + p <= n)%nat ->
  square n (fold_left (fun A k => let x := mget A i k in
                                  let y := mget A m k in
                                  mset (mset A i k y) m k x) (seq i p) A)
  /\ forall r c, (r < n)%nat -> (c < n)%nat ->
       mget (fold_left (fun A k => let x := mget A i k in
                                   let y := mget A m k in
                                   mset (mset A i k y) m k x) (seq i p) A) r c
       = if ((i <=? c) && (c <? i + p))%nat
         then mget A (if (r =? i)%nat then m else if (r =? m)%nat then i else r) c
         else mget A r c.
Proof.
  intros HA Hi Hm Him. induction p as [|p IH]; intros Hp.
  - cbn [seq fold_left]. split; [exact HA|]. intros r c Hr Hc. nat_cases.
  - destruct (IH ltac:(lia)) as [Hsq Hget]. rewrite seq_S, fold_left_app. cbn [fold_left].
    cbv zeta.
    split; [apply square_mset, square_mset; exact Hsq|].
    intros r c Hr Hc.
    rewrite (@mget_mset n _ _ _ _ _ _ (square_mset _ _ _ Hsq)) by lia.
    rewrite (@mget_mset n _ _ _ _ _ _ Hsq) by lia.
    rewrite !Hget by lia.
    nat_cases.
Qed.

Definition swap_index (i m r : nat) : nat :=
  if (r =? i)%nat then m else if (r =? m)%nat then i else r.

Lemma swap_rows_spec (n : nat) (A : Matrix D) (b : list D) (i m : nat) :
  square n A -> List.length b = n -> (i <= m)%nat -> (m < n)%nat ->
  square n (fst (swap_rows A b n i m))
  /\ List.length (snd (swap_rows A b n i m)) = n
  /\ (forall r c, (r < n)%nat -> (c < n)%nat ->
        mget (fst (swap_rows A b n i m)) r c
        = if (i <=? c)%nat then mget A (swap_index i m r) c else mget A r c)
  /\ (forall r, (r < n)%nat ->
        vget d0 (snd (swap_rows A b n i m)) r = vget d0 b (swap_index i m r)).
Proof.
  intros HA Hb Him Hm. unfold swap_rows, swap_index.
  destruct (Nat.eqb_spec m i) as [->|Hne]; cbn [fst snd].
  - split; [exact HA|]. split; [exact Hb|]. split.
    + intros r c Hr Hc. nat_cases; subst; reflexivity.
    + intros r Hr. nat_cases; subst; reflexivity.
  - destruct (@swap_loop_spec n A i m (n - i) HA ltac:(lia) Hm ltac:(lia) ltac:(lia))
      as [Hsq Hget].
    split; [exact Hsq|]. split; [rewrite !length_vset; exact Hb|]. split.
    + intros r c Hr Hc. rewrite Hget by assumption. nat_cases.
    + intros r Hr.
      destruct (Nat.eqb_spec r i) as [->|Hri].
      * rewrite vget_vset_other by lia. apply vget_vset_same; lia.
      * destruct (Nat.eqb_spec r m) as [->|Hrm].
        -- apply vget_vset_same. rewrite length_vset; lia.
        -- rewrite !vget_vset_other by lia. reflexivity.
Qed.

Lemma find_pivot_range (A : Matrix D) (n i : nat) :
  (i < n)%nat -> (i <= find_pivot A n i < n)%nat.
Proof.
  intros Hi. unfold find_pivot.
  assert (H : forall l st, Forall (fun k => (i <= k < n)%nat) l ->
                (i <= fst st < n)%nat ->
                (i <= fst (fold_left
                             (fun '(max_row, max_val) k =>
                                if dgtb (dabs (mget A k i)) max_val
                                then (k, dabs (mget A k i)) else (max_row, max_val))
                             l st) < n)%nat).
  { induction l as [|k l IH]; intros [mr mv] Hl Hst; cbn [fold_left]; [exact Hst|].
    inversion Hl; subst. apply IH; [assumption|].
    destruct (dgtb _ _); cbn [fst] in *; lia. }
  apply H; [|cbn [fst]; lia].
  apply Forall_forall. intros k Hk. apply in_seq in Hk. lia.
Qed.

(** The elimination of column [i] from rows [i+1 .. i+p]. *)
Lemma eliminate_loop_spec (n : nat) (A : Matrix D) (b : list D) (i p : nat) :
  square n A -> List.length b = n -> (i + 1 + p <= n)%nat ->
  let step := fun '(A, b) k =>
       let factor := mget A k i / mget A i i in
       let A := fold_left (fun A j => mset A k j (mget A k j - factor * mget A i j))
                          (seq i (n - i)) A in
       (A, vset b k (vget d0 b k - factor * vget d0 b i)) in
  let R := fold_left step (seq (i + 1) p) (A, b) in
  square n (fst R)
  /\ List.length (snd R) = n
  /\ (forall r c, (r < n)%nat -> (c < n)%nat ->
        mget (fst R) r c
        = if ((i <? r) && (r <? i + 1 + p) && (i <=? c))%nat
          then mget A r c - (mget A r i / mget A i i) * mget A i c
          else mget A r c)
  /\ (forall r, (r < n)%nat ->
        vget d0 (snd R) r
        = if ((i <? r) && (r <? i + 1 + p))%nat
          then vget d0 b r - (mget A r i / mget A i i) * vget d0 b i
          else vget d0 b r).
Proof.
  intros HA Hb. cbv zeta. induction p as [|p IH]; intros Hp.
  - cbn [seq fold_left fst snd]. split; [exact HA|]. split; [exact Hb|]. split.
    + intros r c Hr Hc. nat_cases.
    + intros r Hr. nat_cases.
  - destruct (IH ltac:(lia)) as (Hsq & Hlen & Hget & Hvec).
    rewrite seq_S, fold_left_app. cbn [fold_left].
    destruct (fold_left _ (seq (i + 1) p) (A, b)) as [Ap bp]. cbn [fst snd] in *.
    destruct (@row_update_spec n Ap (i + 1 + p) i
                (mget Ap (i + 1 + p) i / mget Ap i i) (n - i) Hsq
                ltac:(lia) ltac:(lia) ltac:(lia) ltac:(lia)) as [Hsq' Hget'].
    split; [exact Hsq'|]. split; [rewrite length_vset; exact Hlen|]. split.
    + intros r c Hr Hc. rewrite Hget' by assumption.
      rewrite !Hget by lia.
      nat_cases.
    + intros r Hr.
      destruct (Nat.eq_dec r (i + 1 + p)) as [->|Hne].
      * rewrite vget_vset_same by lia. rewrite !Hvec, !Hget by lia. nat_cases.
      * rewrite vget_vset_other by lia. rewrite Hvec by lia. nat_cases.
Qed.

Lemma eliminate_column_spec (n : nat) (A : Matrix D) (b : list D) (i : nat) :
  square n A -> List.length b = n -> (i < n)%nat ->
  square n (fst (eliminate_column A b n i))
  /\ List.length (snd (eliminate_column A b n i)) = n
  /\ (forall r c, (r < n)%nat -> (c < n)%nat ->
        mget (fst (eliminate_column A b n i)) r c
        = if ((i <? r) && (i <=? c))%nat
          then mget A r c - (mget A r i / mget A i i) * mget A i c
          else mget A r c)
  /\ (forall r, (r < n)%nat ->
        vget d0 (snd (eliminate_column A b n i)) r
        = if (i <? r)%nat
          then vget d0 b r - (mget A r i / mget A i i) * vget d0 b i
          else vget d0 b r).
Proof.
  intros HA Hb Hi. unfold eliminate_column.
  destruct (@eliminate_loop_spec n A b i (n - (i + 1)) HA Hb ltac:(lia))
    as (Hsq & Hlen & Hget & Hvec).
  split; [exact Hsq|]. split; [exact Hlen|]. split.
  - intros r c Hr Hc. rewrite Hget by assumption. nat_cases.
  - intros r Hr. rewrite Hvec by assumption. nat_cases.
Qed.

End MatrixFacts.

Section MultiplyFacts.

Context {D : Type} {AR : Arith D}.
Local Open Scope D_scope.

Lemma multiply_row_spec (a : nat -> D) (i : nat) (l : list nat) (v : list D) :
  (i < List.length v)%nat ->
  List.length (fold_left (fun result j => vset result i (vget d0 result i + a j)) l v)
  = List.length v
  /\ vget d0 (fold_left (fun result j => vset result i (vget d0 result i + a j)) l v) i
     = fold_left (fun s j => s + a j) l (vget d0 v i)
  /\ forall r, r <> i ->
       vget d0 (fold_left (fun result j => vset result i (vget d0 result i + a j)) l v) r
       = vget d0 v r.
Proof.
  revert v; induction l as [|j l IH]; intros v Hi; cbn [fold_left].
  - repeat split; reflexivity.
  - destruct (IH (vset v i (vget d0 v i + a j))) as (Hl & Hs & Ho);
      [rewrite length_vset; exact Hi|].
    rewrite Hl, Hs, length_vset, vget_vset_same by exact Hi.
    repeat split. intros r Hr. rewrite Ho by exact Hr. apply vget_vset_other; lia.
Qed.

Lemma accumulate_rows_spec (a : nat -> nat -> D) (rows : nat) (l : list nat) :
  let inner := fun result i =>
    fold_left (fun result j => vset result i (vget d0 result i + a i j)) l result in
  List.length (fold_left inner (seq 0 rows) (repeat d0 rows)) = rows
  /\ forall r, (r < rows)%nat ->
       vget d0 (fold_left inner (seq 0 rows) (repeat d0 rows)) r
       = fold_left (fun s j => s + a r j) l d0.
Proof.
  intros inner.
  assert (H : forall q, (q <= rows)%nat ->
            List.length (fold_left inner (seq 0 q) (repeat d0 rows)) = rows
            /\ forall r, (r < rows)%nat ->
                 vget d0 (fold_left inner (seq 0 q) (repeat d0 rows)) r
                 = if (r <? q)%nat then fold_left (fun s j => s + a r j) l d0 else d0).
  { induction q as [|q IH]; intros Hq.
    - cbn [seq fold_left]. split; [apply repeat_length|].
      intros r Hr. rewrite vget_repeat by exact Hr. reflexivity.
    - destruct (IH ltac:(lia)) as [Hl Hg].
      rewrite seq_S, fold_left_app. cbn [fold_left Nat.add]. unfold inner at 1 3.
      destruct (@multiply_row_spec (a q) q l (fold_left inner (seq 0 q) (repeat d0 rows)))
        as (Hl' & Hs & Ho); [lia|].
      split; [rewrite Hl'; exact Hl|].
      intros r Hr. destruct (Nat.eq_dec r q) as [->|Hne].
      + rewrite Hs, Hg by lia. nat_cases.
      + rewrite Ho, Hg by lia. nat_cases. }
  destruct (H rows (Nat.le_refl _)) as [Hl Hg].
  split; [exact Hl|]. intros r Hr. rewrite Hg by exact Hr. nat_cases.
Qed.

Lemma multiply_spec (A : Matrix D) (vec : list D) :
  List.length vec = cols_ A ->
  exists result,
    multiply A vec = Ok result
    /\ List.length result = rows_ A
    /\ forall r, (r < rows_ A)%nat ->
         vget d0 result r
         = fold_left (fun s j => s + mget A r j * vget d0 vec j) (seq 0 (cols_ A)) d0.
Proof.
  intros Hv. unfold multiply. rewrite Hv, Nat.eqb_refl. cbn [negb].
  eexists; split; [reflexivity|].
  exact (accumulate_rows_spec (fun i j => mget A i j * vget d0 vec j) (rows_ A)
           (seq 0 (cols_ A))).
Qed.

End MultiplyFacts.

Section SolverReal.

Local Open Scope R_scope.

Lemma Rsum_app (l1 l2 : list R) : Rsum (l1 ++ l2) = Rsum l1 + Rsum l2.
Proof. induction l1 as [|x l1 IH]; simpl; [lra|]. rewrite IH; lra. Qed.

Lemma Rsum_map_scal {A : Type} (a : R) (f : A -> R) (l : list A) :
  Rsum (map (fun k => a * f k) l) = a * Rsum (map f l).
Proof. induction l as [|x l IH]; simpl; [lra|]. rewrite IH; lra. Qed.

Lemma Rsum_map_zero {A : Type} (f : A -> R) (l : list A) :
  (forall k, In k l -> f k = 0) -> Rsum (map f l) = 0.
Proof.
  induction l as [|x l IH]; intros H; simpl; [reflexivity|].
  rewrite (H x (or_introl eq_refl)), IH; [lra|]. intros k Hk; apply H; right; exact Hk.
Qed.

Variable n : nat.

(** Row [r] of the product of [A] and [x]. *)
Definition row_sum (A : Matrix R) (x : list R) (r : nat) : R :=
  Rsum (map (fun c => mget A r c * vget 0 x c) (seq 0 n)).

Definition solves (A : Matrix R) (b x : list R) : Prop :=
  forall r, (r < n)%nat -> row_sum A x r = vget 0 b r.

(** Columns [0 .. i-1] hold zeros below the diagonal. *)
Definition eliminated (i : nat) (A : Matrix R) : Prop :=
  forall r c, (c < i)%nat -> (c < r)%nat -> (r < n)%nat -> mget A r c = 0.

Definition pivots (i : nat) (A : Matrix R) : Prop :=
  forall r, (r < i)%nat -> mget A r r <> 0.

Lemma row_sum_ext (A B : Matrix R) (x : list R) (r s : nat) :
  (forall c, (c < n)%nat -> mget A r c = mget B s c) -> row_sum A x r = row_sum B x s.
Proof.
  intros H. unfold row_sum. apply Rsum_map_ext. intros c Hc. apply in_seq in Hc.
  rewrite H by lia. reflexivity.
Qed.

Lemma swap_index_involutive (i m r : nat) : swap_index i m (swap_index i m r) = r.
Proof.
  unfold swap_index.
  destruct (Nat.eqb_spec r i) as [->|Hi]; [nat_cases|].
  destruct (Nat.eqb_spec r m) as [->|Hm]; nat_cases.
Qed.

Lemma swap_index_range (i m r : nat) :
  (i < n)%nat -> (m < n)%nat -> (r < n)%nat -> (swap_index i m r < n)%nat.
Proof.
  intros Hi Hm Hr. unfold swap_index.
  destruct (r =? i)%nat; [exact Hm|]. destruct (r =? m)%nat; assumption.
Qed.

Lemma swap_step (A : Matrix R) (b : list R) (i m : nat) :
  square n A -> List.length b = n -> (i <= m)%nat -> (m < n)%nat ->
  eliminated i A -> pivots i A ->
  eliminated i (fst (swap_rows A b n i m))
  /\ pivots i (fst (swap_rows A b n i m))
  /\ forall x, solves (fst (swap_rows A b n i m)) (snd (swap_rows A b n i m)) x ->
               solves A b x.
Proof.
  intros HA Hb Him Hm Hz Hp.
  destruct (swap_rows_spec b HA Hb Him Hm) as (_ & _ & Hget & Hvec).
  real_ops.
  assert (Hrow : forall r c, (r < n)%nat -> (c < n)%nat ->
                   mget (fst (swap_rows A b n i m)) r c = mget A (swap_index i m r) c).
  { intros r c Hr Hc. rewrite Hget by assumption.
    destruct (Nat.leb_spec i c) as [Hic|Hic]; [reflexivity|].
    unfold swap_index. destruct (Nat.eqb_spec r i) as [->|Hri].
    - rewrite (Hz i c), (Hz m c) by lia. reflexivity.
    - destruct (Nat.eqb_spec r m) as [->|Hrm]; [|reflexivity].
      rewrite (Hz i c), (Hz m c) by lia. reflexivity. }
  split; [|split].
  - intros r c Hc Hcr Hr. rewrite Hget by lia. nat_cases; apply Hz; lia.
  - intros r Hr. rewrite Hget by lia. nat_cases; apply Hp; lia.
  - intros x Hx r Hr.
    pose proof (@swap_index_range i m r ltac:(lia) Hm Hr) as Hs.
    pose proof (Hvec _ Hs) as Hb'. rewrite swap_index_involutive in Hb'.
    rewrite <- Hb', <- (Hx _ Hs).
    apply row_sum_ext. intros c Hc. rewrite Hrow by assumption.
    rewrite swap_index_involutive. reflexivity.
Qed.

Lemma eliminate_step (A : Matrix R) (b : list R) (i : nat) :
  square n A -> List.length b = n -> (i < n)%nat ->
  eliminated i A -> pivots i A -> mget A i i <> 0 ->
  eliminated (S i) (fst (eliminate_column A b n i))
  /\ pivots (S i) (fst (eliminate_column A b n i))
  /\ forall x, solves (fst (eliminate_column A b n i)) (snd (eliminate_column A b n i)) x ->
               solves A b x.
Proof.
  intros HA Hb Hi Hz Hp Hpiv.
  destruct (eliminate_column_spec b HA Hb Hi) as (_ & _ & Hget & Hvec).
  real_ops.
  split; [|split].
  - intros r c Hc Hcr Hr. rewrite Hget by lia.
    destruct (Nat.eq_dec c i) as [->|Hne].
    + nat_cases. field. exact Hpiv.
    + nat_cases; apply Hz; lia.
  - intros r Hr. rewrite Hget by lia. nat_cases;
      (destruct (Nat.eq_dec r i) as [->|Hne]; [exact Hpiv|apply Hp; lia]).
  - intros x Hx r Hr.
    destruct (Nat.ltb_spec i r) as [Hir|Hir].
    + set (f := mget A r i / mget A i i).
      assert (Hrow : forall c, (c < n)%nat ->
                mget A r c * vget 0 x c
                = mget (fst (eliminate_column A b n i)) r c * vget 0 x c
                  + f * (mget (fst (eliminate_column A b n i)) i c * vget 0 x c)).
      { intros c Hc. rewrite !Hget by lia.
        destruct (Nat.leb_spec i c) as [Hic|Hic].
        - nat_cases. fold f. ring.
        - nat_cases. rewrite (Hz i c) by lia. ring. }
      assert (Hsum : row_sum A x r
                     = row_sum (fst (eliminate_column A b n i)) x r
                       + f * row_sum (fst (eliminate_column A b n i)) x i).
      { unfold row_sum. rewrite <- Rsum_map_scal, <- Rsum_map_plus.
        apply Rsum_map_ext. intros c Hc. apply in_seq in Hc. apply Hrow; lia. }
      rewrite Hsum, (Hx r Hr), (Hx i Hi), !Hvec by lia.
      nat_cases. fold f. ring.
    + rewrite (@row_sum_ext A (fst (eliminate_column A b n i)) x r r)
        by (intros c Hc; rewrite Hget by lia; nat_cases).
      rewrite (Hx r Hr), Hvec by lia. nat_cases.
Qed.

Lemma singular_eps_pivot (a : R) : (dabs a <? singular_eps)%D = false -> a <> 0.
Proof.
  unfold singular_eps. real_ops. unfold Rltb.
  destruct (Rlt_dec _ _) as [|Hge]; [discriminate|]. intros _ ->.
  apply Hge. rewrite Rabs_R0. lra.
Qed.

Lemma forward_elimination_spec (q : nat) :
  forall (i : nat) (A : Matrix R) (b : list R) (A' : Matrix R) (b' : list R),
    (i + q)%nat = n -> square n A -> List.length b = n ->
    eliminated i A -> pivots i A ->
    forward_elimination n (seq i q) A b = Ok (A', b') ->
    square n A' /\ List.length b' = n /\ eliminated n A' /\ pivots n A'
    /\ forall x, solves A' b' x -> solves A b x.
Proof.
  induction q as [|q IH]; intros i A b A' b' Hip HA Hb Hz Hp.
  - cbn [seq forward_elimination]. intros E; injection E as <- <-.
    assert (i = n) by lia; subst i. repeat (split; [assumption|]). auto.
  - cbn [seq forward_elimination].
    pose proof (@find_pivot_range R _ A n i ltac:(lia)) as Hm.
    pose proof (swap_rows_spec b HA Hb (proj1 Hm) (proj2 Hm)) as (HA1 & Hb1 & _).
    pose proof (@swap_step A b i (find_pivot A n i) HA Hb (proj1 Hm) (proj2 Hm) Hz Hp)
      as (Hz1 & Hp1 & Hs1).
    destruct (swap_rows A b n i (find_pivot A n i)) as [A1 b1]. cbn [fst snd] in *.
    destruct (dabs (mget A1 i i) <? singular_eps)%D eqn:Hsing; [discriminate|].
    apply singular_eps_pivot in Hsing.
    pose proof (@eliminate_column_spec R R_arith n A1 b1 i HA1 Hb1 ltac:(lia))
      as (HA2 & Hb2 & _).
    pose proof (@eliminate_step A1 b1 i HA1 Hb1 ltac:(lia) Hz1 Hp1 Hsing)
      as (Hz2 & Hp2 & Hs2).
    destruct (eliminate_column A1 b1 n i) as [A2 b2]. cbn [fst snd] in *.
    intros E.
    destruct (IH (S i) A2 b2 A' b' ltac:(lia) HA2 Hb2 Hz2 Hp2 E)
      as (HA' & Hb' & Hz' & Hp' & Hs').
    repeat (split; [assumption|]).
    intros x Hx. apply Hs1, Hs2, Hs', Hx.
Qed.

(** The part of row [r] right of the diagonal. *)
Definition upper_sum (A : Matrix R) (x : list R) (r : nat) : R :=
  Rsum (map (fun c => mget A r c * vget 0 x c) (seq (r + 1) (n - (r + 1)))).

Lemma upper_sum_ext (A : Matrix R) (x y : list R) (r : nat) :
  (forall c, (r < c)%nat -> vget 0 x c = vget 0 y c) -> upper_sum A x r = upper_sum A y r.
Proof.
  intros H. unfold upper_sum. apply Rsum_map_ext. intros c Hc. apply in_seq in Hc.
  rewrite H by lia. reflexivity.
Qed.

Lemma back_substitution_loop (A : Matrix R) (b : list R) (m : nat) :
  pivots n A ->
  forall x, (m <= n)%nat -> List.length x = n ->
    (forall r, (m <= r)%nat -> (r < n)%nat ->
       mget A r r * vget 0 x r + upper_sum A x r = vget 0 b r) ->
    let step := fun x i =>
      let sum := fold_left (fun sum j => (sum + mget A i j * vget d0 x j)%D)
                           (seq (i + 1) (n - (i + 1))) d0 in
      vset x i ((vget d0 b i - sum) / mget A i i)%D in
    List.length (fold_left step (rev (seq 0 m)) x) = n
    /\ forall r, (r < n)%nat ->
         mget A r r * vget 0 (fold_left step (rev (seq 0 m)) x) r
         + upper_sum A (fold_left step (rev (seq 0 m)) x) r = vget 0 b r.
Proof.
  intros Hp. cbv zeta. induction m as [|m IH]; intros x Hm Hl Hx.
  - cbn [seq rev fold_left]. split; [exact Hl|]. intros r Hr. apply Hx; lia.
  - rewrite seq_S, rev_app_distr. cbn [rev app fold_left Nat.add].
    apply IH; [lia|rewrite length_vset; exact Hl|].
    intros r Hmr Hr.
    rewrite (Rfold_sum (fun j => mget A m j * vget d0 x j)). real_ops.
    change (Rsum (map (fun j => mget A m j * vget 0 x j) (seq (m + 1) (n - (m + 1)))))
      with (upper_sum A x m).
    destruct (Nat.eq_dec r m) as [->|Hne].
    + rewrite vget_vset_same by lia.
      rewrite (@upper_sum_ext A (vset x m ((vget 0 b m - (0 + upper_sum A x m)) / mget A m m))
                 x m) by (intros c Hc; apply vget_vset_other; lia).
      field. apply Hp; lia.
    + rewrite vget_vset_other by lia.
      rewrite (@upper_sum_ext A (vset x m ((vget 0 b m - (0 + upper_sum A x m)) / mget A m m))
                 x r) by (intros c Hc; apply vget_vset_other; lia).
      apply Hx; lia.
Qed.

Lemma row_sum_upper (A : Matrix R) (x : list R) (r : nat) :
  eliminated n A -> (r < n)%nat ->
  row_sum A x r = mget A r r * vget 0 x r + upper_sum A x r.
Proof.
  intros Hz Hr. unfold row_sum, upper_sum.
  replace n with (r + S (n - (r + 1)))%nat at 1 by lia.
  rewrite seq_app, map_app, Rsum_app. cbn [seq map Nat.add].
  rewrite Rsum_map_zero.
  - replace (S r) with (r + 1)%nat by lia. simpl. lra.
  - intros c Hc. apply in_seq in Hc. rewrite (Hz r c) by lia. ring.
Qed.

Lemma back_substitution_spec (A : Matrix R) (b : list R) :
  eliminated n A -> pivots n A ->
  List.length (back_substitution A b n) = n /\ solves A b (back_substitution A b n).
Proof.
  intros Hz Hp. unfold back_substitution.
  destruct (@back_substitution_loop A b n Hp (repeat d0 n) (Nat.le_refl n)
              (repeat_length _ _) ltac:(intros; lia)) as [Hl Hx].
  split; [exact Hl|].
  intros r Hr. rewrite row_sum_upper by assumption. apply Hx; exact Hr.
Qed.

End SolverReal.

Lemma solve_linear_system_spec (A : Matrix R) (b x : list R) :
  well_formed A ->
  solve_linear_system A b = Ok x ->
  cols_ A = rows_ A /\ List.length b = rows_ A /\ List.length x = rows_ A
  /\ solves (rows_ A) A b x.
Proof.
  intros Hwf. unfold solve_linear_system.
  destruct (Nat.eqb_spec (cols_ A) (rows_ A)) as [Hc|Hc]; cbn [negb orb]; [|discriminate].
  destruct (Nat.eqb_spec (List.length b) (rows_ A)) as [Hb|Hb]; cbn [negb];
    [|discriminate].
  set (n := rows_ A) in *.
  assert (HA : square n A) by (repeat split; assumption).
  destruct (forward_elimination n (seq 0 n) A b) as [[A' b']|e] eqn:E; cbn [rbind];
    [|discriminate].
  intros Hx; injection Hx as <-.
  destruct (@forward_elimination_spec n n 0%nat A b A' b' ltac:(lia) HA Hb
              ltac:(intros r c Hlt; lia) ltac:(intros r Hlt; lia) E)
    as (_ & _ & Hz & Hp & Hs).
  destruct (@back_substitution_spec n A' b' Hz Hp) as [Hl Hsol].
  repeat (split; [assumption|]). apply Hs, Hsol.
Qed.

(** X13: over the reals, a vector returned by solve_linear_system for a
    matrix that satisfies the class invariant solves the system: the
    product of the matrix passed in and the returned vector, computed by
    Matrix::multiply, is the right-hand side passed in. *)
Theorem solve_linear_system_solves (A : Matrix R) (b x : list R) :
  well_formed A ->
  solve_linear_system A b = Ok x ->
  multiply A x = Ok b.
Proof.
  intros Hwf Hx.
  destruct (@solve_linear_system_spec A b x Hwf Hx) as (Hc & Hb & Hl & Hsol).
  destruct (multiply_spec A x) as (res & Hres & Hlen & Hget);
    [rewrite Hl; symmetry; exact Hc|].
  rewrite Hres. f_equal.
  apply (nth_ext _ _ 0 0); [rewrite Hlen, Hb; reflexivity|].
  intros r Hr. rewrite Hlen in Hr.
  change (nth r res 0) with (vget d0 res r). rewrite Hget by exact Hr.
  rewrite Hc.
  rewrite (Rfold_sum (fun j => mget A r j * vget d0 x j)).
  real_ops. rewrite Rplus_0_l. apply (Hsol r Hr).
Qed.

Definition sample_matrix : Matrix R :=
  {| rows_ := 2; cols_ := 2; data_ := [2; 1; 1; 3] |}.

Lemma sample_matrix_solved :
  exists x, solve_linear_system sample_matrix [3; 5] = Ok x.
Proof.
  unfold solve_linear_system, sample_matrix.
  cbn [rows_ cols_ Nat.eqb negb orb List.length seq forward_elimination].
  unfold find_pivot. cbn [Nat.add Nat.sub seq fold_left].
  unfold mget at 1 2. cbn [cols_ data_ Nat.mul Nat.add vget nth].
  real_ops.
  rewrite (@Rltb_ge (Rabs 2) (Rabs 1)) by (rewrite !Rabs_pos_eq by lra; lra).
  cbn [fst]. unfold swap_rows at 1. cbn [Nat.eqb].
  unfold mget at 1. cbn [cols_ data_ Nat.mul Nat.add vget nth].
  unfold singular_eps. real_ops.
  rewrite (@Rltb_ge (Rabs 2) _) by (rewrite Rabs_pos_eq by lra; lra).
  unfold eliminate_column at 1. cbn [Nat.add Nat.sub seq fold_left].
  unfold mget, mset. cbn [cols_ rows_ data_ Nat.mul Nat.add vget vset nth].
  unfold swap_rows. cbn [fst Nat.eqb].
  cbn [cols_ rows_ data_ Nat.mul Nat.add vget vset nth].
  real_ops.
  rewrite (@Rltb_ge (Rabs (3 - 1 / 2 * 1)) _) by (rewrite Rabs_pos_eq by lra; lra).
  unfold eliminate_column. cbn [Nat.add Nat.sub seq fold_left rbind].
  eexists; reflexivity.
Qed.

Lemma solve_linear_system_witness :
  well_formed sample_matrix
  /\ exists x, solve_linear_system sample_matrix [3; 5] = Ok x
               /\ multiply sample_matrix x = Ok [3; 5].
Proof.
  assert (H : well_formed sample_matrix) by reflexivity.
  split; [exact H|].
  destruct sample_matrix_solved as [x Hx].
  exists x. split; [exact Hx|].
  exact (@solve_linear_system_solves sample_matrix [3; 5] x H Hx).
Defined.


(** ** The least-squares regression of LSMC *)

Section FillFacts.

Context {D : Type} {AR : Arith D}.

Lemma mget_mset_rect (A : Matrix D) (i j i' j' : nat) (x : D) :
  well_formed A -> (i < rows_ A)%nat -> (j < cols_ A)%nat -> (j' < cols_ A)%nat ->
  mget (mset A i j x) i' j' = if ((i =? i') && (j =? j'))%nat then x else mget A i' j'.
Proof.
  intros Hl Hi Hj Hj'. unfold well_formed in Hl.
  unfold mget, mset; cbn [rows_ cols_ data_].
  destruct (Nat.eqb_spec i i') as [->|Hne]; cbn [andb].
  - destruct (Nat.eqb_spec j j') as [->|Hne'].
    + apply vget_vset_same. rewrite Hl. nia.
    + apply vget_vset_other. lia.
  - apply vget_vset_other. nia.
Qed.

Lemma well_formed_mset (A : Matrix D) (i j : nat) (x : D) :
  well_formed A -> well_formed (mset A i j x).
Proof.
  unfold well_formed, mset; cbn [rows_ cols_ data_]. rewrite length_vset. auto.
Qed.

(** Filling columns [0 .. q-1] of row [i]. *)
Lemma fill_row_spec (v : nat -> D) (i q : nat) (A : Matrix D) :
  well_formed A -> (i < rows_ A)%nat -> (q <= cols_ A)%nat ->
  let A' := fold_left (fun A j => mset A i j (v j)) (seq 0 q) A in
  well_formed A' /\ rows_ A' = rows_ A /\ cols_ A' = cols_ A
  /\ forall r c, (c < cols_ A)%nat ->
       mget A' r c = if ((r =? i) && (c <? q))%nat then v c else mget A r c.
Proof.
  intros Hwf Hi. cbv zeta. induction q as [|q IH]; intros Hq.
  - cbn [seq fold_left]. repeat (split; [auto|]). intros r c Hc. nat_cases.
  - destruct (IH ltac:(lia)) as (Hwf' & Hr' & Hc' & Hget).
    rewrite seq_S, fold_left_app. cbn [fold_left Nat.add].
    split; [apply well_formed_mset; exact Hwf'|].
    split; [exact Hr'|]. split; [exact Hc'|].
    intros r c Hc. rewrite mget_mset_rect by (rewrite ?Hr', ?Hc'; auto; lia).
    rewrite Hget by exact Hc. nat_cases.
Qed.

(** Filling a matrix row by row. *)
Lemma fill_spec (v : nat -> nat -> D) (n m : nat) :
  let A := fold_left (fun A i => fold_left (fun A j => mset A i j (v i j)) (seq 0 m) A)
             (seq 0 n) (Matrix_new n m d0) in
  well_formed A /\ rows_ A = n /\ cols_ A = m
  /\ forall r c, (r < n)%nat -> (c < m)%nat -> mget A r c = v r c.
Proof.
  cbv zeta.
  assert (H : forall q, (q <= n)%nat ->
            let A := fold_left
                       (fun A i => fold_left (fun A j => mset A i j (v i j)) (seq 0 m) A)
                       (seq 0 q) (Matrix_new n m d0) in
            well_formed A /\ rows_ A = n /\ cols_ A = m
            /\ forall r c, (r < q)%nat -> (c < m)%nat -> mget A r c = v r c).
  { cbv zeta. induction q as [|q IH]; intros Hq.
    - cbn [seq fold_left]. split; [apply repeat_length|]. repeat (split; [reflexivity|]).
      intros r c Hr; lia.
    - destruct (IH ltac:(lia)) as (Hwf & Hr & Hc & Hget).
      rewrite seq_S, fold_left_app. cbn [fold_left Nat.add].
      destruct (@fill_row_spec (v q) q m _ Hwf ltac:(lia) ltac:(lia))
        as (Hwf' & Hr' & Hc' & Hget').
      split; [exact Hwf'|]. split; [lia|]. split; [lia|].
      intros r c Hrq Hcm. rewrite Hget' by lia.
      destruct (Nat.eq_dec r q) as [->|Hne]; [nat_cases|].
      nat_cases. apply Hget; lia. }
  destruct (H n (Nat.le_refl n)) as (Hwf & Hr & Hc & Hget). auto.
Qed.

End FillFacts.

Section RegressionReal.

Local Open Scope R_scope.

Lemma Rsum_swap {A B : Type} (f : A -> B -> R) (la : list A) (lb : list B) :
  Rsum (map (fun a => Rsum (map (fun b => f a b) lb)) la)
  = Rsum (map (fun b => Rsum (map (fun a => f a b) la)) lb).
Proof.
  induction la as [|a la IH]; cbn [map Rsum fold_right].
  - symmetry; apply Rsum_map_zero; reflexivity.
  - change (fold_right Rplus 0) with Rsum. rewrite IH.
    rewrite <- Rsum_map_plus. reflexivity.
Qed.

Lemma evaluate_polynomial_sum (c : list R) (x : R) (degree : Z) :
  (0 <= degree)%Z -> List.length c = Z.to_nat (degree + 1) ->
  evaluate_polynomial c x
  = Rsum (map (fun j => vget 0 c j * vget 0 (basis_functions x degree) j)
            (seq 0 (Z.to_nat (degree + 1)))).
Proof.
  intros Hd Hl. unfold evaluate_polynomial. rewrite Hl.
  replace (Z.of_nat (Z.to_nat (degree + 1)) - 1)%Z with degree by lia.
  rewrite (Rfold_sum (fun j => vget d0 c j * vget d0 (basis_functions x degree) j)).
  real_ops. apply Rplus_0_l.
Qed.

(** X14: over the reals, coefficients returned by LSMCModel::regression
    satisfy the normal equations of the least-squares problem: there is one
    coefficient per basis function, and the residuals y[k] minus the fitted
    polynomial at x[k], as evaluate_polynomial computes it, are orthogonal
    to every basis function evaluated at the sample points. *)
Theorem regression_residuals_orthogonal (x y c : list R) (degree : Z) (i : nat) :
  (0 <= degree)%Z ->
  regression x y degree = Ok c ->
  (i < Z.to_nat (degree + 1))%nat ->
  List.length c = Z.to_nat (degree + 1)
  /\ Rsum (map (fun k => vget 0 (basis_functions (vget 0 x k) degree) i
                         * (vget 0 y k - evaluate_polynomial c (vget 0 x k)))
             (seq 0 (List.length x))) = 0.
Proof.
  intros Hd. unfold regression.
  destruct (negb (List.length x =? List.length y)%nat || (List.length x =? 0)%nat);
    [discriminate|].
  cbv zeta.
  set (n := List.length x). set (m := Z.to_nat (degree + 1)).
  set (phi := fun k j => vget d0 (basis_functions (vget d0 x k) degree) j).
  destruct (fill_spec phi n m) as (_ & _ & _ & HA).
  set (A := fold_left _ (seq 0 n) (Matrix_new n m d0)) in *.
  destruct (fill_spec (fun i j => fold_left (fun sum k => (sum + mget A k i * mget A k j)%D)
                                    (seq 0 n) d0) m m) as (Hwf & Hr & Hc & HATA).
  set (ATA := fold_left _ (seq 0 m) (Matrix_new m m d0)) in *.
  destruct (accumulate_rows_spec (fun i k => (mget A k i * vget d0 y k)%D) m (seq 0 n))
    as (_ & HATy).
  set (ATy := fold_left _ (seq 0 m) (repeat d0 m)) in *.
  intros Hsolve Hi.
  destruct (@solve_linear_system_spec ATA ATy c Hwf Hsolve) as (_ & _ & Hl & Hsol).
  rewrite Hr in Hl, Hsol. split; [exact Hl|].
  specialize (Hsol i Hi). unfold row_sum in Hsol.
  rewrite HATy in Hsol by exact Hi.
  rewrite (Rfold_sum (fun k => (mget A k i * vget d0 y k)%D)) in Hsol.
  assert (Hlhs : Rsum (map (fun j => mget ATA i j * vget 0 c j) (seq 0 m))
                 = Rsum (map (fun k => phi k i
                                       * Rsum (map (fun j => vget 0 c j * phi k j) (seq 0 m)))
                           (seq 0 n))).
  { transitivity (Rsum (map (fun j => Rsum (map (fun k => phi k i * (vget 0 c j * phi k j))
                                              (seq 0 n))) (seq 0 m))).
    - apply Rsum_map_ext. intros j Hj. apply in_seq in Hj.
      rewrite HATA by lia.
      rewrite (Rfold_sum (fun k => (mget A k i * mget A k j)%D)). real_ops.
      rewrite Rplus_0_l, Rmult_comm, <- Rsum_map_scal.
      apply Rsum_map_ext. intros k Hk. apply in_seq in Hk.
      rewrite !HA by lia. ring.
    - rewrite Rsum_swap. apply Rsum_map_ext. intros k Hk.
      rewrite <- Rsum_map_scal. reflexivity. }
  rewrite Hlhs in Hsol. real_ops. rewrite Rplus_0_l in Hsol.
  transitivity
    (Rsum (map (fun k => mget A k i * vget 0 y k) (seq 0 n))
     - Rsum (map (fun k => phi k i * Rsum (map (fun j => vget 0 c j * phi k j) (seq 0 m)))
               (seq 0 n))); [|rewrite Hsol; ring].
  unfold Rminus at 2. rewrite <- (Rmult_1_l (Rsum (map (fun k => phi k i * _) _))) at 1.
  replace (- (1 * Rsum (map (fun k => phi k i
                                     * Rsum (map (fun j => vget 0 c j * phi k j) (seq 0 m)))
                            (seq 0 n))))
    with (-1 * Rsum (map (fun k => phi k i
                                   * Rsum (map (fun j => vget 0 c j * phi k j) (seq 0 m)))
                       (seq 0 n))) by ring.
  rewrite <- Rsum_map_scal, <- Rsum_map_plus.
  apply Rsum_map_ext. intros k Hk. apply in_seq in Hk.
  rewrite (@evaluate_polynomial_sum c (vget 0 x k) degree Hd Hl).
  rewrite HA by lia. unfold phi. real_ops. fold m. ring.
Qed.

End RegressionReal.

Lemma sample_regression : exists c, regression [0; 0] [1; 3] 0 = Ok c.
Proof.
  unfold regression.
  change (Z.to_nat (0 + 1)) with 1%nat.
  cbn [List.length Nat.eqb negb orb].
  unfold basis_functions.
  change (Z.to_nat (0 + 1)) with 1%nat. change (Z.to_nat 0 - 3)%nat with 0%nat.
  cbn [Z.leb Z.compare seq repeat fold_left vset vget nth].
  unfold Matrix_new, mset, mget.
  cbn [rows_ cols_ data_ Nat.mul Nat.add repeat vset vget nth seq fold_left].
  real_ops.
  replace (exp (- 0 / 2)) with 1 by (replace (- 0 / 2) with 0 by lra; symmetry; apply exp_0).
  unfold solve_linear_system.
  cbn [rows_ cols_ data_ List.length Nat.eqb negb orb seq forward_elimination].
  unfold find_pivot. cbn [Nat.add Nat.sub seq fold_left fst].
  unfold swap_rows. cbn [Nat.eqb].
  unfold mget at 1. cbn [rows_ cols_ data_ Nat.mul Nat.add vget nth].
  unfold singular_eps. real_ops.
  rewrite (@Rltb_ge (Rabs _) _) by (rewrite Rabs_pos_eq by lra; lra).
  unfold eliminate_column. cbn [Nat.add Nat.sub seq fold_left rbind].
  eexists; reflexivity.
Qed.

Lemma regression_witness :
  (0 <= 0)%Z
  /\ (0 < Z.to_nat (0 + 1))%nat
  /\ exists c,
       regression [0; 0] [1; 3] 0 = Ok c
       /\ List.length c = Z.to_nat (0 + 1)
       /\ Rsum (map (fun k => vget 0 (basis_functions (vget 0 [0; 0] k) 0) 0
                             * (vget 0 [1; 3] k - evaluate_polynomial c (vget 0 [0; 0] k)))
                  (seq 0 (List.length [0; 0]))) = 0.
Proof.
  assert (H0 : (0 <= 0)%Z) by lia.
  assert (H1 : (0 < Z.to_nat (0 + 1))%nat) by (simpl; lia).
  split; [exact H0|]. split; [exact H1|].
  destruct sample_regression as [c Hc].
  exists c. split; [exact Hc|].
  exact (@regression_residuals_orthogonal [0; 0] [1; 3] c 0%Z 0%nat H0 Hc H1).
Defined.

(** ** The Laguerre basis of LSMC *)

Section BasisReal.

Local Open Scope R_scope.

Variable x : R.

Definition laguerre_step (basis : list R) (i : nat) : list R :=
  vset basis i
    (((2 * IZR (Z.of_nat i) - 1 - x) * vget 0 basis (i - 1)
      - (IZR (Z.of_nat i) - 1) * vget 0 basis (i - 2)) / IZR (Z.of_nat i)).

Lemma laguerre_loop (q : nat) (basis : list R) :
  (4 + q <= List.length basis)%nat ->
  List.length (fold_left laguerre_step (seq 4 q) basis) = List.length basis
  /\ (forall j, (j < 4)%nat ->
        vget 0 (fold_left laguerre_step (seq 4 q) basis) j = vget 0 basis j)
  /\ forall j, (4 <= j)%nat -> (j < 4 + q)%nat ->
       vget 0 (fold_left laguerre_step (seq 4 q) basis) j
       = ((2 * IZR (Z.of_nat j) - 1 - x)
            * vget 0 (fold_left laguerre_step (seq 4 q) basis) (j - 1)
          - (IZR (Z.of_nat j) - 1)
            * vget 0 (fold_left laguerre_step (seq 4 q) basis) (j - 2))
         / IZR (Z.of_nat j).
Proof.
  induction q as [|q IH]; intros Hq.
  - cbn [seq fold_left]. repeat split; intros; lia.
  - destruct (IH ltac:(lia)) as (Hl & Hlow & Hrec).
    rewrite seq_S, fold_left_app. cbn [fold_left].
    set (b := fold_left laguerre_step (seq 4 q) basis) in *.
    unfold laguerre_step at 1 2 3 4 5.
    split; [rewrite length_vset; exact Hl|]. split.
    + intros j Hj. rewrite vget_vset_other by lia. apply Hlow; exact Hj.
    + intros j H4 Hj. destruct (Nat.eq_dec j (4 + q)) as [->|Hne].
      * rewrite vget_vset_same by lia. rewrite !vget_vset_other by lia. reflexivity.
      * rewrite !vget_vset_other by lia. apply Hrec; lia.
Qed.

(** X15: the basis of LSMCModel::basis_functions is the Laguerre family
    weighted by exp(-x/2): it has degree + 1 entries, starts with exp(-x/2)
    and exp(-x/2)*(1 - x), and every later entry, the hard-coded entries 2
    and 3 as well as those of the loop, satisfies the three-term recurrence
    i*b[i] = (2i - 1 - x)*b[i-1] - (i - 1)*b[i-2] (exact real arithmetic). *)
Theorem basis_functions_laguerre (degree : Z) (i : nat) :
  (2 <= i)%nat -> (Z.of_nat i <= degree)%Z ->
  List.length (basis_functions x degree) = Z.to_nat (degree + 1)
  /\ vget 0 (basis_functions x degree) 0 = exp (- x / 2)
  /\ vget 0 (basis_functions x degree) 1 = exp (- x / 2) * (1 - x)
  /\ INR i * vget 0 (basis_functions x degree) i
     = (2 * INR i - 1 - x) * vget 0 (basis_functions x degree) (i - 1)
       - (INR i - 1) * vget 0 (basis_functions x degree) (i - 2).
Proof.
  intros Hi Hd. unfold basis_functions.
  rewrite (proj2 (Z.leb_le 1 degree)), (proj2 (Z.leb_le 2 degree)) by lia.
  change (fun basis i0 =>
            vset basis i0
              (((d2 * dnat i0 - d1 - x) * vget d0 basis (i0 - 1)
                - (dnat i0 - d1) * vget d0 basis (i0 - 2)) / dnat i0)%D)
    with laguerre_step.
  real_ops. rewrite !INR_IZR_INZ.
  set (e := exp (- x / 2)).
  remember (Z.to_nat (degree + 1)) as m eqn:Hm.
  destruct (Z.leb_spec 3 degree) as [H3|H3].
  - destruct m as [|[|[|[|m]]]]; try lia.
    cbn [repeat vset].
    destruct (@laguerre_loop (Z.to_nat degree - 3)
                (e :: e * (1 - x) :: e * (1 - 2 * x + x * x / 2)
                   :: e * (1 - 3 * x + 3 / 2 * x * x - x * x * x / 6) :: repeat 0 m))
      as (Hl & Hlow & Hrec).
    { cbn [List.length]. rewrite repeat_length. lia. }
    split; [rewrite Hl; cbn [List.length]; rewrite repeat_length; reflexivity|].
    split; [rewrite Hlow by lia; reflexivity|].
    split; [rewrite Hlow by lia; reflexivity|].
    destruct (Nat.eq_dec i 2) as [->|Hi2].
    { rewrite !Hlow by lia. cbn [Nat.sub vget nth Z.of_nat Pos.of_succ_nat Pos.succ].
      field. }
    destruct (Nat.eq_dec i 3) as [->|Hi3].
    { rewrite !Hlow by lia. cbn [Nat.sub vget nth Z.of_nat Pos.of_succ_nat Pos.succ].
      field. }
    rewrite (Hrec i) by lia. field.
    apply not_0_IZR. lia.
  - assert (degree = 2%Z) by lia. subst degree.
    assert (i = 2%nat) by lia. subst i.
    destruct m as [|[|[|m]]]; try lia.
    change (Z.to_nat 2 - 3)%nat with 0%nat.
    cbn [repeat vset seq fold_left List.length Nat.sub vget nth Z.of_nat Pos.of_succ_nat
         Pos.succ].
    split; [rewrite repeat_length; reflexivity|].
    split; [reflexivity|]. split; [reflexivity|]. field.
Qed.

End BasisReal.

Lemma basis_functions_witness :
  (2 <= 4)%nat
  /\ (Z.of_nat 4 <= 5)%Z
  /\ INR 4 * vget 0 (basis_functions 1 5) 4
     = (2 * INR 4 - 1 - 1) * vget 0 (basis_functions 1 5) (4 - 1)
       - (INR 4 - 1) * vget 0 (basis_functions 1 5) (4 - 2).
Proof.
  assert (H1 : (2 <= 4)%nat) by lia.
  assert (H2 : (Z.of_nat 4 <= 5)%Z) by (simpl; lia).
  split; [exact H1|]. split; [exact H2|].
  exact (proj2 (proj2 (proj2 (@basis_functions_laguerre 1 5%Z 4%nat H1 H2)))).
Defined.

(** * Closed-form prices and curves *)

(** ** The Black-Scholes formulas *)

Section BlackScholesReal.

Context {SF : SpecialFunctions R}.

Local Open Scope R_scope.

Lemma norm_cdf_opp (x : R) :
  (forall z, derf (- z) = - derf z) -> norm_cdf (- x) = 1 - norm_cdf x.
Proof.
  intros Hodd. unfold norm_cdf. real_ops.
  replace (- x / sqrt 2) with (- (x / sqrt 2)) by (unfold Rdiv; ring).
  rewrite Hodd. field.
Qed.

(** X16: put-call parity of the Black-Scholes engine.  When std::erf is an
    odd function, the prices BlackScholesModel::price returns for a European
    call and a European put with the same strike and expiry, whatever their
    product class, differ by S*exp(-q*T) - K*exp(-r*T) (exact real
    arithmetic). *)
Theorem black_scholes_put_call_parity (call put : Option R) (md : MarketData R) :
  (forall z, derf (- z) = - derf z) ->
  style call = EUROPEAN -> style put = EUROPEAN ->
  type call = CALL -> type put = PUT ->
  strike put = strike call -> expiry put = expiry call ->
  exists c p,
    BlackScholesModel_price call md = Ok c
    /\ BlackScholesModel_price put md = Ok p
    /\ c - p = spot md * exp (- dividend md * expiry call)
               - strike call * exp (- rate md * expiry call).
Proof.
  intros Hodd Hsc Hsp Htc Htp HK HT.
  unfold BlackScholesModel_price. rewrite Hsc, Hsp, Htc, Htp, HK, HT. cbn [OptionStyle_eqb negb].
  eexists; eexists. split; [reflexivity|]. split; [reflexivity|].
  unfold call_price, put_price. cbv zeta.
  rewrite !(norm_cdf_opp _ Hodd). real_ops. ring.
Qed.

(** X17: the Greeks of BlackScholesModel::greeks satisfy the differentiated
    put-call parity.  For a call and a put with the same strike and expiry,
    when std::erf is odd: the deltas differ by exp(-q*T), gamma and vega are
    equal, the daily thetas differ by (q*S*exp(-q*T) - r*K*exp(-r*T))/365
    and the rhos per percent by K*T*exp(-r*T)/100 (exact real
    arithmetic). *)
Theorem black_scholes_greeks_parity (call put : Option R) (md : MarketData R) :
  (forall z, derf (- z) = - derf z) ->
  type call = CALL -> type put = PUT ->
  strike put = strike call -> expiry put = expiry call ->
  let gc := BlackScholesModel_greeks call md in
  let gp := BlackScholesModel_greeks put md in
  let S := spot md in
  let K := strike call in
  let T := expiry call in
  delta gc - delta gp = exp (- dividend md * T)
  /\ gamma gc = gamma gp
  /\ vega gc = vega gp
  /\ greek_theta gc - greek_theta gp
     = (dividend md * S * exp (- dividend md * T) - rate md * K * exp (- rate md * T)) / 365
  /\ greek_rho gc - greek_rho gp = K * T * exp (- rate md * T) / 100.
Proof.
  intros Hodd Htc Htp HK HT. cbv zeta.
  unfold BlackScholesModel_greeks. rewrite Htc, Htp, HK, HT.
  cbn [delta gamma vega greek_theta greek_rho].
  rewrite !(norm_cdf_opp _ Hodd). real_ops.
  repeat split; unfold Rdiv; ring.
Qed.

(** X18: a digital call and a digital put with the same strike, expiry and
    payout are together worth the discounted payout under
    BlackScholesDigitalModel::price, when std::erf is odd (exact real
    arithmetic). *)
Theorem digital_call_put_sum (K T payout : R) (md : MarketData R) :
  (forall z, derf (- z) = - derf z) ->
  exists c p,
    BlackScholesDigitalModel_price
      {| strike := K; expiry := T; type := CALL; style := EUROPEAN;
         product := Digital payout |} md = Ok c
    /\ BlackScholesDigitalModel_price
         {| strike := K; expiry := T; type := PUT; style := EUROPEAN;
            product := Digital payout |} md = Ok p
    /\ c + p = payout * exp (- rate md * T).
Proof.
  intros Hodd. unfold BlackScholesDigitalModel_price. cbn [product type strike expiry].
  eexists; eexists. split; [reflexivity|]. split; [reflexivity|].
  rewrite !(norm_cdf_opp _ Hodd). real_ops. ring.
Qed.

End BlackScholesReal.

Section ImpliedVolatility.

Context {D : Type} {AR : Arith D} {SF : SpecialFunctions D}.
Local Open Scope D_scope.

Definition with_volatility (md : MarketData D) (sigma : D) : MarketData D :=
  {| spot := spot md; rate := rate md; volatility := sigma; dividend := dividend md |}.

Lemma implied_volatility_loop_reprices (fuel : nat) (market_price : D) (o : Option D)
    (md : MarketData D) (initial_guess tolerance sigma0 sigma : D) :
  implied_volatility_loop fuel market_price o md initial_guess tolerance sigma0 = Ok sigma ->
  exists price,
    BlackScholesModel_price o (with_volatility md sigma) = Ok price
    /\ (dabs (price - market_price) <? tolerance) = true.
Proof.
  revert sigma0; induction fuel as [|fuel IH]; intros sigma0; cbn [implied_volatility_loop];
    [discriminate|].
  fold (with_volatility md sigma0).
  destruct (BlackScholesModel_price o (with_volatility md sigma0)) as [price|e] eqn:Hp;
    cbn [rbind]; [|discriminate].
  destruct (dabs (price - market_price) <? tolerance) eqn:Htol.
  - intros E; injection E as <-. exists price. split; assumption.
  - destruct (dabs _ <? singular_eps); [discriminate|]. apply IH.
Qed.

(** X19: a volatility returned by BlackScholesModel::implied_volatility
    reprices the option within the tolerance: the Black-Scholes price at
    the returned volatility (the other market data unchanged) differs from
    the market price by less than the tolerance, as the code compares them;
    in every other case the call ends with an exception. *)
Theorem implied_volatility_reprices (market_price : D) (o : Option D) (md : MarketData D)
    (initial_guess tolerance : D) (max_iterations : Z) (sigma : D) :
  implied_volatility market_price o md initial_guess tolerance max_iterations = Ok sigma ->
  exists price,
    BlackScholesModel_price o (with_volatility md sigma) = Ok price
    /\ (dabs (price - market_price) <? tolerance) = true.
Proof. apply implied_volatility_loop_reprices. Qed.

End ImpliedVolatility.

(** An odd sigmoid with values in (-1, 1) in the place of std::erf, for
    evaluations on concrete inputs: the reals of the Standard Library have
    no error function. *)
Definition odd_sigmoid : SpecialFunctions R := {| derf := fun x => x / (1 + Rabs x) |}.

Lemma odd_sigmoid_odd (z : R) :
  derf (SpecialFunctions := odd_sigmoid) (- z) = - derf (SpecialFunctions := odd_sigmoid) z.
Proof. cbn [derf odd_sigmoid]. rewrite Rabs_Ropp. unfold Rdiv. ring. Qed.

Lemma black_scholes_parity_witness :
  (forall z, derf (SpecialFunctions := odd_sigmoid) (- z)
             = - derf (SpecialFunctions := odd_sigmoid) z)
  /\ style (vanilla 100 1 CALL EUROPEAN) = EUROPEAN
  /\ style (vanilla 100 1 PUT EUROPEAN) = EUROPEAN
  /\ type (vanilla 100 1 CALL EUROPEAN) = CALL
  /\ type (vanilla 100 1 PUT EUROPEAN) = PUT
  /\ strike (vanilla 100 1 PUT EUROPEAN) = strike (vanilla 100 1 CALL EUROPEAN)
  /\ expiry (vanilla 100 1 PUT EUROPEAN) = expiry (vanilla 100 1 CALL EUROPEAN)
  /\ exists c p,
       BlackScholesModel_price (SF := odd_sigmoid) (vanilla 100 1 CALL EUROPEAN)
         sample_market = Ok c
       /\ BlackScholesModel_price (SF := odd_sigmoid) (vanilla 100 1 PUT EUROPEAN)
            sample_market = Ok p
       /\ c - p = spot sample_market
                  * exp (- dividend sample_market * expiry (vanilla 100 1 CALL EUROPEAN))
                  - strike (vanilla 100 1 CALL EUROPEAN)
                    * exp (- rate sample_market * expiry (vanilla 100 1 CALL EUROPEAN)).
Proof.
  split; [exact odd_sigmoid_odd|].
  do 6 (split; [reflexivity|]).
  exact (@black_scholes_put_call_parity odd_sigmoid (vanilla 100 1 CALL EUROPEAN)
           (vanilla 100 1 PUT EUROPEAN) sample_market odd_sigmoid_odd
           eq_refl eq_refl eq_refl eq_refl eq_refl eq_refl).
Defined.

Lemma black_scholes_greeks_witness :
  (forall z, derf (SpecialFunctions := odd_sigmoid) (- z)
             = - derf (SpecialFunctions := odd_sigmoid) z)
  /\ type (vanilla 100 1 CALL EUROPEAN) = CALL
  /\ type (vanilla 100 1 PUT EUROPEAN) = PUT
  /\ strike (vanilla 100 1 PUT EUROPEAN) = strike (vanilla 100 1 CALL EUROPEAN)
  /\ expiry (vanilla 100 1 PUT EUROPEAN) = expiry (vanilla 100 1 CALL EUROPEAN)
  /\ delta (BlackScholesModel_greeks (SF := odd_sigmoid) (vanilla 100 1 CALL EUROPEAN)
              sample_market)
     - delta (BlackScholesModel_greeks (SF := odd_sigmoid) (vanilla 100 1 PUT EUROPEAN)
                sample_market)
     = exp (- dividend sample_market * expiry (vanilla 100 1 CALL EUROPEAN)).
Proof.
  split; [exact odd_sigmoid_odd|].
  do 4 (split; [reflexivity|]).
  exact (proj1 (@black_scholes_greeks_parity odd_sigmoid (vanilla 100 1 CALL EUROPEAN)
                  (vanilla 100 1 PUT EUROPEAN) sample_market odd_sigmoid_odd
                  eq_refl eq_refl eq_refl eq_refl)).
Defined.

Lemma digital_call_put_witness :
  (forall z, derf (SpecialFunctions := odd_sigmoid) (- z)
             = - derf (SpecialFunctions := odd_sigmoid) z)
  /\ exists c p,
       BlackScholesDigitalModel_price (SF := odd_sigmoid)
         {| strike := 100; expiry := 1; type := CALL; style := EUROPEAN;
            product := Digital 10 |} sample_market = Ok c
       /\ BlackScholesDigitalModel_price (SF := odd_sigmoid)
            {| strike := 100; expiry := 1; type := PUT; style := EUROPEAN;
               product := Digital 10 |} sample_market = Ok p
       /\ c + p = 10 * exp (- rate sample_market * 1).
Proof.
  split; [exact odd_sigmoid_odd|].
  exact (@digital_call_put_sum odd_sigmoid 100 1 10 sample_market odd_sigmoid_odd).
Defined.

(** The market price that the Black-Scholes formula gives at volatility 0.3. *)
Definition sample_quote : R :=
  call_price (SF := odd_sigmoid) 100 100 1 (5 / 100) 0 (3 / 10).

Lemma implied_volatility_first_guess {SF : SpecialFunctions R} (fuel : nat)
    (market_price : R) (o : Option R) (md : MarketData R) (initial_guess tolerance price : R) :
  BlackScholesModel_price o (with_volatility md initial_guess) = Ok price ->
  (dabs (price - market_price) <? tolerance)%D = true ->
  implied_volatility_loop (S fuel) market_price o md initial_guess tolerance initial_guess
  = Ok initial_guess.
Proof.
  intros Hp Htol. cbn [implied_volatility_loop]. fold (with_volatility md initial_guess).
  rewrite Hp. cbn [rbind]. rewrite Htol. reflexivity.
Qed.

Lemma sample_implied_volatility :
  implied_volatility (SF := odd_sigmoid) sample_quote (vanilla 100 1 CALL EUROPEAN)
    sample_market (3 / 10) (1 / 1000000) 100
  = Ok (3 / 10).
Proof.
  unfold implied_volatility. change (Z.to_nat 100) with (S 99).
  apply (@implied_volatility_first_guess odd_sigmoid 99 sample_quote
           (vanilla 100 1 CALL EUROPEAN) sample_market (3 / 10) (1 / 1000000) sample_quote).
  - reflexivity.
  - real_ops. rewrite Rminus_diag, Rabs_R0. apply Rltb_lt. lra.
Qed.

Lemma implied_volatility_witness :
  implied_volatility (SF := odd_sigmoid) sample_quote (vanilla 100 1 CALL EUROPEAN)
    sample_market (3 / 10) (1 / 1000000) 100
  = Ok (3 / 10)
  /\ exists price,
       BlackScholesModel_price (SF := odd_sigmoid) (vanilla 100 1 CALL EUROPEAN)
         (with_volatility sample_market (3 / 10)) = Ok price
       /\ (dabs (price - sample_quote) <? 1 / 1000000)%D = true.
Proof.
  split; [exact sample_implied_volatility|].
  exact (@implied_volatility_reprices R R_arith odd_sigmoid sample_quote
           (vanilla 100 1 CALL EUROPEAN) sample_market (3 / 10) (1 / 1000000) 100%Z
           (3 / 10) sample_implied_volatility).
Defined.

(** ** Put-call parity of the semi-analytical Heston price *)

(** X20: the prices HestonModel::price returns for a European call and a
    European put with the same strike and expiry differ by
    S*exp(-q*T) - K*exp(-r*T), whatever the Heston parameters and the
    values of the two integrals (exact real arithmetic). *)
Theorem heston_put_call_parity (params : HestonParams R) (call put : Option R)
    (md : MarketData R) :
  style call = EUROPEAN -> style put = EUROPEAN ->
  type call = CALL -> type put = PUT ->
  strike put = strike call -> expiry put = expiry call ->
  exists c p,
    HestonModel_price params call md = Ok c
    /\ HestonModel_price params put md = Ok p
    /\ c - p = spot md * exp (- dividend md * expiry call)
               - strike call * exp (- rate md * expiry call).
Proof.
  intros Hsc Hsp Htc Htp HK HT.
  unfold HestonModel_price. rewrite Hsc, Hsp. cbn [OptionStyle_eqb negb].
  eexists; eexists. split; [reflexivity|]. split; [reflexivity|].
  unfold price_semi_analytical. rewrite Htc, Htp, HK, HT. cbv zeta.
  generalize (integrate params (spot md) (strike call) (expiry call) (rate md)
                (dividend md) 1).
  generalize (integrate params (spot md) (strike call) (expiry call) (rate md)
                (dividend md) 2).
  intros I2 I1. real_ops. ring.
Qed.

Lemma heston_parity_witness :
  style (vanilla 100 1 CALL EUROPEAN) = EUROPEAN
  /\ style (vanilla 100 1 PUT EUROPEAN) = EUROPEAN
  /\ type (vanilla 100 1 CALL EUROPEAN) = CALL
  /\ type (vanilla 100 1 PUT EUROPEAN) = PUT
  /\ strike (vanilla 100 1 PUT EUROPEAN) = strike (vanilla 100 1 CALL EUROPEAN)
  /\ expiry (vanilla 100 1 PUT EUROPEAN) = expiry (vanilla 100 1 CALL EUROPEAN)
  /\ exists c p,
       HestonModel_price sample_heston (vanilla 100 1 CALL EUROPEAN) sample_market = Ok c
       /\ HestonModel_price sample_heston (vanilla 100 1 PUT EUROPEAN) sample_market = Ok p
       /\ c - p = spot sample_market
                  * exp (- dividend sample_market * expiry (vanilla 100 1 CALL EUROPEAN))
                  - strike (vanilla 100 1 CALL EUROPEAN)
                    * exp (- rate sample_market * expiry (vanilla 100 1 CALL EUROPEAN)).
Proof.
  do 6 (split; [reflexivity|]).
  exact (@heston_put_call_parity sample_heston (vanilla 100 1 CALL EUROPEAN)
           (vanilla 100 1 PUT EUROPEAN) sample_market
           eq_refl eq_refl eq_refl eq_refl eq_refl eq_refl).
Defined.

(** ** Yield curves *)

Lemma discount_factor_positive (c : YieldCurve R) (T : R) : 0 < discount_factor c T.
Proof. unfold discount_factor. real_ops. apply exp_pos. Qed.

(** X21: for every yield curve (flat, interpolated or Nelson-Siegel) and
    T1 < T2, the forward rate of YieldCurve::forward_rate is the rate that
    carries the discount factor from T1 to T2:
    df(T2) = df(T1) * exp(-f(T1,T2) * (T2 - T1)) (exact real arithmetic). *)
Theorem forward_rate_consistent (c : YieldCurve R) (T1 T2 : R) :
  T1 < T2 ->
  discount_factor c T2
  = discount_factor c T1 * exp (- forward_rate c T1 T2 * (T2 - T1)).
Proof.
  intros HT. unfold forward_rate. real_ops. rewrite Rleb_gt by exact HT.
  pose proof (discount_factor_positive c T1) as H1.
  pose proof (discount_factor_positive c T2) as H2.
  replace (- (- ln (discount_factor c T2 / discount_factor c T1) / (T2 - T1)) * (T2 - T1))
    with (ln (discount_factor c T2 / discount_factor c T1)) by (field; lra).
  rewrite exp_ln by (apply Rdiv_lt_0_compat; assumption).
  field. lra.
Qed.

Lemma forward_rate_witness :
  1 < 2
  /\ discount_factor (NelsonSiegelCurve (3 / 100) (- (1 / 100)) (2 / 100) 1) 2
     = discount_factor (NelsonSiegelCurve (3 / 100) (- (1 / 100)) (2 / 100) 1) 1
       * exp (- forward_rate (NelsonSiegelCurve (3 / 100) (- (1 / 100)) (2 / 100) 1) 1 2
              * (2 - 1)).
Proof.
  assert (H : 1 < 2) by lra.
  split; [exact H|].
  exact (@forward_rate_consistent
           (NelsonSiegelCurve (3 / 100) (- (1 / 100)) (2 / 100) 1) 1 2 H).
Defined.

(** ** Linear interpolation *)

Section InterpolationReal.

Local Open Scope R_scope.

Lemma sorted_vget (xs : list R) (i j : nat) :
  StronglySorted Rlt xs -> (i < j)%nat -> (j < List.length xs)%nat ->
  vget 0 xs i < vget 0 xs j.
Proof.
  intros Hs; revert i j; induction Hs as [|h t Hs IH Hall]; intros i j Hij Hj.
  - cbn in Hj; lia.
  - destruct j as [|j]; [lia|]. cbn [List.length] in Hj.
    destruct i as [|i].
    + unfold vget; cbn [nth]. rewrite Forall_forall in Hall.
      apply Hall, nth_In; lia.
    + unfold vget; cbn [nth]. apply IH; lia.
Qed.

Lemma lower_bound_sorted (xs : list R) (k : nat) :
  StronglySorted Rlt xs -> (k < List.length xs)%nat ->
  lower_bound xs (vget 0 xs k) = k.
Proof.
  intros Hs; revert k; induction Hs as [|h t Hs IH Hall]; intros k Hk.
  - cbn in Hk; lia.
  - cbn [lower_bound]. destruct k as [|k].
    + unfold vget; cbn [nth]. real_ops. rewrite Rltb_ge by lra. reflexivity.
    + cbn [List.length] in Hk. unfold vget; cbn [nth]. real_ops.
      rewrite Forall_forall in Hall.
      rewrite Rltb_lt by (apply Hall, nth_In; lia).
      f_equal. apply IH; lia.
Qed.

Lemma back_vget (v : list R) : back v = vget 0 v (List.length v - 1).
Proof.
  unfold back, vget. change (d0 (D := R)) with 0.
  induction v as [|h t IH]; [reflexivity|].
  destruct t as [|a t]; [reflexivity|].
  change (last (h :: a :: t) 0) with (last (a :: t) 0). rewrite IH.
  cbn [List.length Nat.sub nth]. rewrite Nat.sub_0_r. reflexivity.
Qed.

(** X22: a LinearInterpolation built from strictly increasing abscissas
    passes through its data: evaluated at the k-th abscissa it returns the
    k-th ordinate (exact real arithmetic). *)
Theorem interpolate_knots (xs ys : list R) (li : LinearInterpolation R) (k : nat) :
  LinearInterpolation_new xs ys = Ok li ->
  StronglySorted Rlt xs ->
  (k < List.length xs)%nat ->
  interpolate li (vget 0 xs k) = vget 0 ys k.
Proof.
  unfold LinearInterpolation_new.
  destruct (Nat.eqb_spec (List.length xs) (List.length ys)) as [Hl|Hl]; cbn [negb orb];
    [|discriminate].
  destruct (Nat.ltb_spec (List.length xs) 2) as [H2|H2]; [discriminate|].
  intros E; injection E as <-. intros Hs Hk.
  unfold interpolate. cbn [x_ y_]. unfold front. rewrite !back_vget. real_ops.
  destruct (Nat.eq_dec k 0) as [->|Hk0].
  { rewrite Rleb_le by lra. reflexivity. }
  assert (Hfront : vget 0 xs 0 < vget 0 xs k) by (apply sorted_vget; [assumption|lia|lia]).
  rewrite Rleb_gt by exact Hfront.
  destruct (Nat.eq_dec k (List.length xs - 1)) as [Hlast|Hlast].
  { rewrite <- Hlast. rewrite Rleb_le by lra. rewrite <- Hl, <- Hlast. reflexivity. }
  assert (Hback : vget 0 xs k < vget 0 xs (List.length xs - 1))
    by (apply sorted_vget; [assumption|lia|lia]).
  rewrite Rleb_gt by exact Hback.
  rewrite lower_bound_sorted by assumption.
  destruct (Nat.eqb_spec k 0) as [|_]; [contradiction|].
  assert (Hprev : vget 0 xs (k - 1) < vget 0 xs k)
    by (apply sorted_vget; [assumption|lia|lia]).
  field. lra.
Qed.

End InterpolationReal.

Lemma interpolate_witness :
  LinearInterpolation_new [1; 2; 4] [10; 20; 15]
  = Ok {| x_ := [1; 2; 4]; y_ := [10; 20; 15] |}
  /\ StronglySorted Rlt [1; 2; 4]
  /\ (1 < List.length [1; 2; 4])%nat
  /\ interpolate {| x_ := [1; 2; 4]; y_ := [10; 20; 15] |} (vget 0 [1; 2; 4] 1)
     = vget 0 [10; 20; 15] 1.
Proof.
  assert (H1 : LinearInterpolation_new [1; 2; 4] [10; 20; 15]
               = Ok {| x_ := [1; 2; 4]; y_ := [10; 20; 15] |}) by reflexivity.
  assert (H2 : StronglySorted Rlt [1; 2; 4]).
  { repeat constructor; lra. }
  assert (H3 : (1 < List.length [1; 2; 4])%nat) by (cbn; lia).
  split; [exact H1|]. split; [exact H2|]. split; [exact H3|].
  exact (@interpolate_knots [1; 2; 4] [10; 20; 15] _ 1%nat H1 H2 H3).
Defined.

(** ** The inverse normal distribution function *)

Lemma decimal_positive (n : Z) (k : nat) : (0 < n)%Z -> 0 < decimal (D := R) n k.
Proof.
  intros Hn. unfold decimal. real_ops. apply Rdiv_lt_0_compat; apply IZR_lt; lia.
Qed.

(** X23: norm_inv_cdf is antisymmetric about one half: for 0 < p < 1 it
    returns a value at p and at 1 - p, and the two are opposite (exact real
    arithmetic). *)
Theorem norm_inv_cdf_antisymmetric (p : R) :
  0 < p < 1 ->
  exists x, norm_inv_cdf p = Ok x /\ norm_inv_cdf (1 - p) = Ok (- x).
Proof.
  intros [H0 H1]. unfold norm_inv_cdf. real_ops.
  rewrite (@Rleb_gt p 0), (@Rleb_gt 1 p), (@Rleb_gt (1 - p) 0), (@Rleb_gt 1 (1 - p)) by lra.
  cbn [orb]. cbv zeta.
  replace (1 - p - 1 / 2) with (- (p - 1 / 2)) by lra.
  rewrite Rabs_Ropp.
  set (y := p - 1 / 2) in *.
  destruct (Rltb (Rabs y) (decimal 42 2)) eqn:Hc.
  - eexists; split; [reflexivity|]. f_equal. unfold Rdiv.
    replace (- y * - y) with (y * y) by ring. ring.
  - assert (Hy0 : y <> 0).
    { intros Hy. rewrite Hy, Rabs_R0, Rltb_lt in Hc; [discriminate|].
      apply decimal_positive; lia. }
    destruct (Rlt_dec 0 y) as [Hy|Hy].
    + rewrite (@Rltb_lt 0 y), (@Rltb_ge 0 (- y)), (@Rltb_ge y 0), (@Rltb_lt (- y) 0) by lra.
      eexists; split; reflexivity.
    + rewrite (@Rltb_ge 0 y), (@Rltb_lt 0 (- y)), (@Rltb_lt y 0), (@Rltb_ge (- y) 0)
        by lra.
      eexists; split; [reflexivity|].
      replace (1 - (1 - p)) with p by ring. rewrite Ropp_involutive. reflexivity.
Qed.

Lemma norm_inv_cdf_witness :
  0 < 1 / 4 < 1
  /\ exists x, norm_inv_cdf (1 / 4) = Ok x /\ norm_inv_cdf (1 - 1 / 4) = Ok (- x).
Proof.
  assert (H : 0 < 1 / 4 < 1) by lra.
  split; [exact H|].
  exact (@norm_inv_cdf_antisymmetric (1 / 4) H).
Defined.

(** ** The transpose of a matrix *)

Section TransposeFacts.

Context {D : Type} {AR : Arith D}.

(** Filling rows [0 .. q-1] of column [i]. *)
Lemma fill_column_spec (v : nat -> D) (i q : nat) (A : Matrix D) :
  well_formed A -> (i < cols_ A)%nat -> (q <= rows_ A)%nat ->
  let A' := fold_left (fun A j => mset A j i (v j)) (seq 0 q) A in
  well_formed A' /\ rows_ A' = rows_ A /\ cols_ A' = cols_ A
  /\ forall r c, (c < cols_ A)%nat ->
       mget A' r c = if ((c =? i) && (r <? q))%nat then v r else mget A r c.
Proof.
  intros Hwf Hi. cbv zeta. induction q as [|q IH]; intros Hq.
  - cbn [seq fold_left]. repeat (split; [auto|]). intros r c Hc. nat_cases.
  - destruct (IH ltac:(lia)) as (Hwf' & Hr' & Hc' & Hget).
    rewrite seq_S, fold_left_app. cbn [fold_left Nat.add].
    split; [apply well_formed_mset; exact Hwf'|].
    split; [exact Hr'|]. split; [exact Hc'|].
    intros r c Hc. rewrite mget_mset_rect by (rewrite ?Hr', ?Hc'; auto; lia).
    rewrite Hget by exact Hc. nat_cases.
Qed.

Lemma transpose_spec (A : Matrix D) :
  well_formed (transpose A) /\ rows_ (transpose A) = cols_ A
  /\ cols_ (transpose A) = rows_ A
  /\ forall i j, (i < rows_ A)%nat -> (j < cols_ A)%nat ->
       mget (transpose A) j i = mget A i j.
Proof.
  unfold transpose.
  assert (H : forall q, (q <= rows_ A)%nat ->
            let B := fold_left
                       (fun result i =>
                          fold_left (fun result j => mset result j i (mget A i j))
                            (seq 0 (cols_ A)) result)
                       (seq 0 q) (Matrix_new (cols_ A) (rows_ A) d0) in
            well_formed B /\ rows_ B = cols_ A /\ cols_ B = rows_ A
            /\ forall i j, (i < q)%nat -> (j < cols_ A)%nat -> mget B j i = mget A i j).
  { cbv zeta. induction q as [|q IH]; intros Hq.
    - cbn [seq fold_left]. split; [apply repeat_length|]. repeat (split; [reflexivity|]).
      intros i j Hi; lia.
    - destruct (IH ltac:(lia)) as (Hwf & Hr & Hc & Hget).
      rewrite seq_S, fold_left_app. cbn [fold_left Nat.add].
      destruct (@fill_column_spec (fun j => mget A q j) q (cols_ A) _ Hwf ltac:(lia)
                  ltac:(lia)) as (Hwf' & Hr' & Hc' & Hget').
      split; [exact Hwf'|]. split; [lia|]. split; [lia|].
      intros i j Hiq Hj. rewrite Hget' by lia.
      destruct (Nat.eq_dec i q) as [->|Hne]; [nat_cases|].
      nat_cases. apply Hget; lia. }
  destruct (H (rows_ A) (Nat.le_refl _)) as (Hwf & Hr & Hc & Hget). auto.
Qed.

Lemma matrix_ext (A B : Matrix D) :
  well_formed A -> well_formed B -> rows_ A = rows_ B -> cols_ A = cols_ B ->
  (forall i j, (i < rows_ A)%nat -> (j < cols_ A)%nat -> mget A i j = mget B i j) ->
  A = B.
Proof.
  destruct A as [rA cA dA], B as [rB cB dB]. unfold well_formed, mget.
  cbn [rows_ cols_ data_]. intros HA HB <- <- H. f_equal.
  apply (nth_ext _ _ d0 d0); [lia|].
  intros k Hk. rewrite HA in Hk.
  assert (Hc : (0 < cA)%nat) by nia.
  pose proof (Nat.div_mod_eq k cA) as Hdiv.
  pose proof (Nat.mod_upper_bound k cA ltac:(lia)) as Hmod.
  assert (Hi : (k / cA < rA)%nat) by (apply Nat.Div0.div_lt_upper_bound; nia).
  specialize (H (k / cA)%nat (k mod cA)%nat Hi Hmod).
  replace (k / cA * cA + k mod cA)%nat with k in H by nia.
  exact H.
Qed.

(** X24: Matrix::transpose mirrors the entries, and transposing twice gives
    back the matrix: for a matrix that satisfies the class invariant, entry
    (j, i) of the transpose is entry (i, j) of the matrix, and the transpose
    of the transpose is the matrix itself. *)
Theorem transpose_involutive (A : Matrix D) :
  well_formed A ->
  (forall i j, (i < rows_ A)%nat -> (j < cols_ A)%nat ->
     mget (transpose A) j i = mget A i j)
  /\ transpose (transpose A) = A.
Proof.
  intros Hwf.
  destruct (transpose_spec A) as (HwfB & HrB & HcB & HB).
  destruct (transpose_spec (transpose A)) as (HwfC & HrC & HcC & HC).
  split; [exact HB|].
  apply matrix_ext; try assumption; try lia.
  intros i j Hi Hj. rewrite HC by lia. apply HB; lia.
Qed.

End TransposeFacts.

Lemma transpose_witness :
  well_formed sample_matrix /\ transpose (transpose sample_matrix) = sample_matrix.
Proof.
  assert (H : well_formed sample_matrix) by reflexivity.
  split; [exact H|].
  exact (proj2 (@transpose_involutive R R_arith sample_matrix H)).
Defined.

(** ** Sample statistics *)

Section StatisticsReal.

Local Open Scope R_scope.

Lemma map_vget_seq (x : list R) :
  map (fun i => vget 0 x i) (seq 0 (List.length x)) = x.
Proof.
  apply (nth_ext _ _ 0 0); [rewrite length_map, length_seq; reflexivity|].
  intros k Hk. rewrite length_map, length_seq in Hk.
  change (nth k (map (fun i => vget 0 x i) (seq 0 (List.length x))) 0)
    with (vget 0 (map (fun i => vget 0 x i) (seq 0 (List.length x))) k).
  rewrite vget_map_seq by exact Hk. reflexivity.
Qed.

Lemma Rsum_squares_nonneg {A : Type} (f : A -> R) (l : list A) :
  0 <= Rsum (map (fun a => f a * f a) l).
Proof.
  induction l as [|a l IH]; simpl; [lra|]. pose proof (Rle_0_sqr (f a)) as H.
  unfold Rsqr in H. change (fold_right Rplus 0) with Rsum. lra.
Qed.

(** X25: the sample covariance of a vector with itself is its sample
    variance, and the variance is never negative (vectors of at least two
    elements, exact real arithmetic). *)
Theorem covariance_self_variance (x : list R) :
  (1 < List.length x)%nat ->
  covariance x x = Ok (variance x) /\ 0 <= variance x.
Proof.
  intros Hn. unfold covariance, variance.
  rewrite Nat.eqb_refl. destruct (Nat.leb_spec (List.length x) 1) as [|_]; [lia|].
  cbn [negb orb]. cbv zeta.
  rewrite (Rfold_sum (fun i => ((vget d0 x i - mean x) * (vget d0 x i - mean x))%D)).
  rewrite (Rfold_sum (fun v => ((v - mean x) * (v - mean x))%D)).
  assert (Hpos : 0 < dnat (D := R) (List.length x - 1)).
  { rewrite dnat_INR. apply lt_0_INR. lia. }
  split.
  - do 3 f_equal.
    replace (map (fun v => ((v - mean x) * (v - mean x))%D) x)
      with (map (fun v => ((v - mean x) * (v - mean x))%D)
              (map (fun i => vget 0 x i) (seq 0 (List.length x))))
      by (rewrite map_vget_seq; reflexivity).
    rewrite map_map. reflexivity.
  - real_ops. apply Rmult_le_pos; [|apply Rlt_le, Rinv_0_lt_compat; exact Hpos].
    rewrite Rplus_0_l. apply (Rsum_squares_nonneg (fun v => v - mean x)).
Qed.

End StatisticsReal.

Lemma covariance_witness :
  (1 < List.length [1; 2; 6])%nat
  /\ covariance [1; 2; 6] [1; 2; 6] = Ok (variance [1; 2; 6])
  /\ 0 <= variance [1; 2; 6].
Proof.
  assert (H : (1 < List.length [1; 2; 6])%nat) by (cbn; lia).
  split; [exact H|].
  exact (@covariance_self_variance [1; 2; 6] H).
Defined.

(** ** Put-call parity on simulated paths *)

Section MonteCarloParity.

Context {RS : RandomStream R}.

Local Open Scope R_scope.

Lemma payoff_call_minus_put (K T s : R) :
  payoff (vanilla K T CALL EUROPEAN) s - payoff (vanilla K T PUT EUROPEAN) s = s - K.
Proof.
  unfold payoff, Option_payoff, vanilla. cbn [product type strike].
  rewrite !dmax_Rmax. real_ops.
  destruct (Rle_dec K s).
  - rewrite (Rmax_left (s - K)), (Rmax_right (K - s)) by lra. lra.
  - rewrite (Rmax_right (s - K)), (Rmax_left (K - s)) by lra. lra.
Qed.

(** X26: put-call parity of the plain Monte Carlo engine.  Without
    antithetic variates and from the same generator state, the prices of a
    European call and put with the same strike and expiry differ by the
    discounted difference between the mean terminal spot of the simulated
    paths and the strike (exact real arithmetic). *)
Theorem monte_carlo_put_call_parity (cfg : MonteCarloConfig) (K T : R)
    (md : MarketData R) (g : RandomGenerator) :
  use_antithetic cfg = false ->
  (0 < num_paths cfg)%nat ->
  exists c p,
    fst (MonteCarloModel_price cfg (vanilla K T CALL EUROPEAN) md g) = Ok c
    /\ fst (MonteCarloModel_price cfg (vanilla K T PUT EUROPEAN) md g) = Ok p
    /\ c - p
       = exp (- rate md * T)
         * (Rsum (map (fun k => back (path_at (vanilla K T CALL EUROPEAN) md
                                        (num_timesteps cfg) g k))
                    (seq 0 (num_paths cfg)))
            / INR (num_paths cfg) - K).
Proof.
  intros Ha Hn.
  do 2 eexists. split; [apply vanilla_price_R; exact Ha|].
  split; [apply vanilla_price_R; exact Ha|].
  assert (Hn0 : INR (num_paths cfg) <> 0) by (apply not_0_INR; lia).
  rewrite dnat_INR.
  set (n := num_paths cfg) in *.
  set (terminal := fun k => back (path_at (vanilla K T CALL EUROPEAN) md
                                    (num_timesteps cfg) g k)).
  change (fun k => payoff (vanilla K T PUT EUROPEAN)
                     (back (path_at (vanilla K T PUT EUROPEAN) md (num_timesteps cfg) g k)))
    with (fun k => payoff (vanilla K T PUT EUROPEAN) (terminal k)).
  change (fun k => payoff (vanilla K T CALL EUROPEAN)
                     (back (path_at (vanilla K T CALL EUROPEAN) md (num_timesteps cfg) g k)))
    with (fun k => payoff (vanilla K T CALL EUROPEAN) (terminal k)).
  change (fun k => back (path_at (vanilla K T CALL EUROPEAN) md (num_timesteps cfg) g k))
    with terminal.
  assert (Hsum : Rsum (map (fun k => payoff (vanilla K T CALL EUROPEAN) (terminal k))
                         (seq 0 n))
                 = Rsum (map (fun k => payoff (vanilla K T PUT EUROPEAN) (terminal k))
                           (seq 0 n))
                   + (Rsum (map terminal (seq 0 n)) - INR n * K)).
  { replace (INR n * K) with (Rsum (map (fun _ : nat => K) (seq 0 n)))
      by (rewrite Rsum_map_const, length_seq; reflexivity).
    replace (Rsum (map terminal (seq 0 n)) - Rsum (map (fun _ : nat => K) (seq 0 n)))
      with (Rsum (map terminal (seq 0 n)) + -1 * Rsum (map (fun _ : nat => K) (seq 0 n)))
      by ring.
    rewrite <- Rsum_map_scal, <- !Rsum_map_plus.
    apply Rsum_map_ext. intros k _.
    pose proof (payoff_call_minus_put K T (terminal k)). lra. }
  rewrite Hsum. field. exact Hn0.
Qed.

End MonteCarloParity.

Lemma monte_carlo_parity_witness :
  use_antithetic (sample_config false) = false
  /\ (0 < num_paths (sample_config false))%nat
  /\ exists c p,
       fst (MonteCarloModel_price (RS := zero_stream) (sample_config false)
              (vanilla 100 1 CALL EUROPEAN) sample_market (RandomGenerator_new 12345))
       = Ok c
       /\ fst (MonteCarloModel_price (RS := zero_stream) (sample_config false)
                 (vanilla 100 1 PUT EUROPEAN) sample_market (RandomGenerator_new 12345))
          = Ok p
       /\ c - p
          = exp (- rate sample_market * 1)
            * (Rsum (map (fun k => back (path_at (RS := zero_stream)
                                           (vanilla 100 1 CALL EUROPEAN) sample_market
                                           (num_timesteps (sample_config false))
                                           (RandomGenerator_new 12345) k))
                       (seq 0 (num_paths (sample_config false))))
               / INR (num_paths (sample_config false)) - 100).
Proof.
  split; [reflexivity|]. split; [exact sample_config_paths|].
  exact (monte_carlo_put_call_parity (RS := zero_stream) (sample_config false) 100 1
           sample_market (RandomGenerator_new 12345) eq_refl sample_config_paths).
Defined.

(** ** Put-call parity on the binomial lattice *)

Section BinomialParity.

Local Open Scope R_scope.

Lemma Rpower_nat (x : R) (n : nat) : 0 < x -> Rpower x (IZR (Z.of_nat n)) = x ^ n.
Proof. intros Hx. rewrite <- INR_IZR_INZ. apply Rpower_pow; exact Hx. Qed.

Lemma exp_pow_nat (x : R) (n : nat) : exp x ^ n = exp (INR n * x).
Proof.
  induction n as [|n IH].
  - simpl. rewrite Rmult_0_l, exp_0. reflexivity.
  - rewrite S_INR. cbn [pow]. rewrite IH, <- exp_plus. f_equal. ring.
Qed.

Lemma terminal_spot_R (N : nat) (S0 : R) (pr : TreeParams R) (i : nat) :
  0 < u pr -> 0 < d pr ->
  terminal_spot N S0 pr i = S0 * u pr ^ (N - i) * d pr ^ i.
Proof.
  intros Hu Hd. unfold terminal_spot. real_ops.
  rewrite !Rpow_std_pos, !Rpower_nat by assumption. reflexivity.
Qed.

Lemma european_parity_value (N : nat) (K T S0 : R) (pr : TreeParams R) (growth : R) :
  0 < u pr -> 0 < d pr ->
  p pr * u pr + (1 - p pr) * d pr = growth ->
  forall k i, (i + k <= N)%nat ->
    european_value N (vanilla K T CALL EUROPEAN) S0 pr k i
    - european_value N (vanilla K T PUT EUROPEAN) S0 pr k i
    = df pr ^ k * (growth ^ k * (S0 * u pr ^ (N - k - i) * d pr ^ i) - K).
Proof.
  intros Hu Hd Hg. induction k as [|k IH]; intros i Hik.
  - cbn [european_value pow]. rewrite payoff_call_minus_put.
    rewrite terminal_spot_R by assumption. rewrite Nat.sub_0_r. ring.
  - cbn [european_value]. real_ops.
    pose proof (IH i ltac:(lia)) as H1. pose proof (IH (i + 1)%nat ltac:(lia)) as H2.
    replace (N - k - i)%nat with (S (N - S k - i)) in H1 by lia.
    replace (N - k - (i + 1))%nat with (N - S k - i)%nat in H2 by lia.
    match goal with
    | |- df pr * (p pr * ?c0 + (1 - p pr) * ?c1)
         - df pr * (p pr * ?p0 + (1 - p pr) * ?p1) = _ =>
        replace (df pr * (p pr * c0 + (1 - p pr) * c1)
                 - df pr * (p pr * p0 + (1 - p pr) * p1))
          with (df pr * (p pr * (c0 - p0) + (1 - p pr) * (c1 - p1))) by ring
    end.
    rewrite H1, H2, Nat.add_1_r. cbn [pow]. rewrite <- Hg. ring.
Qed.

(** X27: put-call parity on the binomial lattice.  With at least one step
    and a positive volatility step, the prices BinomialTreeModel::price
    returns for a European call and put with the same strike and expiry
    differ by exactly S*exp(-q*T) - K*exp(-r*T), for every number of steps
    (exact real arithmetic). *)
Theorem binomial_put_call_parity (num_steps : nat) (K T : R) (md : MarketData R)
    (c p0 : R) :
  (1 <= num_steps)%nat ->
  0 < volatility md * sqrt (T / IZR (Z.of_nat num_steps)) ->
  BinomialTreeModel_price num_steps (vanilla K T CALL EUROPEAN) md = Ok c ->
  BinomialTreeModel_price num_steps (vanilla K T PUT EUROPEAN) md = Ok p0 ->
  c - p0 = spot md * exp (- dividend md * T) - K * exp (- rate md * T).
Proof.
  intros HN Hx. unfold BinomialTreeModel_price. cbn [style vanilla expiry].
  destruct (calculate_parameters num_steps md T) as [pr|e] eqn:E; cbn [rbind];
    [|discriminate].
  intros Hc Hp. injection Hc as <-. injection Hp as <-.
  rewrite !price_european_root.
  destruct (calculate_parameters_fields_R _ _ _ E) as (_ & _ & Hu & Hd).
  assert (HNR : IZR (Z.of_nat num_steps) <> 0) by (apply not_0_IZR; lia).
  set (step := T / IZR (Z.of_nat num_steps)) in *.
  assert (Hfields : u pr = exp (volatility md * sqrt step)
                    /\ d pr = 1 / exp (volatility md * sqrt step)
                    /\ df pr = exp (- rate md * step)
                    /\ p pr = (exp ((rate md - dividend md) * step)
                               - 1 / exp (volatility md * sqrt step))
                              / (exp (volatility md * sqrt step)
                                 - 1 / exp (volatility md * sqrt step))).
  { unfold calculate_parameters in E. destruct (_ || _); [discriminate|].
    injection E as <-. cbn [u d df p]. real_ops. fold step. auto. }
  destruct Hfields as (Eu & Ed & Edf & Ep).
  assert (Hgrowth : p pr * u pr + (1 - p pr) * d pr
                    = exp ((rate md - dividend md) * step)).
  { rewrite Ep, Eu, Ed.
    pose proof (exp_pos (volatility md * sqrt step)) as He.
    assert (H1 : 1 < exp (volatility md * sqrt step)).
    { rewrite <- exp_0. apply exp_increasing. exact Hx. }
    assert (Hne : exp (volatility md * sqrt step) - 1 / exp (volatility md * sqrt step) <> 0).
    { assert (1 / exp (volatility md * sqrt step) < 1).
      { apply (Rmult_lt_reg_r (exp (volatility md * sqrt step))); [exact He|].
        unfold Rdiv. rewrite Rmult_assoc, Rinv_l by lra. lra. }
      lra. }
    field. split; first [lra | nra]. }
  rewrite (@european_parity_value num_steps K T (spot md) pr _ Hu Hd Hgrowth num_steps 0%nat)
    by lia.
  replace (num_steps - num_steps - 0)%nat with 0%nat by lia. cbn [pow].
  rewrite Edf, !exp_pow_nat, INR_IZR_INZ.
  replace (IZR (Z.of_nat num_steps) * (- rate md * step)) with (- rate md * T)
    by (unfold step; field; exact HNR).
  replace (IZR (Z.of_nat num_steps) * ((rate md - dividend md) * step))
    with ((rate md - dividend md) * T) by (unfold step; field; exact HNR).
  replace (- dividend md * T) with (- rate md * T + (rate md - dividend md) * T) by ring.
  rewrite exp_plus. ring.
Qed.

End BinomialParity.

Lemma binomial_parity_witness :
  (1 <= 1)%nat
  /\ 0 < volatility sample_market * sqrt (1 / IZR (Z.of_nat 1))
  /\ exists c p0,
       BinomialTreeModel_price 1 (vanilla 100 1 CALL EUROPEAN) sample_market = Ok c
       /\ BinomialTreeModel_price 1 (vanilla 100 1 PUT EUROPEAN) sample_market = Ok p0
       /\ c - p0 = spot sample_market * exp (- dividend sample_market * 1)
                   - 100 * exp (- rate sample_market * 1).
Proof.
  split; [lia|]. split; [exact sample_volatility_step|].
  destruct sample_parameters_Ok as [pr Hpr].
  assert (Hc : BinomialTreeModel_price 1 (vanilla 100 1 CALL EUROPEAN) sample_market
               = Ok (price_european 1 (vanilla 100 1 CALL EUROPEAN) sample_market pr)).
  { unfold BinomialTreeModel_price. cbn [expiry vanilla style]. rewrite Hpr; reflexivity. }
  assert (Hp : BinomialTreeModel_price 1 (vanilla 100 1 PUT EUROPEAN) sample_market
               = Ok (price_european 1 (vanilla 100 1 PUT EUROPEAN) sample_market pr)).
  { unfold BinomialTreeModel_price. cbn [expiry vanilla style]. rewrite Hpr; reflexivity. }
  do 2 eexists. split; [exact Hc|]. split; [exact Hp|].
  exact (@binomial_put_call_parity 1 100 1 sample_market _ _ (Nat.le_refl 1)
           sample_volatility_step Hc Hp).
Defined.

(** ** The natural cubic spline *)

Section VectorFill.

Context {A : Type}.

Lemma vector_fill_spec (f : nat -> A) (d : A) (m : nat) (v : list A) :
  (m <= List.length v)%nat ->
  List.length (fold_left (fun v i => vset v i (f i)) (seq 0 m) v) = List.length v
  /\ forall i, (i < m)%nat ->
       vget d (fold_left (fun v i => vset v i (f i)) (seq 0 m) v) i = f i.
Proof.
  induction m as [|m IH]; intros Hm.
  - cbn [seq fold_left]. split; [reflexivity|]. intros i Hi; lia.
  - destruct (IH ltac:(lia)) as [Hl Hg].
    rewrite seq_S, fold_left_app. cbn [fold_left Nat.add].
    split; [rewrite length_vset; exact Hl|].
    intros i Hi. destruct (Nat.eq_dec i m) as [->|Hne].
    + apply vget_vset_same. lia.
    + rewrite vget_vset_other by lia. apply Hg; lia.
Qed.

Lemma pair_fill_split (f g : nat -> A) (l : list nat) (b d : list A) :
  fold_left (fun '(b, d) i => (vset b i (f i), vset d i (g i))) l (b, d)
  = (fold_left (fun v i => vset v i (f i)) l b, fold_left (fun v i => vset v i (g i)) l d).
Proof.
  revert b d; induction l as [|i l IH]; intros b d; cbn [fold_left]; [reflexivity|].
  apply IH.
Qed.

End VectorFill.

Section SplineReal.

Local Open Scope R_scope.

(** X28: a CubicSplineInterpolation accepted by the constructor and built
    from strictly increasing abscissas passes through its data: evaluated at
    the k-th abscissa, operator() returns the k-th ordinate, whatever second
    derivatives the linear solver returned (exact real arithmetic). *)
Theorem spline_knots (xs ys : list R) (sp : CubicSplineInterpolation R) (k : nat) :
  CubicSplineInterpolation_new xs ys = Ok sp ->
  StronglySorted Rlt xs ->
  (k < List.length xs)%nat ->
  spline sp (vget 0 xs k) = vget 0 ys k.
Proof.
  unfold CubicSplineInterpolation_new.
  destruct (Nat.eqb_spec (List.length xs) (List.length ys)) as [Hl|Hl]; cbn [negb orb];
    [|discriminate].
  destruct (Nat.ltb_spec (List.length xs) 2) as [H2|H2]; [discriminate|].
  unfold compute_coefficients.
  set (n := (List.length xs - 1)%nat).
  destruct (@vector_fill_spec R (fun i => vget d0 ys i) 0 (n + 1) (repeat d0 (n + 1)))
    as [_ Ha]; [rewrite repeat_length; lia|].
  set (a := fold_left (fun a i => vset a i (vget d0 ys i)) (seq 0 (n + 1))
              (repeat d0 (n + 1))) in *.
  destruct (@vector_fill_spec R (fun i => (vget d0 xs (i + 1) - vget d0 xs i)%D) 0 n
              (repeat d0 n)) as [_ Hh]; [rewrite repeat_length; lia|].
  set (h := fold_left (fun h i => vset h i (vget d0 xs (i + 1) - vget d0 xs i)%D) (seq 0 n)
              (repeat d0 n)) in *.
  destruct (fold_left _ (seq 1 (n - 1)) _) as [A rhs].
  destruct (solve_linear_system A rhs) as [c|e]; cbn [rbind]; [|discriminate].
  rewrite pair_fill_split.
  destruct (@vector_fill_spec R
              (fun i => ((vget d0 a (i + 1) - vget d0 a i) / vget d0 h i
                         - vget d0 h i * (d2 * vget d0 c i + vget d0 c (i + 1)) / d3)%D)
              0 n (repeat d0 n)) as [_ Hb]; [rewrite repeat_length; lia|].
  destruct (@vector_fill_spec R
              (fun i => ((vget d0 c (i + 1) - vget d0 c i) / (d3 * vget d0 h i))%D)
              0 n (repeat d0 n)) as [_ Hd]; [rewrite repeat_length; lia|].
  intros E; injection E as <-. intros Hs Hk.
  unfold spline. cbn [spline_x_ spline_y_ a_ b_ c_ d_]. unfold front.
  rewrite !back_vget. real_ops.
  destruct (Nat.eq_dec k 0) as [->|Hk0].
  { rewrite Rleb_le by lra. reflexivity. }
  assert (Hfront : vget 0 xs 0 < vget 0 xs k) by (apply sorted_vget; [assumption|lia|lia]).
  rewrite Rleb_gt by exact Hfront.
  destruct (Nat.eq_dec k (List.length xs - 1)) as [Hlast|Hlast].
  { rewrite <- Hlast. rewrite Rleb_le by lra. rewrite <- Hl, <- Hlast. reflexivity. }
  assert (Hback : vget 0 xs k < vget 0 xs (List.length xs - 1))
    by (apply sorted_vget; [assumption|lia|lia]).
  rewrite Rleb_gt by exact Hback.
  rewrite lower_bound_sorted by assumption.
  destruct (Nat.eqb_spec k 0) as [|_]; [contradiction|].
  assert (Hprev : vget 0 xs (k - 1) < vget 0 xs k)
    by (apply sorted_vget; [assumption|lia|lia]).
  rewrite (Hb (k - 1)%nat), (Hd (k - 1)%nat) by (unfold n; lia).
  rewrite !(Ha (k - 1)%nat), !(Hh (k - 1)%nat) by (unfold n; lia).
  replace (k - 1 + 1)%nat with k by lia.
  rewrite (Ha k) by (unfold n; lia). real_ops.
  field. lra.
Qed.

End SplineReal.

(** Evaluation of the solver's loops on a concrete matrix. *)
Ltac matrix_eval :=
  cbv beta iota zeta
      delta [find_pivot eliminate_column swap_rows back_substitution fold_left seq rev app
             repeat Nat.add Nat.sub Nat.mul Nat.eqb mget mset vget vset nth
             rows_ cols_ data_ fst snd dgtb dabs dltb dadd dsub dmul ddiv R_arith
             d0 d1 dZ singular_eps].

Definition tridiagonal : Matrix R :=
  {| rows_ := 3; cols_ := 3; data_ := [1; 0; 0; 1; 4; 1; 0; 0; 1] |}.

Definition tridiagonal_upper : Matrix R :=
  {| rows_ := 3; cols_ := 3; data_ := [1; 0; 0; 0; 4; 1; 0; 0; 1] |}.

Lemma tridiagonal_pivot_0 : find_pivot tridiagonal 3 0 = 0%nat.
Proof.
  unfold tridiagonal. matrix_eval. repeat (decide_Rltb; cbv beta iota). reflexivity.
Qed.

Lemma tridiagonal_column_0 :
  eliminate_column tridiagonal [0; -6; 0] 3 0 = (tridiagonal_upper, [0; -6; 0]).
Proof.
  unfold tridiagonal, tridiagonal_upper. matrix_eval.
  apply f_equal2; [apply f_equal|]; reals_eq.
Qed.

Lemma tridiagonal_pivot_1 : find_pivot tridiagonal_upper 3 1 = 1%nat.
Proof.
  unfold tridiagonal_upper. matrix_eval. repeat (decide_Rltb; cbv beta iota). reflexivity.
Qed.

Lemma tridiagonal_column_1 :
  eliminate_column tridiagonal_upper [0; -6; 0] 3 1 = (tridiagonal_upper, [0; -6; 0]).
Proof.
  unfold tridiagonal_upper. matrix_eval.
  apply f_equal2; [apply f_equal|]; reals_eq.
Qed.

Lemma tridiagonal_pivot_2 : find_pivot tridiagonal_upper 3 2 = 2%nat.
Proof. reflexivity. Qed.

Lemma tridiagonal_column_2 :
  eliminate_column tridiagonal_upper [0; -6; 0] 3 2 = (tridiagonal_upper, [0; -6; 0]).
Proof. reflexivity. Qed.

Lemma tridiagonal_solved :
  solve_linear_system tridiagonal [0; -6; 0] = Ok [0; - (3 / 2); 0].
Proof.
  unfold solve_linear_system.
  change (rows_ tridiagonal) with 3%nat. change (cols_ tridiagonal) with 3%nat.
  cbn [Nat.eqb negb orb List.length seq forward_elimination].
  rewrite tridiagonal_pivot_0. unfold swap_rows at 1. cbn [Nat.eqb].
  replace (dabs (mget tridiagonal 0 0) <? singular_eps)%D with false
    by (unfold tridiagonal; matrix_eval; decide_Rltb; reflexivity).
  rewrite tridiagonal_column_0, tridiagonal_pivot_1. unfold swap_rows at 1. cbn [Nat.eqb].
  replace (dabs (mget tridiagonal_upper 1 1) <? singular_eps)%D with false
    by (unfold tridiagonal_upper; matrix_eval; decide_Rltb; reflexivity).
  rewrite tridiagonal_column_1, tridiagonal_pivot_2. unfold swap_rows at 1. cbn [Nat.eqb].
  replace (dabs (mget tridiagonal_upper 2 2) <? singular_eps)%D with false
    by (unfold tridiagonal_upper; matrix_eval; decide_Rltb; reflexivity).
  rewrite tridiagonal_column_2. cbn [rbind].
  apply f_equal. unfold tridiagonal_upper. matrix_eval. reals_eq.
Qed.

Lemma sample_spline :
  exists sp, CubicSplineInterpolation_new [0; 1; 2] [0; 1; 0] = Ok sp
             /\ c_ sp = [0; - (3 / 2); 0].
Proof.
  unfold CubicSplineInterpolation_new, compute_coefficients.
  cbn [List.length Nat.eqb Nat.ltb Nat.leb negb orb Nat.sub Nat.add seq fold_left repeat
       vset vget nth].
  unfold Matrix_new, mset. cbn [rows_ cols_ data_ Nat.mul Nat.add repeat vset vget nth].
  real_ops.
  replace [1; 0; 0; 1 - 0; 2 * (1 - 0 + (2 - 1)); 2 - 1; 0; 0; 1]
    with [1; 0; 0; 1; 4; 1; 0; 0; 1] by reals_eq.
  replace [0; 3 * ((0 - 1) / (2 - 1) - (1 - 0) / (1 - 0)); 0] with [0; -6; 0] by reals_eq.
  fold tridiagonal. rewrite tridiagonal_solved. cbn [rbind].
  eexists. split; reflexivity.
Qed.

Lemma spline_witness :
  exists sp,
    CubicSplineInterpolation_new [0; 1; 2] [0; 1; 0] = Ok sp
    /\ StronglySorted Rlt [0; 1; 2]
    /\ (1 < List.length [0; 1; 2])%nat
    /\ spline sp (vget 0 [0; 1; 2] 1) = vget 0 [0; 1; 0] 1.
Proof.
  destruct sample_spline as [sp [Hsp _]].
  assert (H2 : StronglySorted Rlt [0; 1; 2]) by (repeat constructor; lra).
  assert (H3 : (1 < List.length [0; 1; 2])%nat) by (cbn; lia).
  exists sp. split; [exact Hsp|]. split; [exact H2|]. split; [exact H3|].
  exact (@spline_knots [0; 1; 2] [0; 1; 0] sp 1%nat Hsp H2 H3).
Defined.

(** ** The interpolated volatility surface *)

Section SurfaceReal.

Local Open Scope R_scope.

Lemma bracket_sorted (v : list R) (k : nat) :
  StronglySorted Rlt v -> (2 <= List.length v)%nat -> (k < List.length v)%nat ->
  bracket v (vget 0 v k) = if (k =? 0)%nat then 1%nat else k.
Proof.
  intros Hs H2 Hk. unfold bracket, front. rewrite back_vget. real_ops.
  rewrite lower_bound_sorted by assumption.
  set (last := (List.length v - 1)%nat).
  destruct (Nat.eqb_spec k 0) as [->|Hk0].
  - assert (vget 0 v 0 < vget 0 v last)
      by (apply sorted_vget; [assumption|unfold last; lia|unfold last; lia]).
    rewrite (@Rleb_le (vget 0 v 0) (vget 0 v 0)), (@Rleb_gt (vget 0 v last) (vget 0 v 0))
      by lra.
    reflexivity.
  - assert (vget 0 v 0 < vget 0 v k) by (apply sorted_vget; [assumption|lia|lia]).
    rewrite (@Rleb_gt (vget 0 v k) (vget 0 v 0)) by assumption.
    destruct (Nat.eq_dec k last) as [Hlast|Hlast].
    + rewrite <- Hlast. rewrite Rleb_le by lra. reflexivity.
    + assert (vget 0 v k < vget 0 v last)
        by (apply sorted_vget; [assumption|unfold last in *; lia|unfold last; lia]).
      rewrite Rleb_gt by assumption. reflexivity.
Qed.

Lemma size_t_pred_small (i : nat) :
  (1 <= i)%nat -> (Z.of_nat i < 2 ^ 64)%Z -> size_t_pred i = (i - 1)%nat.
Proof.
  intros H1 H2. unfold size_t_pred. rewrite Z.mod_small by lia. lia.
Qed.

Lemma size_t_succ_small (i : nat) :
  (Z.of_nat i + 1 < 2 ^ 64)%Z -> size_t_succ i = (i + 1)%nat.
Proof.
  intros H. unfold size_t_succ. rewrite Z.mod_small by lia. lia.
Qed.

(** The weight of the lower neighbour at a grid point: one at the first
    point, zero at the others. *)
Lemma node_weight (v : list R) (k : nat) :
  StronglySorted Rlt v -> (2 <= List.length v)%nat -> (k < List.length v)%nat ->
  (Z.of_nat (List.length v) < 2 ^ 64)%Z ->
  let k1 := size_t_pred (bracket v (vget 0 v k)) in
  let k2 := size_t_succ k1 in
  let w := (vget 0 v k2 - vget 0 v k) / (vget 0 v k2 - vget 0 v k1) in
  (k = 0%nat /\ k1 = 0%nat /\ w = 1) \/ (k <> 0%nat /\ k2 = k /\ w = 0).
Proof.
  intros Hs H2 Hk Hsize. cbv zeta. rewrite bracket_sorted by assumption.
  destruct (Nat.eqb_spec k 0) as [->|Hk0].
  - left. rewrite size_t_pred_small by lia. cbn [Nat.sub].
    rewrite size_t_succ_small by lia. cbn [Nat.add].
    assert (vget 0 v 0 < vget 0 v 1) by (apply sorted_vget; [assumption|lia|lia]).
    split; [reflexivity|]. split; [reflexivity|]. field. lra.
  - right. rewrite size_t_pred_small by lia. rewrite size_t_succ_small by lia.
    replace (k - 1 + 1)%nat with k by lia.
    split; [assumption|]. split; [reflexivity|]. unfold Rdiv. ring.
Qed.

(** X29: the interpolated volatility surface passes through its grid.
    For strictly increasing strikes and maturities, at least two of each,
    InterpolatedVolatilitySurface::volatility at the a-th strike and the
    b-th maturity is the quoted volatility volatilities[b][a] (exact real
    arithmetic, vectors shorter than 2^64). *)
Theorem surface_volatility_nodes (strikes maturities : list R) (vols : list (list R))
    (s : InterpolatedVolatilitySurface R) (a b : nat) :
  InterpolatedVolatilitySurface_new strikes maturities vols = Ok s ->
  StronglySorted Rlt strikes -> StronglySorted Rlt maturities ->
  (2 <= List.length strikes)%nat -> (2 <= List.length maturities)%nat ->
  (Z.of_nat (List.length strikes) < 2 ^ 64)%Z ->
  (Z.of_nat (List.length maturities) < 2 ^ 64)%Z ->
  (a < List.length strikes)%nat -> (b < List.length maturities)%nat ->
  surface_volatility s (vget 0 strikes a) (vget 0 maturities b)
  = vget 0 (vget [] vols b) a.
Proof.
  unfold InterpolatedVolatilitySurface_new.
  destruct (negb _); [discriminate|]. destruct (existsb _ _); [discriminate|].
  intros E; injection E as <-.
  intros HsK HsT HK HT HKs HTs Ha Hb.
  unfold surface_volatility, bilinear_interpolation.
  cbn [strikes_ maturities_ volatilities_]. cbv zeta.
  pose proof (node_weight HsK HK Ha HKs) as HwK.
  pose proof (node_weight HsT HT Hb HTs) as HwT.
  cbv zeta in HwK, HwT. real_ops.
  destruct HwK as [(Ha0 & Hk1 & HwK)|(Ha0 & Hk2 & HwK)];
    destruct HwT as [(Hb0 & Ht1 & HwT)|(Hb0 & Ht2 & HwT)];
    rewrite HwK, HwT; try rewrite Hk2; try rewrite Ht2; try rewrite Hk1; try rewrite Ht1;
    try rewrite Ha0; try rewrite Hb0; ring.
Qed.

End SurfaceReal.

Lemma surface_witness :
  InterpolatedVolatilitySurface_new [90; 100; 110] [1; 2]
    [[25 / 100; 20 / 100; 22 / 100]; [24 / 100; 21 / 100; 23 / 100]]
  = Ok {| strikes_ := [90; 100; 110]; maturities_ := [1; 2];
          volatilities_ := [[25 / 100; 20 / 100; 22 / 100];
                            [24 / 100; 21 / 100; 23 / 100]] |}
  /\ StronglySorted Rlt [90; 100; 110]
  /\ StronglySorted Rlt [1; 2]
  /\ (2 <= List.length [90; 100; 110])%nat
  /\ (2 <= List.length [1; 2])%nat
  /\ (Z.of_nat (List.length [90; 100; 110]) < 2 ^ 64)%Z
  /\ (Z.of_nat (List.length [1; 2]) < 2 ^ 64)%Z
  /\ (1 < List.length [90; 100; 110])%nat
  /\ (1 < List.length [1; 2])%nat
  /\ surface_volatility
       {| strikes_ := [90; 100; 110]; maturities_ := [1; 2];
          volatilities_ := [[25 / 100; 20 / 100; 22 / 100];
                            [24 / 100; 21 / 100; 23 / 100]] |}
       (vget 0 [90; 100; 110] 1) (vget 0 [1; 2] 1)
     = vget 0 (vget [] [[25 / 100; 20 / 100; 22 / 100]; [24 / 100; 21 / 100; 23 / 100]] 1) 1.
Proof.
  assert (H1 : InterpolatedVolatilitySurface_new [90; 100; 110] [1; 2]
                 [[25 / 100; 20 / 100; 22 / 100]; [24 / 100; 21 / 100; 23 / 100]]
               = Ok {| strikes_ := [90; 100; 110]; maturities_ := [1; 2];
                       volatilities_ := [[25 / 100; 20 / 100; 22 / 100];
                                         [24 / 100; 21 / 100; 23 / 100]] |})
    by reflexivity.
  assert (H2 : StronglySorted Rlt [90; 100; 110]) by (repeat constructor; lra).
  assert (H3 : StronglySorted Rlt [1; 2]) by (repeat constructor; lra).
  assert (H4 : (2 <= List.length [90; 100; 110])%nat) by (cbn; lia).
  assert (H5 : (2 <= List.length [1; 2])%nat) by (cbn; lia).
  assert (H6 : (Z.of_nat (List.length [90; 100; 110]) < 2 ^ 64)%Z) by (cbn; lia).
  assert (H7 : (Z.of_nat (List.length [1; 2]) < 2 ^ 64)%Z) by (cbn; lia).
  assert (H8 : (1 < List.length [90; 100; 110])%nat) by (cbn; lia).
  assert (H9 : (1 < List.length [1; 2])%nat) by (cbn; lia).
  repeat (split; [assumption|]).
  exact (@surface_volatility_nodes [90; 100; 110] [1; 2]
           [[25 / 100; 20 / 100; 22 / 100]; [24 / 100; 21 / 100; 23 / 100]] _ 1%nat 1%nat
           H1 H2 H3 H4 H5 H6 H7 H8 H9).
Defined.

(** ** The Cholesky decomposition *)

Lemma rfold_app {A B : Type} (f : A -> B -> result A) (l1 l2 : list B) (a : A) :
  rfold f (l1 ++ l2) a = rbind (rfold f l1 a) (rfold f l2).
Proof.
  revert a; induction l1 as [|x l1 IH]; intros a; cbn [app rfold rbind]; [reflexivity|].
  destruct (f a x) as [a'|e]; cbn [rbind]; [apply IH|reflexivity].
Qed.

Section CholeskyReal.

Local Open Scope R_scope.

Variables (A : Matrix R) (n : nat).

(** The entries written before entry [(i, j)]: the rows above [i] up to
    their diagonal, and row [i] left of column [j]. *)
Definition written (i j i' j' : nat) : Prop :=
  ((i' < i)%nat /\ (j' <= i')%nat) \/ (i' = i /\ (j' < j)%nat).

Definition partial_sum (L : Matrix R) (i' j' : nat) : R :=
  Rsum (map (fun k => mget L i' k * mget L j' k) (seq 0 (j' + 1))).

Definition cholesky_invariant (L : Matrix R) (i j : nat) : Prop :=
  square n L
  /\ (forall i' j', (i' < n)%nat -> written i j i' j' -> partial_sum L i' j' = mget A i' j')
  /\ (forall i', (i' < n)%nat -> written i j i' i' -> 0 < mget L i' i')
  /\ (forall i' j', (i' < n)%nat -> (j' < n)%nat -> ~ written i j i' j' -> mget L i' j' = 0).

Lemma cholesky_update (L : Matrix R) (i j : nat) (x : R) :
  cholesky_invariant L i j -> (j <= i)%nat -> (i < n)%nat ->
  Rsum (map (fun k => mget L i k * mget L j k) (seq 0 j))
  + x * (if (i =? j)%nat then x else mget L j j) = mget A i j ->
  (i = j -> 0 < x) ->
  cholesky_invariant (mset L i j x) i (j + 1).
Proof.
  intros (Hsq & Hsum & Hdiag & Hzero) Hji Hi Hx Hpos.
  assert (Hget : forall i' j', (i' < n)%nat -> (j' < n)%nat ->
                   mget (mset L i j x) i' j'
                   = if ((i =? i') && (j =? j'))%nat then x else mget L i' j').
  { intros i' j' Hi' Hj'. apply (@mget_mset R _ n); try assumption; lia. }
  split; [apply square_mset; exact Hsq|]. split; [|split].
  - intros i' j' Hi' Hw. unfold partial_sum.
    destruct (Nat.eq_dec i' i) as [->|Hne]; [destruct (Nat.eq_dec j' j) as [->|Hnj]|].
    + rewrite Nat.add_1_r, seq_S, map_app, Rsum_app. cbn [map Rsum fold_right Nat.add].
      rewrite <- Hx. rewrite !Hget by lia. rewrite !Nat.eqb_refl. cbn [andb].
      rewrite Rplus_0_r. f_equal.
      * apply Rsum_map_ext. intros k Hk. apply in_seq in Hk.
        rewrite !Hget by lia. nat_cases.
      * destruct (Nat.eqb_spec i j); cbn [andb]; reflexivity.
    + assert (Hw' : written i j i j') by (destruct Hw as [[? ?]|[? ?]]; [lia|right; lia]).
      rewrite <- (Hsum i j' Hi' Hw'). unfold partial_sum.
      apply Rsum_map_ext. intros k Hk. apply in_seq in Hk.
      destruct Hw' as [[? ?]|[_ ?]]; [lia|].
      rewrite !Hget by lia. nat_cases.
    + assert (Hw' : written i j i' j') by (destruct Hw as [[? ?]|[? ?]]; [left; lia|lia]).
      rewrite <- (Hsum i' j' Hi' Hw'). unfold partial_sum.
      apply Rsum_map_ext. intros k Hk. apply in_seq in Hk.
      destruct Hw' as [[? ?]|[? ?]]; [|lia].
      rewrite !Hget by lia. nat_cases.
  - intros i' Hi' Hw. rewrite Hget by lia.
    destruct (Nat.eqb_spec i i') as [<-|Hne]; cbn [andb].
    + destruct (Nat.eqb_spec j i) as [->|Hnj]; [apply Hpos; reflexivity|].
      apply Hdiag; [exact Hi|]. destruct Hw as [[? ?]|[_ ?]]; [lia|right; lia].
    + apply Hdiag; [exact Hi'|]. destruct Hw as [[? ?]|[? ?]]; [left; lia|lia].
  - intros i' j' Hi' Hj' Hw. rewrite Hget by lia.
    destruct (Nat.eqb_spec i i') as [<-|Hne]; cbn [andb].
    + destruct (Nat.eqb_spec j j') as [<-|Hnj].
      * exfalso. apply Hw. right. lia.
      * apply Hzero; try assumption. intros [[? ?]|[_ ?]]; [lia|]. apply Hw. right. lia.
    + apply Hzero; try assumption. intros [[? ?]|[? ?]]; [|lia]. apply Hw. left. lia.
Qed.

Lemma cholesky_entry_invariant (L L' : Matrix R) (i j : nat) :
  cholesky_invariant L i j -> (j <= i)%nat -> (i < n)%nat ->
  cholesky_entry A i L j = Ok L' ->
  cholesky_invariant L' i (j + 1).
Proof.
  intros Hinv Hji Hi. unfold cholesky_entry.
  rewrite (Rfold_sum (fun k => (mget L i k * mget L j k)%D)). real_ops.
  rewrite Rplus_0_l.
  set (sum := Rsum (map (fun k => mget L i k * mget L j k) (seq 0 j))).
  destruct (Nat.eqb_spec i j) as [<-|Hne].
  - unfold Rleb. destruct (Rle_dec (mget A i i - sum) 0) as [|Hval]; [discriminate|].
    intros E; injection E as <-.
    apply cholesky_update; try assumption.
    + rewrite Nat.eqb_refl. fold sum. rewrite sqrt_sqrt by lra. ring.
    + intros _. apply sqrt_lt_R0. lra.
  - intros E; injection E as <-.
    assert (Hjj : 0 < mget L j j).
    { destruct Hinv as (_ & _ & Hdiag & _). apply Hdiag; [lia|]. left. lia. }
    apply cholesky_update; try assumption.
    + destruct (Nat.eqb_spec i j); [contradiction|]. fold sum. field. lra.
    + intros ->; contradiction.
Qed.

Lemma cholesky_row_invariant (i q : nat) :
  (q <= i + 1)%nat -> (i < n)%nat ->
  forall L L', cholesky_invariant L i 0 ->
    rfold (cholesky_entry A i) (seq 0 q) L = Ok L' ->
    cholesky_invariant L' i q.
Proof.
  intros Hq Hi L. induction q as [|q IH]; intros L' Hinv.
  - cbn [seq rfold]. intros E; injection E as <-. exact Hinv.
  - rewrite seq_S, rfold_app. cbn [Nat.add].
    destruct (rfold (cholesky_entry A i) (seq 0 q) L) as [L1|e] eqn:E1; cbn [rbind rfold];
      [|discriminate].
    destruct (cholesky_entry A i L1 q) as [L2|e] eqn:E2; cbn [rbind]; [|discriminate].
    intros E; injection E as <-.
    replace (S q) with (q + 1)%nat by lia.
    apply (@cholesky_entry_invariant L1 L2 i q); try assumption; try lia.
    apply IH; [lia|exact Hinv|reflexivity].
Qed.

Lemma cholesky_next_row (L : Matrix R) (i : nat) :
  cholesky_invariant L i (i + 1) -> cholesky_invariant L (i + 1) 0.
Proof.
  intros (Hsq & Hsum & Hdiag & Hzero).
  assert (Heq : forall i' j', written (i + 1) 0 i' j' <-> written i (i + 1) i' j').
  { intros i' j'. unfold written. split.
    - intros [[? ?]|[? ?]]; [|lia].
      destruct (Nat.eq_dec i' i); [right; lia|left; lia].
    - intros [[? ?]|[? ?]]; left; lia. }
  split; [exact Hsq|]. split; [|split].
  - intros i' j' Hi' Hw. apply Hsum; [exact Hi'|]. apply Heq; exact Hw.
  - intros i' Hi' Hw. apply Hdiag; [exact Hi'|]. apply Heq; exact Hw.
  - intros i' j' Hi' Hj' Hw. apply Hzero; try assumption. intros H; apply Hw, Heq, H.
Qed.

Lemma cholesky_rows_invariant (q : nat) :
  (q <= n)%nat ->
  forall L', rfold (fun L i => rfold (cholesky_entry A i) (seq 0 (i + 1)) L) (seq 0 q)
               (Matrix_new n n d0) = Ok L' ->
    cholesky_invariant L' q 0.
Proof.
  induction q as [|q IH]; intros Hq L'.
  - cbn [seq rfold]. intros E; injection E as <-.
    split; [repeat split; apply repeat_length|]. split; [|split].
    + intros i' j' _ [[? ?]|[? ?]]; lia.
    + intros i' _ [[? ?]|[? ?]]; lia.
    + intros i' j' Hi' Hj' _. unfold mget, Matrix_new. cbn [cols_ data_].
      apply vget_repeat. nia.
  - rewrite seq_S, rfold_app. cbn [Nat.add].
    destruct (rfold _ (seq 0 q) (Matrix_new n n d0)) as [L1|e] eqn:E1; cbn [rbind rfold];
      [|discriminate].
    destruct (rfold (cholesky_entry A q) (seq 0 (q + 1)) L1) as [L2|e] eqn:E2;
      cbn [rbind]; [|discriminate].
    intros E; injection E as <-.
    replace (S q) with (q + 1)%nat by lia.
    apply cholesky_next_row.
    apply (@cholesky_row_invariant q (q + 1) ltac:(lia) ltac:(lia) L1 L2); [|exact E2].
    apply IH; [lia|reflexivity].
Qed.

End CholeskyReal.

(** X30: a matrix L returned by cholesky_decomposition is a Cholesky factor
    of the lower triangle of the matrix passed in: L is square of the same
    size, zero above the diagonal, positive on the diagonal, and row i of L
    times row j of L is the entry (i, j) of the matrix for every j <= i
    (exact real arithmetic). *)
Theorem cholesky_decomposition_factorises (A L : Matrix R) (i j : nat) :
  cholesky_decomposition A = Ok L ->
  (j <= i)%nat -> (i < rows_ A)%nat ->
  rows_ L = rows_ A /\ cols_ L = rows_ A
  /\ Rsum (map (fun k => mget L i k * mget L j k) (seq 0 (rows_ A))) = mget A i j
  /\ 0 < mget L i i
  /\ (forall k, (i < k)%nat -> (k < rows_ A)%nat -> mget L i k = 0).
Proof.
  unfold cholesky_decomposition. destruct (negb _); [discriminate|].
  intros E Hji Hi.
  destruct (@cholesky_rows_invariant A (rows_ A) (rows_ A) (Nat.le_refl _) L E)
    as ((Hr & Hc & _) & Hsum & Hdiag & Hzero).
  split; [exact Hr|]. split; [exact Hc|]. split; [|split].
  - rewrite <- (Hsum i j Hi) by (left; lia). unfold partial_sum.
    replace (rows_ A) with ((j + 1) + (rows_ A - (j + 1)))%nat at 1 by lia.
    rewrite seq_app, map_app, Rsum_app.
    assert (Hz : Rsum (map (fun k => mget L i k * mget L j k)
                         (seq (0 + (j + 1)) (rows_ A - (j + 1)))) = 0).
    { apply Rsum_map_zero. intros k Hk. apply in_seq in Hk.
      rewrite (Hzero j k) by (try lia; intros [[? ?]|[? ?]]; lia). ring. }
    rewrite Hz. lra.
  - apply Hdiag; [exact Hi|]. left; lia.
  - intros k Hik Hk. apply Hzero; try assumption. intros [[? ?]|[? ?]]; lia.
Qed.

Lemma sample_cholesky : exists L, cholesky_decomposition sample_matrix = Ok L.
Proof.
  unfold cholesky_decomposition, sample_matrix.
  cbn [rows_ cols_ Nat.eqb negb seq rfold Nat.add rbind].
  unfold cholesky_entry at 1. cbn [seq fold_left Nat.eqb].
  unfold mget at 1. cbn [cols_ data_ Nat.mul Nat.add vget nth]. real_ops.
  rewrite (@Rleb_gt (2 - 0) 0) by lra. cbn [rbind].
  unfold cholesky_entry at 1. cbn [seq fold_left Nat.eqb rbind].
  unfold cholesky_entry at 1. cbn [seq fold_left Nat.eqb].
  unfold Matrix_new, mset, mget.
  cbn [rows_ cols_ data_ Nat.mul Nat.add repeat vset vget nth]. real_ops.
  assert (Hs : sqrt (2 - 0) * sqrt (2 - 0) = 2) by (rewrite sqrt_sqrt; lra).
  assert (Hp : 0 < sqrt (2 - 0)) by (apply sqrt_lt_R0; lra).
  rewrite Rleb_gt.
  - eexists; reflexivity.
  - replace (3 - (0 + (1 - 0) / sqrt (2 - 0) * ((1 - 0) / sqrt (2 - 0))))
      with (3 - 1 / (sqrt (2 - 0) * sqrt (2 - 0))) by (field; lra).
    rewrite Hs. lra.
Qed.

Lemma cholesky_witness :
  exists L,
    cholesky_decomposition sample_matrix = Ok L
    /\ (0 <= 1)%nat /\ (1 < rows_ sample_matrix)%nat
    /\ Rsum (map (fun k => mget L 1 k * mget L 0 k) (seq 0 (rows_ sample_matrix)))
       = mget sample_matrix 1 0.
Proof.
  destruct sample_cholesky as [L HL].
  assert (H1 : (0 <= 1)%nat) by lia.
  assert (H2 : (1 < rows_ sample_matrix)%nat) by (cbn; lia).
  exists L. split; [exact HL|]. split; [exact H1|]. split; [exact H2|].
  exact (proj1 (proj2 (proj2
           (@cholesky_decomposition_factorises sample_matrix L 1%nat 0%nat HL H1 H2)))).
Defined.
